(** * Maze generation, shortest-path search and traversal analytics

    A shallow embedding of [src/components/maze-game.tsx]: the maze
    generator [generateMaze], the breadth-first [findOptimalPath], the
    deviation measure [calculatePathDeviation], and the episode state
    machine formed by [startGame], [handleMove] and the metrics record
    handed to [onComplete]; then the handlers of the component
    PatternPuzzler of the same file, and [handleGameComplete] of the
    component GameSeries, which mounts the games and receives their
    scores. *)

From stdpp Require Import base numbers list gmap sets strings pretty.
From Stdlib Require Import Ascii QArith.

Local Open Scope Z_scope.

(** ** JavaScript values used by the component *)

(** Run-time faults.  [TypeError] is what reading or writing a property of
    [undefined] raises (for instance [maze[y][x]] when [maze[y]] does not
    exist).  [OutOfRow] stands for an assignment [row[x] = v] past the ends
    of [row]: JavaScript would grow the array there; this development
    treats it as a fault and shows that it never happens.  [OutOfFuel] is
    the model running out of loop iterations, which is shown not to happen
    either. *)
Inductive error : Type := TypeError | OutOfRow | OutOfFuel.

Inductive result (A : Type) : Type :=
| Ok (a : A)
| Throw (e : error).
Arguments Ok {A} a.
Arguments Throw {A} e.

#[global] Instance result_ret : MRet result := fun A a => Ok a.
#[global] Instance result_bind : MBind result := fun A B f m =>
  match m with
  | Ok a => f a
  | Throw e => Throw e
  end.

(** [for (const a of l) body(a)] over a state [s]. *)
Fixpoint for_each {A S : Type} (l : list A) (body : A → S → result S) (s : S)
  : result S :=
  match l with
  | [] => Ok s
  | a :: l' => s' ← body a s; for_each l' body s'
  end.

(** [arr[i]]: [None] is JavaScript's [undefined]. *)
Definition js_get {A : Type} (arr : list A) (i : Z) : option A :=
  if decide (0 ≤ i) then arr !! Z.to_nat i else None.

(** [m[cy][cx]] *)
Definition read2 {A : Type} (m : list (list A)) (cx cy : Z) : result (option A) :=
  match js_get m cy with
  | None => Throw TypeError
  | Some row => Ok (js_get row cx)
  end.

(** The content of [m] at column [cx] of row [cy], if there is one. *)
Definition at2 {A : Type} (m : list (list A)) (cx cy : Z) : option A :=
  row ← js_get m cy; js_get row cx.

(** [m[cy][cx] = v] *)
Definition write2 {A : Type} (m : list (list A)) (cx cy : Z) (v : A)
  : result (list (list A)) :=
  match js_get m cy with
  | None => Throw TypeError
  | Some row =>
      if decide (0 ≤ cx < Z.of_nat (length row))
      then Ok (<[Z.to_nat cy := <[Z.to_nat cx := v]> row]> m)
      else Throw OutOfRow
  end.

(** ** Constants and data *)

Definition PLAYER : string := "P".
Definition WALL : string := "#".
Definition EXIT : string := "E".
Definition PATH : string := " ".

Abbreviation Grid := (list (list string)).

Record Point : Type := mkPoint { x : Z; y : Z }.

#[global] Instance Point_eq_dec : EqDecision Point.
Proof. solve_decision. Defined.

#[global] Instance Point_countable : Countable Point :=
  inj_countable' (λ p, (p.(x), p.(y))) (λ q, mkPoint q.1 q.2)
    (λ p, match p with mkPoint _ _ => eq_refl end).

Record QueueItem : Type := mkItem { point : Point; path : list Point }.

(** The template literal [`${p.x},${p.y}`]. *)
Definition key (p : Point) : string :=
  pretty p.(x) +:+ "," +:+ pretty p.(y).

(** The shuffle [directions.sort(() => Math.random() - 0.5)] is modelled by
    an oracle: [shuffle k l] is the order in which the [k]-th call to
    [sort] of a generation run leaves the array [l]. *)
Definition Shuffle : Type := nat → list (Z * Z) → list (Z * Z).


(** JavaScript numbers produced by the divisions of the metrics.  A finite
    quotient is kept as an exact rational (the rounding of the floating-point
    division is not modelled); division by zero gives [Infinity],
    [NegInfinity] or [NaN] as in JavaScript. *)
Inductive number : Type :=
| Fin (q : Q)
| Infinity
| NegInfinity
| NaN.

(** [a / b] for integers [a] and [b]. *)
Definition js_div (a b : Z) : number :=
  if decide (b = 0) then
    if decide (0 < a) then Infinity
    else if decide (a < 0) then NegInfinity
    else NaN
  else Fin (inject_Z a / inject_Z b)%Q.

(** [1 - n] *)
Definition js_one_minus (n : number) : number :=
  match n with
  | Fin q => Fin (1 - q)%Q
  | Infinity => NegInfinity
  | NegInfinity => Infinity
  | NaN => NaN
  end.

Inductive GameState : Type := ready | playing | gameOver.

#[global] Instance GameState_eq_dec : EqDecision GameState.
Proof. solve_decision. Defined.

(** The four keys that [handleKeyDown] forwards to [handleMove]. *)
Inductive Key : Type := ArrowUp | ArrowDown | ArrowLeft | ArrowRight.

#[global] Instance Key_eq_dec : EqDecision Key.
Proof. solve_decision. Defined.

(** [key.replace('Arrow', '').toLowerCase()] *)
Definition directionKey (k : Key) : string :=
  match k with
  | ArrowUp => "up"
  | ArrowDown => "down"
  | ArrowLeft => "left"
  | ArrowRight => "right"
  end.

(** The direction that [handleKeyDown] pairs with each key. *)
Definition key_direction (k : Key) : Point :=
  match k with
  | ArrowUp => mkPoint 0 (-1)
  | ArrowDown => mkPoint 0 1
  | ArrowLeft => mkPoint (-1) 0
  | ArrowRight => mkPoint 1 0
  end.

Module MovePatterns.
Record t : Type := mk { up : Z; down : Z; left : Z; right : Z }.

(** [{ ...prev, [directionKey]: prev[directionKey] + 1 }] *)
Definition bump (k : Key) (prev : t) : t :=
  match k with
  | ArrowUp => mk (up prev + 1) (down prev) (left prev) (right prev)
  | ArrowDown => mk (up prev) (down prev + 1) (left prev) (right prev)
  | ArrowLeft => mk (up prev) (down prev) (left prev + 1) (right prev)
  | ArrowRight => mk (up prev) (down prev) (left prev) (right prev + 1)
  end.

Definition get (k : Key) (m : t) : Z :=
  match k with
  | ArrowUp => up m
  | ArrowDown => down m
  | ArrowLeft => left m
  | ArrowRight => right m
  end.
End MovePatterns.

Record HalfMetrics : Type := mkHalf { moves : Z; collisions : Z; time : Z }.

Record Performance : Type := mkPerformance { speed : number; accuracy : number }.

(** The record [MazeMetrics] handed to [onComplete]. *)
Module Metrics.
Record t : Type := mk {
  completionTime : Z;
  totalMoves : Z;
  wallCollisions : Z;
  backtrackCount : Z;
  pathLength : Z;
  optimalPathLength : Z;
  pathEfficiency : number;
  averageTimePerMove : number;
  movementPatterns : MovePatterns.t;
  heatmap : list (list Z);
  firstHalf : Performance;
  secondHalf : Performance;
  pathDeviation : Z;
  optimalPath : list Point;
  actualPath : list Point
}.
End Metrics.

(** The state variables of the component [MazeGame] (the displayed [score],
    a floating-point formula, is left out). *)
Record State : Type := mkState {
  maze : Grid;
  playerPos : Point;
  gameState : GameState;
  timeLeft : Z;
  startTime : Z;
  moveCount : Z;
  wallCollisions : Z;
  backtrackCount : Z;
  movementHistory : list string;
  visitedCells : gset string;
  movePatterns : MovePatterns.t;
  firstHalfMetrics : HalfMetrics;
  heatmap : list (list Z);
  optimalPath : list Point;
  actualPath : list Point;
  pathDeviation : Z
}.

(** [h[cy][cx]++] on a matrix of integers.  On a missing cell JavaScript
    would store [NaN]; that is the fault [OutOfRow] here. *)
Definition incr2 (h : list (list Z)) (cx cy : Z) : result (list (list Z)) :=
  c ← read2 h cx cy;
  match c with
  | Some n => write2 h cx cy (n + 1)
  | None => Throw OutOfRow
  end.

(** ** calculatePathDeviation *)

Definition calculatePathDeviation (optimalPath actualPath : list Point) : Z :=
  let optimalSet : gset string := list_to_set (key <$> optimalPath) in
  let actualSet : gset string := list_to_set (key <$> actualPath) in
  let extraMoves := length (filter (λ pos, pos ∉ optimalSet) (elements actualSet)) in
  let missedMoves := length (filter (λ pos, pos ∉ actualSet) (elements optimalSet)) in
  Z.of_nat extraMoves + Z.of_nat missedMoves.

Section WithSize.

(** [MAZE_SIZE] is a module constant of the source ([21]); the functions that
    read it are developed for an arbitrary value and instantiated below. *)
Variable MAZE_SIZE : Z.

(** ** generateMaze *)

Definition carve_directions : list (Z * Z) := [(0, -2); (0, 2); (-2, 0); (2, 0)].

(** [carvePath(x, y)], on the grid and the number of shuffles made so far.
    The recursion is bounded by [fuel]; the steps are [-2], [0] and [2], on
    which the division [d / 2] of the source is exact. *)
Fixpoint carvePath (shuffle : Shuffle) (fuel : nat) (cx cy : Z)
    (st : Grid * nat) : result (Grid * nat) :=
  match fuel with
  | O => Throw OutOfFuel
  | S fuel' =>
      maze ← write2 st.1 cx cy PATH;
      let directions := shuffle st.2 carve_directions in
      for_each directions (fun d st' =>
        let newX := cx + d.1 in
        let newY := cy + d.2 in
        if decide (newX > 0 ∧ newX < MAZE_SIZE - 1 ∧
                   newY > 0 ∧ newY < MAZE_SIZE - 1) then
          c ← read2 st'.1 newX newY;
          if decide (c = Some WALL) then
            maze1 ← write2 st'.1 newX newY PATH;
            maze2 ← write2 maze1 (cx + d.1 / 2) (cy + d.2 / 2) PATH;
            carvePath shuffle fuel' newX newY (maze2, st'.2)
          else Ok st'
        else Ok st') (maze, S st.2)
  end.

Definition all_walls : Grid :=
  replicate (Z.to_nat MAZE_SIZE) (replicate (Z.to_nat MAZE_SIZE) WALL).

(** Every nested call is made for a cell that was a wall, so that the depth
    of the recursion stays below the number of cells. *)
Definition carve_fuel : nat := S (Z.to_nat (MAZE_SIZE * MAZE_SIZE)).

Definition generateMaze (shuffle : Shuffle) : result Grid :=
  st ← carvePath shuffle carve_fuel 1 1 (all_walls, O);
  maze1 ← write2 st.1 1 1 PLAYER;
  write2 maze1 (MAZE_SIZE - 2) (MAZE_SIZE - 2) EXIT.

(** ** findOptimalPath *)

Definition directions : list Point :=
  [ mkPoint 0 (-1); mkPoint 0 1; mkPoint (-1) 0; mkPoint 1 0 ].

(** One round of the [for (const dir of directions)] loop. *)
Definition visit (maze : Grid) (item : QueueItem) (dir : Point)
    (st : list QueueItem * gset string) : result (list QueueItem * gset string) :=
  let newX := item.(point).(x) + dir.(x) in
  let newY := item.(point).(y) + dir.(y) in
  let newPoint := mkPoint newX newY in
  if decide (newX >= 0 ∧ newX < MAZE_SIZE ∧ newY >= 0 ∧ newY < MAZE_SIZE) then
    c ← read2 maze newX newY;
    if decide (c ≠ Some WALL ∧ key newPoint ∉ st.2) then
      Ok (st.1 ++ [mkItem newPoint (item.(path) ++ [newPoint])],
          {[key newPoint]} ∪ st.2)
    else Ok st
  else Ok st.

(** The [while (queue.length > 0)] loop. *)
Fixpoint bfs_loop (fuel : nat) (maze : Grid) (end_ : Point)
    (st : list QueueItem * gset string) : result (list Point) :=
  match fuel with
  | O => Throw OutOfFuel
  | S fuel' =>
      match st.1 with
      | [] => Ok []
      | item :: rest =>
          if decide (item.(point).(x) = end_.(x) ∧ item.(point).(y) = end_.(y))
          then Ok item.(path)
          else
            st' ← for_each directions (visit maze item) (rest, st.2);
            bfs_loop fuel' maze end_ st'
      end
  end.

(** Every cell within the bounds enters the queue at most once, so that the
    loop makes at most one round per cell, and one more to find the queue
    empty. *)
Definition bfs_fuel : nat := S (S (Z.to_nat (MAZE_SIZE * MAZE_SIZE))).

Definition findOptimalPath (maze : Grid) (start end_ : Point) : result (list Point) :=
  bfs_loop bfs_fuel maze end_ ([mkItem start [start]], {[key start]}).

(** ** The episode: startGame, handleMove, the timer and the final metrics *)

Definition startGame (shuffle : Shuffle) (now : Z) : result State :=
  newMaze ← generateMaze shuffle;
  let startPoint := mkPoint 1 1 in
  let endPoint := mkPoint (MAZE_SIZE - 2) (MAZE_SIZE - 2) in
  optimal ← findOptimalPath newMaze startPoint endPoint;
  Ok {| maze := newMaze;
        optimalPath := optimal;
        playerPos := startPoint;
        actualPath := [startPoint];
        pathDeviation := 0;
        gameState := playing;
        timeLeft := 60;
        startTime := now;
        moveCount := 0;
        wallCollisions := 0;
        backtrackCount := 0;
        movementHistory := [];
        visitedCells := {["1,1"]};
        movePatterns := MovePatterns.mk 0 0 0 0;
        firstHalfMetrics := mkHalf 0 0 0;
        heatmap := replicate (Z.to_nat MAZE_SIZE) (replicate (Z.to_nat MAZE_SIZE) 0) |}.

(** The guarded first-half figures, shared by both metrics records. *)
Definition firstHalfPerformance (fh : HalfMetrics) : Performance :=
  {| speed := if decide (fh.(moves) > 0) then js_div fh.(time) fh.(moves) else Fin 0;
     accuracy := if decide (fh.(moves) > 0)
                 then js_one_minus (js_div fh.(collisions) fh.(moves)) else Fin 0 |}.

(** The metrics record built inside [handleMove] when the exit is reached.
    It is computed from the values captured by the callback, i.e. the state
    [s] before this move, except for the heatmap: the captured array shares
    its rows with the updated one, and they are incremented in place before
    [onComplete] runs, so the record shows [newHeatmap]. *)
Definition completionMetrics (s : State) (newPos : Point) (now : Z)
    (newHeatmap : list (list Z)) : Metrics.t :=
  let totalTime := now - s.(startTime) in
  let finalDeviation := calculatePathDeviation s.(optimalPath) (s.(actualPath) ++ [newPos]) in
  let fh := s.(firstHalfMetrics) in
  {| Metrics.completionTime := totalTime;
     Metrics.totalMoves := s.(moveCount) + 1;
     Metrics.wallCollisions := s.(wallCollisions);
     Metrics.backtrackCount := s.(backtrackCount);
     Metrics.pathLength := Z.of_nat (length s.(movementHistory)) + 1;
     Metrics.optimalPathLength := Z.of_nat (length s.(optimalPath));
     Metrics.pathEfficiency :=
       js_div (Z.of_nat (length s.(optimalPath))) (Z.of_nat (length s.(movementHistory)) + 1);
     Metrics.pathDeviation := finalDeviation;
     Metrics.optimalPath := s.(optimalPath);
     Metrics.actualPath := s.(actualPath) ++ [newPos];
     Metrics.averageTimePerMove := js_div totalTime (s.(moveCount) + 1);
     Metrics.movementPatterns := s.(movePatterns);
     Metrics.heatmap := newHeatmap;
     Metrics.firstHalf := firstHalfPerformance fh;
     Metrics.secondHalf :=
       {| speed := js_div (totalTime - fh.(time)) (s.(moveCount) - fh.(moves));
          accuracy := js_one_minus
            (js_div (s.(wallCollisions) - fh.(collisions)) (s.(moveCount) - fh.(moves))) |} |}.

(** [handleMove(direction, key)] on the state [s] that the component last
    rendered, at time [now]: all reads of [Date.now()] within one handler are
    taken to give the same value, and every state updater is applied once.
    The second component of the result is the metrics record passed to
    [onComplete] when this move reaches the exit. *)
Definition handleMove (direction : Point) (k : Key) (now : Z) (s : State)
  : result (State * option Metrics.t) :=
  if decide (s.(gameState) ≠ playing) then Ok (s, None) else
  let newPos := mkPoint (s.(playerPos).(x) + direction.(x))
                        (s.(playerPos).(y) + direction.(y)) in
  let newPatterns := MovePatterns.bump k s.(movePatterns) in
  c ← read2 s.(maze) newPos.(x) newPos.(y);
  if decide (c = Some WALL) then
    Ok ({| maze := s.(maze);
           playerPos := s.(playerPos);
           gameState := s.(gameState);
           timeLeft := s.(timeLeft);
           startTime := s.(startTime);
           moveCount := s.(moveCount);
           wallCollisions := s.(wallCollisions) + 1;
           backtrackCount := s.(backtrackCount);
           movementHistory := s.(movementHistory);
           visitedCells := s.(visitedCells);
           movePatterns := newPatterns;
           firstHalfMetrics := s.(firstHalfMetrics);
           heatmap := s.(heatmap);
           optimalPath := s.(optimalPath);
           actualPath := s.(actualPath);
           pathDeviation := s.(pathDeviation) |}, None)
  else
    let newPosKey := key newPos in
    let newBacktrack :=
      if decide (newPosKey ∈ s.(visitedCells))
      then s.(backtrackCount) + 1 else s.(backtrackCount) in
    newHeatmap ← incr2 s.(heatmap) newPos.(x) newPos.(y);
    let newFirstHalf :=
      if decide (s.(moveCount) = (MAZE_SIZE * MAZE_SIZE) `div` 2)
      then mkHalf s.(moveCount) s.(wallCollisions) (now - s.(startTime))
      else s.(firstHalfMetrics) in
    let complete :=
      bool_decide (newPos.(x) = MAZE_SIZE - 2 ∧ newPos.(y) = MAZE_SIZE - 2) in
    Ok ({| maze := s.(maze);
           playerPos := newPos;
           gameState := if complete then gameOver else s.(gameState);
           timeLeft := s.(timeLeft);
           startTime := s.(startTime);
           moveCount := s.(moveCount) + 1;
           wallCollisions := s.(wallCollisions);
           backtrackCount := newBacktrack;
           movementHistory := s.(movementHistory) ++ [directionKey k];
           visitedCells := s.(visitedCells) ∪ {[newPosKey]};
           movePatterns := newPatterns;
           firstHalfMetrics := newFirstHalf;
           heatmap := newHeatmap;
           optimalPath := s.(optimalPath);
           actualPath := s.(actualPath) ++ [newPos];
           pathDeviation :=
             if complete
             then calculatePathDeviation s.(optimalPath) (s.(actualPath) ++ [newPos])
             else s.(pathDeviation) |},
        if complete then Some (completionMetrics s newPos now newHeatmap) else None).

(** One firing of the one-second timer. *)
Definition tick (s : State) : State :=
  if decide (s.(gameState) = playing) then
    {| maze := s.(maze);
       playerPos := s.(playerPos);
       gameState := if decide (s.(timeLeft) ≤ 1) then gameOver else s.(gameState);
       timeLeft := if decide (s.(timeLeft) ≤ 1) then 0 else s.(timeLeft) - 1;
       startTime := s.(startTime);
       moveCount := s.(moveCount);
       wallCollisions := s.(wallCollisions);
       backtrackCount := s.(backtrackCount);
       movementHistory := s.(movementHistory);
       visitedCells := s.(visitedCells);
       movePatterns := s.(movePatterns);
       firstHalfMetrics := s.(firstHalfMetrics);
       heatmap := s.(heatmap);
       optimalPath := s.(optimalPath);
       actualPath := s.(actualPath);
       pathDeviation := s.(pathDeviation) |}
  else s.

(** The metrics record that the [Next Game] button of the game-over screen
    passes to [onComplete], at time [now]. *)
Definition nextGameMetrics (s : State) (now : Z) : Metrics.t :=
  let fh := s.(firstHalfMetrics) in
  {| Metrics.completionTime := now - s.(startTime);
     Metrics.totalMoves := s.(moveCount);
     Metrics.wallCollisions := s.(wallCollisions);
     Metrics.backtrackCount := s.(backtrackCount);
     Metrics.pathLength := Z.of_nat (length s.(movementHistory));
     Metrics.optimalPathLength := Z.of_nat (length s.(optimalPath));
     Metrics.pathEfficiency :=
       js_div (Z.of_nat (length s.(optimalPath))) (Z.of_nat (length s.(movementHistory)));
     Metrics.averageTimePerMove := js_div (now - s.(startTime)) s.(moveCount);
     Metrics.movementPatterns := s.(movePatterns);
     Metrics.heatmap := s.(heatmap);
     Metrics.firstHalf := firstHalfPerformance fh;
     Metrics.secondHalf :=
       {| speed := if decide (s.(moveCount) > fh.(moves))
                   then js_div (now - s.(startTime) - fh.(time)) (s.(moveCount) - fh.(moves))
                   else Fin 0;
          accuracy := if decide (s.(moveCount) > fh.(moves))
                      then js_one_minus (js_div (s.(wallCollisions) - fh.(collisions))
                                                (s.(moveCount) - fh.(moves)))
                      else Fin 0 |};
     Metrics.pathDeviation := s.(pathDeviation);
     Metrics.optimalPath := s.(optimalPath);
     Metrics.actualPath := s.(actualPath) ++ [mkPoint (MAZE_SIZE - 2) (MAZE_SIZE - 2)] |}.

(** What the driver delivers to a running episode: an arrow key at a given
    time, or a firing of the timer. *)
Inductive event : Type :=
| Press (k : Key) (now : Z)
| Tick.

Definition step (e : event) (s : State) : result State :=
  match e with
  | Press k now => r ← handleMove (key_direction k) k now s; Ok r.1
  | Tick => Ok (tick s)
  end.

Definition run (es : list event) (s : State) : result State :=
  for_each es step s.

End WithSize.

(** The value of the constant in the source. *)
Definition MAZE_SIZE : Z := 21.

(** ** PatternPuzzler *)

(** The second component of the source file.  Its handlers run to completion
    one at a time, each on the state that the component last rendered; the
    tile highlighted on the screen ([activeTile]) is left out. *)
Module PatternPuzzler.

Inductive Phase : Type := ready | playing | showing | input | gameOver.

#[global] Instance Phase_eq_dec : EqDecision Phase.
Proof. solve_decision. Defined.

Record State : Type := mk {
  gameState : Phase;
  pattern : list Z;
  playerInput : list Z;
  level : Z;
  timeLeft : Z;
  score : Z;
  highestLevel : Z
}.

(** The values of [useState] when nothing is stored for the session. *)
Definition initial : State :=
  {| gameState := ready;
     pattern := [];
     playerInput := [];
     level := 1;
     timeLeft := 60;
     score := 0;
     highestLevel := 0 |}.

(** [generatePattern()], called through a closure that captured the pattern
    [captured]; [r] is the outcome of [Math.floor(Math.random() * 3)]. *)
Definition generatePattern (captured : list Z) (r : Z) (s : State) : State :=
  {| gameState := s.(gameState);
     pattern := captured ++ [r];
     playerInput := s.(playerInput);
     level := s.(level);
     timeLeft := s.(timeLeft);
     score := s.(score);
     highestLevel := s.(highestLevel) |}.

(** The part of [startGame] that runs at once. *)
Definition startGame (s : State) : State :=
  {| gameState := playing;
     pattern := [];
     playerInput := [];
     level := 1;
     timeLeft := 60;
     score := 0;
     highestLevel := s.(highestLevel) |}.

(** The callback that [startGame] and [handleTileClick] schedule one second
    ahead: [generatePattern(); setGameState("showing")]. *)
Definition nextPattern (captured : list Z) (r : Z) (s : State) : State :=
  let s1 := generatePattern captured r s in
  {| gameState := showing;
     pattern := s1.(pattern);
     playerInput := s1.(playerInput);
     level := s1.(level);
     timeLeft := s1.(timeLeft);
     score := s1.(score);
     highestLevel := s1.(highestLevel) |}.

(** The end of the presentation of the pattern: the interval of the effect,
    which exists while the pattern is being shown and is not empty, calls
    [setGameState("input")]. *)
Definition shown (s : State) : State :=
  if decide (s.(gameState) = showing ∧ Z.of_nat (length s.(pattern)) > 0) then
    {| gameState := input;
       pattern := s.(pattern);
       playerInput := s.(playerInput);
       level := s.(level);
       timeLeft := s.(timeLeft);
       score := s.(score);
       highestLevel := s.(highestLevel) |}
  else s.

(** [handleTileClick(tileIndex)] *)
Definition handleTileClick (tileIndex : Z) (s : State) : State :=
  if decide (s.(gameState) ≠ input) then s else
  let newInput := s.(playerInput) ++ [tileIndex] in
  let currentIndex := Z.of_nat (length s.(playerInput)) in
  if decide (Some tileIndex ≠ js_get s.(pattern) currentIndex) then
    {| gameState := gameOver;
       pattern := s.(pattern);
       playerInput := newInput;
       level := s.(level);
       timeLeft := s.(timeLeft);
       score := s.(score);
       highestLevel :=
         if decide (s.(level) > s.(highestLevel)) then s.(level)
         else s.(highestLevel) |}
  else if decide (length newInput = length s.(pattern)) then
    {| gameState := s.(gameState);
       pattern := s.(pattern);
       playerInput := [];
       level := s.(level) + 1;
       timeLeft := s.(timeLeft);
       score := s.(score) + s.(level) * 10;
       highestLevel := s.(highestLevel) |}
  else
    {| gameState := s.(gameState);
       pattern := s.(pattern);
       playerInput := newInput;
       level := s.(level);
       timeLeft := s.(timeLeft);
       score := s.(score);
       highestLevel := s.(highestLevel) |}.

(** One firing of the one-second timer, which exists in the phases
    [playing], [showing] and [input]. *)
Definition tick (s : State) : State :=
  if decide (s.(gameState) = playing ∨ s.(gameState) = showing ∨
             s.(gameState) = input) then
    if decide (s.(timeLeft) ≤ 1) then
      {| gameState := gameOver;
         pattern := s.(pattern);
         playerInput := s.(playerInput);
         level := s.(level);
         timeLeft := 0;
         score := s.(score);
         highestLevel :=
           if decide (s.(level) > s.(highestLevel)) then s.(level)
           else s.(highestLevel) |}
    else
      {| gameState := s.(gameState);
         pattern := s.(pattern);
         playerInput := s.(playerInput);
         level := s.(level);
         timeLeft := s.(timeLeft) - 1;
         score := s.(score);
         highestLevel := s.(highestLevel) |}
  else s.

(** The score that [handleComplete] passes to [onComplete]. *)
Definition handleComplete (s : State) : Z := s.(score).

(** The handlers that the browser may run, with the values they captured. *)
Inductive event : Type :=
| Start
| Scheduled (captured : list Z) (r : Z)
| Shown
| Tick
| Click (tileIndex : Z).

Definition step (e : event) (s : State) : State :=
  match e with
  | Start => startGame s
  | Scheduled captured r => nextPattern captured r s
  | Shown => shown s
  | Tick => tick s
  | Click tileIndex => handleTileClick tileIndex s
  end.

Definition run (es : list event) (s : State) : State := foldl (flip step) s es.

(** A session in which every scheduled callback has run before the next
    click: the player repeats the pattern of each level, [rs] being the tiles
    drawn, level by level. *)
Fixpoint perfect_session (rs : list Z) (shown_so_far : list Z) : list event :=
  match rs with
  | [] => []
  | r :: rs' =>
      Scheduled shown_so_far r :: Shown ::
      (Click <$> (shown_so_far ++ [r])) ++ perfect_session rs' (shown_so_far ++ [r])
  end.

End PatternPuzzler.

(** ** GameSeries *)

(** The component that mounts the games one after the other and receives
    their scores through [onComplete]. *)
Module GameSeries.

Inductive GameType : Type :=
| stroop | hanoi | pattern | maze | memory | word | complete.

#[global] Instance GameType_eq_dec : EqDecision GameType.
Proof. solve_decision. Defined.

#[global] Instance GameType_countable : Countable GameType :=
  inj_countable'
    (λ g, match g with
          | stroop => 0 | hanoi => 1 | pattern => 2 | maze => 3
          | memory => 4 | word => 5 | complete => 6
          end%nat)
    (λ n, match n with
          | 0 => stroop | 1 => hanoi | 2 => pattern | 3 => maze
          | 4 => memory | 5 => word | _ => complete
          end%nat)
    (λ g, match g with
          | stroop | hanoi | pattern | maze | memory | word | complete => eq_refl
          end).

(** The state variables of the component but [userData]; [M] is the type of
    the metrics records, and [None] for [currentGame] is [undefined]. *)
Record State (M : Type) : Type := mk {
  currentGame : option GameType;
  totalScore : Z;
  gameScores : gmap GameType Z;
  cognitiveMetrics : gmap GameType M;
  gameStates : gmap GameType bool
}.
Arguments mk {M}.
Arguments currentGame {M}.
Arguments totalScore {M}.
Arguments gameScores {M}.
Arguments cognitiveMetrics {M}.
Arguments gameStates {M}.

Definition gameOrder : list GameType :=
  [stroop; hanoi; pattern; maze; memory; word; complete].

(** [l.indexOf(g)] *)
Definition indexOf (l : list GameType) (g : GameType) : Z :=
  match list_find (λ g', g' = g) l with
  | Some (i, _) => Z.of_nat i
  | None => -1
  end.

(** The values of [useState], to which [restartSeries] returns. *)
Definition initial {M : Type} : State M :=
  {| currentGame := Some stroop;
     totalScore := 0;
     gameScores :=
       <[stroop := 0]> (<[hanoi := 0]> (<[pattern := 0]> (<[maze := 0]>
         (<[memory := 0]> (<[word := 0]> ∅)))));
     cognitiveMetrics := ∅;
     gameStates :=
       <[stroop := false]> (<[hanoi := false]> (<[pattern := false]>
         (<[maze := false]> (<[memory := false]> (<[word := false]>
           (<[complete := false]> ∅)))))) |}.

Definition restartSeries {M : Type} (s : State M) : State M := initial.

(** [handleGameComplete(game, score, metrics)]; a game that passes no
    metrics, or a falsy value, gives [None]. *)
Definition handleGameComplete {M : Type} (game : GameType) (score : Z)
    (metrics : option M) (s : State M) : State M :=
  let currentIndex := indexOf gameOrder game in
  {| gameStates := <[game := true]> s.(gameStates);
     gameScores := <[game := score]> s.(gameScores);
     totalScore := s.(totalScore) + score;
     cognitiveMetrics :=
       match metrics with
       | Some m => <[game := m]> s.(cognitiveMetrics)
       | None => s.(cognitiveMetrics)
       end;
     currentGame :=
       if decide (currentIndex < Z.of_nat (length gameOrder) - 1)
       then js_get gameOrder (currentIndex + 1)
       else s.(currentGame) |}.

(** The games report in the order in which they are mounted: each report
    comes from the current game, and no game is mounted once the series is
    complete. *)
Fixpoint play {M : Type} (reports : list (Z * option M)) (s : State M) : State M :=
  match reports with
  | [] => s
  | r :: reports' =>
      match s.(currentGame) with
      | Some complete | None => s
      | Some game => play reports' (handleGameComplete game r.1 r.2 s)
      end
  end.

(** Reports from any games in any order. *)
Definition reported {M : Type} (reports : list (GameType * Z * option M))
    (s : State M) : State M :=
  foldl (λ s r, handleGameComplete r.1.1 r.1.2 r.2 s) s reports.

(** The sum of the entries of the scores table. *)
Definition scoreSum (scores : gmap GameType Z) : Z :=
  map_fold (λ _ v acc, v + acc) 0 scores.

End GameSeries.


(** * Vocabulary of the statements *)

(** ** Cells and paths of a grid *)

(** The content of the cell at [p], if the grid has one there. *)
Definition cell_at (maze : Grid) (p : Point) : option string :=
  at2 maze p.(x) p.(y).

(** An Open cell: a cell of the grid that holds anything but [WALL]. *)
Definition open_cell (maze : Grid) (p : Point) : Prop :=
  match cell_at maze p with
  | Some c => c ≠ WALL
  | None => False
  end.

#[global] Instance open_cell_dec maze p : Decision (open_cell maze p).
Proof. unfold open_cell. destruct (cell_at maze p); apply _. Defined.

(** A grid of side [N]: [N] rows of [N] cells. *)
Definition square {A : Type} (N : Z) (m : list (list A)) : Prop :=
  length m = Z.to_nat N ∧ Forall (λ row, length row = Z.to_nat N) m.

#[global] Instance square_dec {A : Type} N (m : list (list A)) : Decision (square N m).
Proof. unfold square. apply _. Defined.

(** Grid-adjacent: Manhattan distance 1. *)
Definition adjacent (p q : Point) : Prop :=
  Z.abs (p.(x) - q.(x)) + Z.abs (p.(y) - q.(y)) = 1.

#[global] Instance adjacent_dec p q : Decision (adjacent p q).
Proof. unfold adjacent. apply _. Defined.

(** Consecutive elements of [l] are related by [R]. *)
Fixpoint chain {A : Type} (R : A → A → Prop) (l : list A) : Prop :=
  match l with
  | a :: l' => match l' with b :: _ => R a b | [] => True end ∧ chain R l'
  | [] => True
  end.

#[global] Instance chain_dec {A : Type} (R : A → A → Prop)
  `{!∀ a b, Decision (R a b)} (l : list A) : Decision (chain R l).
Proof.
  induction l as [|a [|b l'] IH]; simpl; [apply _..|].
  simpl in IH. apply _.
Defined.

(** [l] leads from [a] to [b]. *)
Definition connects (l : list Point) (a b : Point) : Prop :=
  head l = Some a ∧ last l = Some b.

#[global] Instance connects_dec l a b : Decision (connects l a b).
Proof. unfold connects. apply _. Defined.

(** A path of the grid: a sequence of Open cells, each grid-adjacent to the
    next. *)
Definition grid_path (maze : Grid) (l : list Point) : Prop :=
  Forall (open_cell maze) l ∧ chain adjacent l.

#[global] Instance grid_path_dec maze l : Decision (grid_path maze l).
Proof. unfold grid_path. apply _. Defined.

(** A path of the grid from [a] to [b]. *)
Definition route (maze : Grid) (a b : Point) (l : list Point) : Prop :=
  grid_path maze l ∧ connects l a b.

(** The distinct cells of a path. *)
Definition cells (p : list Point) : gset Point := list_to_set p.

Fixpoint comma_free (s : string) : Prop :=
  match s with
  | EmptyString => True
  | String c s' => c ≠ ","%char ∧ comma_free s'
  end.

(** ** Invariant of the search loop *)

(** The keys of the cells within the bounds that [findOptimalPath] checks. *)
Definition all_keys (N : Z) : gset string :=
  list_to_set (i ← seqZ 0 N; j ← seqZ 0 N; [key (mkPoint i j)]).

(** A visited cell that has left the queue: it is not the target, and its
    Open neighbours are all visited. *)
Definition expanded (maze : Grid) (end_ : Point) (visited : gset string)
    (v : Point) : Prop :=
  v ≠ end_ ∧ ∀ w, adjacent v w → open_cell maze w → key w ∈ visited.

(** A queue entry carries a shortest path to its point. *)
Definition item_ok (maze : Grid) (start : Point) (visited : gset string)
    (it : QueueItem) : Prop :=
  route maze start it.(point) it.(path) ∧
  (∀ l, route maze start it.(point) l → (length it.(path) ≤ length l)%nat) ∧
  key it.(point) ∈ visited.

Definition bfs_inv (maze : Grid) (start end_ : Point)
    (st : list QueueItem * gset string) : Prop :=
  Forall (item_ok maze start st.2) st.1 ∧
  (∃ (m : nat) front back, st.1 = front ++ back ∧
     Forall (λ it, length it.(path) = m) front ∧
     Forall (λ it, length it.(path) = S m) back) ∧
  key start ∈ st.2 ∧
  (∀ v, key v ∈ st.2 →
     (∃ it, it ∈ st.1 ∧ it.(point) = v) ∨ expanded maze end_ st.2 v).

(** What remains to be done: queue entries and unvisited cells. *)
Definition bfs_measure (N : Z) (st : list QueueItem * gset string) : nat :=
  length st.1 + size (all_keys N ∖ st.2).

(** The state of the inner loop while the entry [it] is expanded, after the
    directions [done]: [rest] has been extended by entries for newly
    visited neighbours of [it]. *)
Definition expanding (N : Z) (maze : Grid) (it : QueueItem)
    (rest : list QueueItem) (visited : gset string)
    (done : list Point) (st : list QueueItem * gset string) : Prop :=
  ∃ new, st.1 = rest ++ new ∧
    Forall (λ n, n.(path) = it.(path) ++ [n.(point)] ∧
                 adjacent it.(point) n.(point) ∧
                 open_cell maze n.(point) ∧
                 key n.(point) ∉ visited) new ∧
    (∀ n, n ∈ new → key n.(point) ∈ st.2) ∧
    visited ⊆ st.2 ∧
    (∀ k, k ∈ st.2 → k ∈ visited ∨ ∃ n, n ∈ new ∧ key n.(point) = k) ∧
    (∀ d, d ∈ done →
       open_cell maze (mkPoint (it.(point).(x) + d.(x)) (it.(point).(y) + d.(y))) →
       key (mkPoint (it.(point).(x) + d.(x)) (it.(point).(y) + d.(y))) ∈ st.2) ∧
    bfs_measure N st = bfs_measure N (rest, visited).

(** The result of the search: a shortest path, or the empty list when the
    target cannot be reached. *)
Definition shortest_or_none (maze : Grid) (start end_ : Point)
    (q : list Point) : Prop :=
  (q = [] ∧ ∀ l, ¬ route maze start end_ l) ∨
  (route maze start end_ q ∧
   ∀ l, route maze start end_ l → (length q ≤ length l)%nat).

(** ** Trees *)

(** A simple path from [a] to [b] in the graph with edge relation [E]. *)
Definition simple_path {A : Type} (E : A → A → Prop) (a b : A) (l : list A) : Prop :=
  head l = Some a ∧ last l = Some b ∧ NoDup l ∧ chain E l.

(** The graph on the vertices [V] is a tree: any two vertices are joined by
    exactly one simple path. *)
Definition tree {A : Type} (V : A → Prop) (E : A → A → Prop) : Prop :=
  ∀ a b, V a → V b →
    (∃ l, simple_path E a b l) ∧
    (∀ l l', simple_path E a b l → simple_path E a b l' → l = l').

(** ** The carved lattice *)

(** The carveable cells: odd coordinates strictly inside the border. *)
Definition node (N : Z) (p : Point) : Prop :=
  Z.odd p.(x) = true ∧ Z.odd p.(y) = true ∧
  0 < p.(x) < N - 1 ∧ 0 < p.(y) < N - 1.

#[global] Instance node_dec N p : Decision (node N p).
Proof. unfold node. apply _. Defined.

Definition move (p : Point) (d : Z * Z) : Point :=
  mkPoint (p.(x) + d.1) (p.(y) + d.2).

Definition half (d : Z * Z) : Z * Z := (d.1 / 2, d.2 / 2).

(** Two carveable cells two steps apart are joined when they and the cell
    between them belong to the open set [O]. *)
Definition ledge (N : Z) (O : Point → Prop) (a b : Point) : Prop :=
  node N a ∧ node N b ∧ O a ∧ O b ∧
  ∃ d, d ∈ carve_directions ∧ b = move a d ∧ O (move a (half d)).

(** What carving maintains: every open cell is a carveable cell or lies
    between two joined ones, and the joined carveable cells form a tree. *)
Definition carve_inv (N : Z) (O : Point → Prop) : Prop :=
  (∀ p, O p → node N p ∨
     ∃ a d, d ∈ carve_directions ∧ p = move a (half d) ∧ ledge N O a (move a d)) ∧
  tree (λ p, node N p ∧ O p) (ledge N O).

Definition all_points (N : Z) : list Point :=
  i ← seqZ 0 N; j ← seqZ 0 N; [mkPoint i j].

(** The number of wall cells, which bounds the depth of the recursion. *)
Definition wall_count (N : Z) (g : Grid) : nat :=
  length (filter (λ p, cell_at g p = Some WALL) (all_points N)).

(** All carveable neighbours of [v] are open. *)
Definition nbrs_open (N : Z) (O : Point → Prop) (v : Point) : Prop :=
  ∀ d, d ∈ carve_directions → node N (move v d) → O (move v d).

(** What a call [carvePath(c.x, c.y)] achieves, [g0] being the grid right
    after its first assignment and [g'] the grid when it returns. *)
Definition carve_post (N : Z) (g0 : Grid) (c : Point) (g' : Grid) : Prop :=
  square N g' ∧
  carve_inv N (open_cell g') ∧
  (∀ p, open_cell g0 p → open_cell g' p) ∧
  (wall_count N g' ≤ wall_count N g0)%nat ∧
  (∀ v, node N v → open_cell g' v → v = c ∨ ¬ open_cell g0 v →
     nbrs_open N (open_cell g') v).

(** The same during the loop over the shuffled directions, [done] being
    those already tried. *)
Definition carve_loop_inv (N : Z) (g0 : Grid) (c : Point)
    (done : list (Z * Z)) (st : Grid * nat) : Prop :=
  square N st.1 ∧
  carve_inv N (open_cell st.1) ∧
  (∀ p, open_cell g0 p → open_cell st.1 p) ∧
  (wall_count N st.1 ≤ wall_count N g0)%nat ∧
  (∀ v, node N v → open_cell st.1 v → ¬ open_cell g0 v →
     nbrs_open N (open_cell st.1) v) ∧
  (∀ d, d ∈ done → node N (move c d) → open_cell st.1 (move c d)).

(** ** Episodes *)

Definition sum_with {A : Type} (f : A → Z) (l : list A) : Z :=
  foldr (λ a acc, f a + acc) 0 l.

(** The sum of all entries of a heatmap. *)
Definition sum_matrix (h : list (list Z)) : Z := sum_with (sum_with id) h.

(** The cell that a press of [k] tries to enter. *)
Definition destination (s : State) (k : Key) : Point :=
  mkPoint (s.(playerPos).(x) + (key_direction k).(x))
          (s.(playerPos).(y) + (key_direction k).(y)).

(** An accepted move: an attempt whose destination is not a wall. *)
Definition accepted (s : State) (e : event) : Prop :=
  match e with
  | Press k _ =>
      s.(gameState) = playing ∧ cell_at s.(maze) (destination s k) ≠ Some WALL
  | Tick => False
  end.

#[global] Instance accepted_dec s e : Decision (accepted s e).
Proof. destruct e; simpl; apply _. Defined.

(** The number of accepted moves among the events [es] delivered from the
    state [s] on. *)
Fixpoint count_accepted (N : Z) (es : list event) (s : State) : nat :=
  match es with
  | [] => 0
  | e :: es' =>
      ((if decide (accepted s e) then 1 else 0) +
       match step N e s with
       | Ok s' => count_accepted N es' s'
       | Throw _ => 0
       end)%nat
  end.

(** What holds of the state of a running episode after [n] accepted moves. *)
Definition episode_inv (N : Z) (s : State) (n : nat) : Prop :=
  square N s.(maze) ∧
  (∀ p, open_cell s.(maze) p → 0 < p.(x) < N - 1 ∧ 0 < p.(y) < N - 1) ∧
  square N s.(heatmap) ∧
  open_cell s.(maze) s.(playerPos) ∧
  sum_matrix s.(heatmap) = Z.of_nat n ∧
  s.(moveCount) = Z.of_nat n ∧
  length s.(actualPath) = S n ∧
  length s.(movementHistory) = n.

(** The first-half figures are either still unset or were taken strictly
    before the current move count, and before the first accepted move the
    player is on the start cell. *)
Definition half_inv (s : State) : Prop :=
  (s.(moveCount) = 0 → s.(playerPos) = mkPoint 1 1) ∧
  (s.(firstHalfMetrics).(moves) = 0 ∨
   s.(firstHalfMetrics).(moves) < s.(moveCount)).

(** A quotient whose divisor was not zero. *)
Definition finite (n : number) : Prop :=
  match n with
  | Fin _ => True
  | _ => False
  end.

(** The heatmap [h'] is [h] with exactly the entry at [p] incremented. *)
Definition incremented_at (p : Point) (h h' : list (list Z)) : Prop :=
  ∃ n, at2 h p.(x) p.(y) = Some n ∧
       ∀ i j, at2 h' i j =
              if decide (i = p.(x) ∧ j = p.(y)) then Some (n + 1) else at2 h i j.

(** ** Concrete inputs *)

(** The cells of a row written as a string, one character each. *)
Fixpoint cells_of (row : string) : list string :=
  match row with
  | EmptyString => []
  | String c row' => String c EmptyString :: cells_of row'
  end.

Definition grid_of (rows : list string) : Grid := cells_of <$> rows.

(** A 5x5 grid: the corridor from (1,1) down to (1,3) and on to (3,3), and
    the other way round the middle wall. *)
Definition ring5 : Grid :=
  grid_of [ "#####";
            "#   #";
            "# # #";
            "#   #";
            "#####" ].

(** Two outcomes of the shuffles: every [sort] leaves the array as it is, or
    every [sort] reverses the array. *)
Definition id_shuffle : Shuffle := λ _ l, l.
Definition rev_shuffle : Shuffle := λ _ l, reverse l.

(** A state of the game on [ring5], the player on the start cell. *)
Definition ring5_state : State :=
  {| maze := ring5;
     playerPos := mkPoint 1 1;
     gameState := playing;
     timeLeft := 60;
     startTime := 0;
     moveCount := 0;
     wallCollisions := 0;
     backtrackCount := 0;
     movementHistory := [];
     visitedCells := {["1,1"]};
     movePatterns := MovePatterns.mk 0 0 0 0;
     firstHalfMetrics := mkHalf 0 0 0;
     heatmap := replicate 5 (replicate 5 0);
     optimalPath := [];
     actualPath := [mkPoint 1 1];
     pathDeviation := 0 |}.

(** An episode on the generated maze of [id_shuffle] that is left to time
    out after the presses [keys], one per second. *)
Definition timeout_episode (keys : list Key) : result State :=
  s0 ← startGame MAZE_SIZE id_shuffle 0;
  run MAZE_SIZE
      (imap (λ i k, Press k (1000 * (Z.of_nat i + 1))) keys ++ replicate 60 Tick) s0.

(** ** The trace of an episode *)

(** How often the cell [p] occurs in [l]. *)
Definition occurrences (p : Point) (l : list Point) : nat :=
  length (filter (λ q, q = p) l).

(** All attempts counted by the four direction counters. *)
Definition attempts (m : MovePatterns.t) : Z :=
  MovePatterns.up m + MovePatterns.down m +
  MovePatterns.left m + MovePatterns.right m.

(** What the records kept by [handleMove] satisfy in a running episode: the
    recorded path is a path of the maze from the start to the player, the
    visited set holds the keys of its cells, a move either visits a new cell
    or is a backtrack, every attempt is a move or a collision, and each
    heatmap entry counts the entries of the player into its cell. *)
Definition trace_inv (N : Z) (s : State) : Prop :=
  route s.(maze) (mkPoint 1 1) s.(playerPos) s.(actualPath) ∧
  s.(visitedCells) = list_to_set (key <$> s.(actualPath)) ∧
  Z.of_nat (size s.(visitedCells)) + s.(backtrackCount) = s.(moveCount) + 1 ∧
  0 ≤ s.(wallCollisions) ∧
  attempts s.(movePatterns) = s.(moveCount) + s.(wallCollisions) ∧
  (∀ p, 0 ≤ p.(x) < N → 0 ≤ p.(y) < N →
     at2 s.(heatmap) p.(x) p.(y) =
     Some (Z.of_nat (occurrences p (tail s.(actualPath))))).

(** A press of the key [k] delivered while the game is on. *)
Definition attempt_of (k : Key) (s : State) (e : event) : Prop :=
  match e with
  | Press k' _ => k' = k ∧ s.(gameState) = playing
  | Tick => False
  end.

#[global] Instance attempt_of_dec k s e : Decision (attempt_of k s e).
Proof. destruct e; simpl; apply _. Defined.

(** An attempt that runs into a wall. *)
Definition collides (s : State) (e : event) : Prop :=
  match e with
  | Press k _ =>
      s.(gameState) = playing ∧ cell_at s.(maze) (destination s k) = Some WALL
  | Tick => False
  end.

#[global] Instance collides_dec s e : Decision (collides s e).
Proof. destruct e; simpl; apply _. Defined.

(** The number of events among [es], delivered from the state [s] on, that
    satisfy [P] in the state in which they arrive. *)
Fixpoint count_where (N : Z) (P : State → event → Prop)
    `{!∀ s e, Decision (P s e)} (es : list event) (s : State) : nat :=
  match es with
  | [] => 0
  | e :: es' =>
      ((if decide (P s e) then 1 else 0) +
       match step N e s with
       | Ok s' => count_where N P es' s'
       | Throw _ => 0
       end)%nat
  end.

#[global] Instance event_eq_dec : EqDecision event.
Proof. solve_decision. Defined.

(** The number of timer firings among [es]. *)
Definition ticks (es : list event) : nat := length (filter (λ e, e = Tick) es).

(** The clock and the phase of an episode after [t] firings of the timer:
    while the game is on, the player is not on the exit and the clock shows
    the seconds left; once it is over, either the exit was reached in time
    or the clock ran out away from the exit. *)
Definition clock_inv (N : Z) (s : State) (t : nat) : Prop :=
  match s.(gameState) with
  | ready => False
  | playing =>
      s.(timeLeft) = 60 - Z.of_nat t ∧ 1 ≤ s.(timeLeft) ∧
      s.(playerPos) ≠ mkPoint (N - 2) (N - 2)
  | gameOver =>
      (s.(playerPos) = mkPoint (N - 2) (N - 2) ∧ 1 ≤ s.(timeLeft) ≤ 60) ∨
      (s.(playerPos) ≠ mkPoint (N - 2) (N - 2) ∧ s.(timeLeft) = 0)
  end.

(** While the game is on, the player has not been on the exit. *)
Definition exit_fresh (N : Z) (s : State) : Prop :=
  s.(gameState) = playing → mkPoint (N - 2) (N - 2) ∉ s.(actualPath).

(** ** Counting the cells of a grid *)

Definition open_count (N : Z) (g : Grid) : nat :=
  length (filter (open_cell g) (all_points N)).

Definition node_count (N : Z) (g : Grid) : nat :=
  length (filter (λ p, node N p ∧ open_cell g p) (all_points N)).

(** Every open cell is a carveable cell or lies between two joined ones. *)
Definition lattice_inv (N : Z) (O : Point → Prop) : Prop :=
  ∀ p, O p → node N p ∨
    ∃ a d, d ∈ carve_directions ∧ p = move a (half d) ∧ ledge N O a (move a d).

(** What carving maintains of the contents and the number of the cells: a
    cell holds a wall or a passage, and the open cells are the carveable
    ones among them and one connecting cell for each but the first. *)
Definition count_inv (N : Z) (g : Grid) : Prop :=
  square N g ∧
  lattice_inv N (open_cell g) ∧
  (∀ p c, cell_at g p = Some c → c = WALL ∨ c = PATH) ∧
  (open_count N g + 1 = 2 * node_count N g)%nat.

(** ** Invariants of the other components *)

(** What holds of the state of PatternPuzzler whatever handlers have run:
    the score is ten times the sum of the levels completed, the clock stays
    within its range, and a finished game has recorded its level. *)
Definition pattern_inv (s : PatternPuzzler.State) : Prop :=
  1 ≤ s.(PatternPuzzler.level) ∧
  s.(PatternPuzzler.score) =
    5 * s.(PatternPuzzler.level) * (s.(PatternPuzzler.level) - 1) ∧
  0 ≤ s.(PatternPuzzler.timeLeft) ≤ 60 ∧
  (s.(PatternPuzzler.gameState) = PatternPuzzler.gameOver →
   s.(PatternPuzzler.level) ≤ s.(PatternPuzzler.highestLevel)).

#[global] Instance pattern_event_eq_dec : EqDecision PatternPuzzler.event.
Proof. solve_decision. Defined.

(** The number of timer firings among the handlers [es] of PatternPuzzler. *)
Definition pattern_ticks (es : list PatternPuzzler.event) : nat :=
  length (filter (λ e, e = PatternPuzzler.Tick) es).

(** The state [s] with [t] seconds less on the clock. *)
Definition elapse (t : nat) (s : PatternPuzzler.State) : PatternPuzzler.State :=
  {| PatternPuzzler.gameState := s.(PatternPuzzler.gameState);
     PatternPuzzler.pattern := s.(PatternPuzzler.pattern);
     PatternPuzzler.playerInput := s.(PatternPuzzler.playerInput);
     PatternPuzzler.level := s.(PatternPuzzler.level);
     PatternPuzzler.timeLeft := s.(PatternPuzzler.timeLeft) - Z.of_nat t;
     PatternPuzzler.score := s.(PatternPuzzler.score);
     PatternPuzzler.highestLevel := s.(PatternPuzzler.highestLevel) |}.

(** The phases in which the timer of PatternPuzzler runs. *)
Definition pattern_active (s : PatternPuzzler.State) : Prop :=
  s.(PatternPuzzler.gameState) = PatternPuzzler.playing ∨
  s.(PatternPuzzler.gameState) = PatternPuzzler.showing ∨
  s.(PatternPuzzler.gameState) = PatternPuzzler.input.

(** The handlers [l], none of them a start or a timer firing, run from [s]
    through phases in which the timer runs. *)
Fixpoint stays_active (l : list PatternPuzzler.event) (s : PatternPuzzler.State)
  : Prop :=
  match l with
  | [] => pattern_active s
  | e :: l' =>
      pattern_active s ∧ e ≠ PatternPuzzler.Start ∧ e ≠ PatternPuzzler.Tick ∧
      stays_active l' (PatternPuzzler.step e s)
  end.

(** ** Proof steps *)

(** Case analysis on a direction of [carve_directions]. *)
Ltac dirs H :=
  unfold carve_directions in H;
  repeat (apply elem_of_cons in H as [->|H]);
  [| | | |by apply elem_of_nil in H].

(** The halves of the carving steps, computed. *)
Ltac halves :=
  change (-2 / 2) with (-1) in *;
  change (2 / 2) with 1 in *;
  change (0 / 2) with 0 in *.

(** * Basic facts *)

(** ** Array reads and writes *)

Lemma js_get_Some {A : Type} (arr : list A) (i : Z) (a : A) :
  js_get arr i = Some a ↔ 0 ≤ i ∧ arr !! Z.to_nat i = Some a.
Proof.
  unfold js_get. case_decide.
  - split; [done | by intros [_ ?]].
  - split; [done | intros [? _]; lia].
Qed.

Lemma js_get_lt {A : Type} (arr : list A) (i : Z) :
  0 ≤ i < Z.of_nat (length arr) → is_Some (js_get arr i).
Proof.
  intros [? ?]. unfold js_get. rewrite decide_True by done.
  apply lookup_lt_is_Some. lia.
Qed.

(** ** The key of a cell determines the cell *)

Lemma pretty_N_go_comma_free (n : N) (s : string) :
  comma_free s → comma_free (pretty_N_go n s).
Proof.
  revert s. induction (N.lt_wf_0 n) as [n _ IH]; intros s Hs.
  destruct (decide (n = 0)%N) as [->|Hn]; [done|].
  rewrite pretty_N_go_step by lia.
  apply IH; [apply N.div_lt; lia|].
  split; [|done]. unfold pretty_N_char. by repeat case_match.
Qed.

Lemma pretty_Z_comma_free (z : Z) : comma_free (pretty z).
Proof.
  destruct z as [|p|p]; unfold pretty, pretty_Z; simpl.
  - done.
  - unfold pretty, pretty_positive, pretty, pretty_N.
    case_decide; [done|]. by apply pretty_N_go_comma_free.
  - split; [done|].
    unfold pretty, pretty_positive, pretty, pretty_N.
    case_decide; [done|]. by apply pretty_N_go_comma_free.
Qed.

Lemma comma_split_inj (s1 s2 t1 t2 : string) :
  comma_free s1 → comma_free s2 →
  s1 +:+ "," +:+ t1 = s2 +:+ "," +:+ t2 → s1 = s2 ∧ t1 = t2.
Proof.
  revert s2. induction s1 as [|c s1 IH]; intros [|d s2]; simpl.
  - intros _ _ Heq. simplify_eq/=. done.
  - intros _ [? _] Heq. simplify_eq/=.
  - intros [? _] _ Heq. simplify_eq/=.
  - intros [_ H1] [_ H2] Heq. simplify_eq/=. by destruct (IH s2 H1 H2) as [-> ->].
Qed.

#[global] Instance key_inj : Inj (=) (=) key.
Proof.
  intros [a b] [c d]. unfold key; simpl. intros Heq.
  apply comma_split_inj in Heq as [H1 H2]; try apply pretty_Z_comma_free.
  by apply (inj pretty) in H1 as ->; apply (inj pretty) in H2 as ->.
Qed.

(** ** calculatePathDeviation *)

Lemma filter_elements_size `{Countable K} (X Y : gset K) :
  length (filter (λ k, k ∉ Y) (elements X)) = size (X ∖ Y).
Proof.
  unfold size, set_size; simpl. apply Permutation_length.
  apply NoDup_Permutation.
  - apply NoDup_filter, NoDup_elements.
  - apply NoDup_elements.
  - intros k. rewrite list_elem_of_filter, !elem_of_elements, elem_of_difference. tauto.
Qed.

Lemma size_set_map_inj `{Countable K, Countable L} (f : K → L) `{!Inj (=) (=) f}
    (X : gset K) :
  size (set_map f X : gset L) = size X.
Proof.
  unfold size, set_size; simpl.
  rewrite <-(length_fmap f (elements X)). apply Permutation_length.
  apply NoDup_Permutation.
  - apply NoDup_elements.
  - apply NoDup_fmap_2; [done|apply NoDup_elements].
  - intros l. rewrite elem_of_elements, elem_of_map, list_elem_of_fmap.
    by setoid_rewrite elem_of_elements.
Qed.

Lemma keys_of_cells (p : list Point) :
  list_to_set (key <$> p) = (set_map key (cells p) : gset string).
Proof.
  apply set_eq. intros k.
  rewrite elem_of_list_to_set, elem_of_map, list_elem_of_fmap. unfold cells.
  by setoid_rewrite elem_of_list_to_set.
Qed.

Lemma calculatePathDeviation_size (optimalPath actualPath : list Point) :
  calculatePathDeviation optimalPath actualPath =
  Z.of_nat (size (cells actualPath ∖ cells optimalPath)
            + size (cells optimalPath ∖ cells actualPath)).
Proof.
  unfold calculatePathDeviation.
  rewrite !filter_elements_size, !keys_of_cells.
  rewrite <-!set_map_difference_L by apply _.
  rewrite !size_set_map_inj by apply _. lia.
Qed.

(** * findOptimalPath returns a shortest path *)

(** ** Chains *)

Lemma chain_cons {A : Type} (R : A → A → Prop) (a : A) (l : list A) :
  chain R (a :: l) ↔ (∀ b, head l = Some b → R a b) ∧ chain R l.
Proof.
  destruct l as [|b l]; simpl.
  - split; [by intros _; split | done].
  - split.
    + intros [? ?]. by split; [intros ? [= <-]|].
    + intros [H ?]. split; [by apply H | done].
Qed.

Lemma chain_app {A : Type} (R : A → A → Prop) (l1 l2 : list A) :
  chain R (l1 ++ l2) ↔
  chain R l1 ∧ chain R l2 ∧ (∀ a b, last l1 = Some a → head l2 = Some b → R a b).
Proof.
  induction l1 as [|a l1 IH].
  - simpl. split; [by intros ?; split_and! | by intros (_ & ? & _)].
  - rewrite <-app_comm_cons, !chain_cons, IH. split.
    + intros (Hhd & H1 & H2 & Hlast). split_and!; try done.
      * intros b Hb. apply Hhd. by destruct l1; simplify_eq/=.
      * intros c b Hc Hb. destruct l1 as [|a' l1]; simplify_eq/=.
        -- by apply Hhd.
        -- by apply Hlast.
    + intros ((Hhd & H1) & H2 & Hlast). split_and!; try done.
      * intros b Hb. destruct l1 as [|a' l1]; simplify_eq/=.
        -- by apply Hlast.
        -- by apply Hhd.
      * intros c b Hc Hb. apply Hlast; [|done].
        destruct l1; simplify_eq/=; done.
Qed.

Lemma chain_take {A : Type} (R : A → A → Prop) (n : nat) (l : list A) :
  chain R l → chain R (take n l).
Proof.
  intros H. rewrite <-(take_drop n l) in H. by apply chain_app in H as (? & _).
Qed.

Lemma chain_impl {A : Type} (R R' : A → A → Prop) (l : list A) :
  (∀ a b, a ∈ l → b ∈ l → R a b → R' a b) → chain R l → chain R' l.
Proof.
  induction l as [|a l IH]; [done|].
  rewrite !chain_cons. intros HR [Hhd Hl]. split.
  - intros b Hb. apply HR; [by left| |by apply Hhd].
    right. destruct l; simplify_eq/=. by left.
  - apply IH; [|done]. intros ????. apply HR; by right.
Qed.

(** ** Cells of a square grid *)

Lemma square_row {A : Type} (N : Z) (m : list (list A)) (i : Z) :
  square N m → 0 ≤ i < N →
  ∃ row, js_get m i = Some row ∧ length row = Z.to_nat N.
Proof.
  intros [Hlen Hrows] Hi.
  destruct (js_get_lt m i) as [row Hrow]; [lia|].
  exists row. split; [done|].
  apply js_get_Some in Hrow as [_ Hrow].
  by apply (Forall_lookup_1 _ _ _ _ Hrows Hrow).
Qed.

Lemma square_read2 {A : Type} (N : Z) (m : list (list A)) (cx cy : Z) :
  square N m → 0 ≤ cx < N → 0 ≤ cy < N →
  ∃ c, read2 m cx cy = Ok (Some c).
Proof.
  intros Hsq Hx Hy. destruct (square_row N m cy Hsq Hy) as (row & Hrow & Hlen).
  destruct (js_get_lt row cx) as [c Hc]; [lia|].
  exists c. unfold read2. by rewrite Hrow, Hc.
Qed.

Lemma read2_at2 {A : Type} (m : list (list A)) (cx cy : Z) (c : option A) :
  read2 m cx cy = Ok c → at2 m cx cy = c.
Proof.
  unfold read2, at2. destruct (js_get m cy); simpl; [|done].
  by intros [= <-].
Qed.

Lemma read2_cell_at (maze : Grid) (cx cy : Z) (c : option string) :
  read2 maze cx cy = Ok c → cell_at maze (mkPoint cx cy) = c.
Proof. apply read2_at2. Qed.

Lemma open_cell_bounds (N : Z) (maze : Grid) (p : Point) :
  square N maze → open_cell maze p → 0 ≤ p.(x) < N ∧ 0 ≤ p.(y) < N.
Proof.
  intros [Hlen Hrows]. unfold open_cell, cell_at, at2.
  destruct (js_get maze p.(y)) as [row|] eqn:Hrow; simpl; [|done].
  destruct (js_get row p.(x)) as [c|] eqn:Hc; [intros _|done].
  apply js_get_Some in Hrow as [? Hrow]. apply js_get_Some in Hc as [? Hc].
  pose proof (Forall_lookup_1 _ _ _ _ Hrows Hrow) as Hl. simpl in Hl.
  apply lookup_lt_Some in Hrow, Hc. lia.
Qed.

Lemma adjacent_directions (v w : Point) :
  adjacent v w ↔
  ∃ d, d ∈ directions ∧ w = mkPoint (v.(x) + d.(x)) (v.(y) + d.(y)).
Proof.
  destruct v as [vx vy], w as [wx wy]. unfold adjacent, directions; simpl. split.
  - intros H.
    assert ((wx = vx ∧ wy = vy - 1) ∨ (wx = vx ∧ wy = vy + 1) ∨
            (wx = vx - 1 ∧ wy = vy) ∨ (wx = vx + 1 ∧ wy = vy))
      as [[-> ->]|[[-> ->]|[[-> ->]|[-> ->]]]] by lia.
    + exists (mkPoint 0 (-1)). split; [set_solver|]. f_equal; simpl; lia.
    + exists (mkPoint 0 1). split; [set_solver|]. f_equal; simpl; lia.
    + exists (mkPoint (-1) 0). split; [set_solver|]. f_equal; simpl; lia.
    + exists (mkPoint 1 0). split; [set_solver|]. f_equal; simpl; lia.
  - intros (d & Hd & [= -> ->]).
    repeat (apply elem_of_cons in Hd as [->|Hd]); simpl; try lia.
    by apply elem_of_nil in Hd.
Qed.

(** A sequence of adjacent cells from [a] to [b] has more cells than the
    Manhattan distance between [a] and [b]. *)
Lemma chain_manhattan (l : list Point) (a b : Point) :
  chain adjacent l → connects l a b →
  Z.abs (a.(x) - b.(x)) + Z.abs (a.(y) - b.(y)) < Z.of_nat (length l).
Proof.
  revert a. induction l as [|c l IH]; intros a Hch [Hhd Hlast]; simplify_eq/=.
  destruct l as [|c' l]; simplify_eq/=; [lia|].
  destruct Hch as [Hadj Hch].
  specialize (IH c' Hch (conj eq_refl Hlast)). unfold adjacent in Hadj.
  simpl in IH. lia.
Qed.

(** A loop rule that also yields termination without fault: the invariant
    [I] is indexed by the elements already handled. *)
Lemma for_each_total {A S : Type} (I : list A → S → Prop) (l : list A)
    (body : A → S → result S) (s : S) :
  I [] s →
  (∀ done a t, I done t → a ∈ l → ∃ t', body a t = Ok t' ∧ I (done ++ [a]) t') →
  ∃ s', for_each l body s = Ok s' ∧ I l s'.
Proof.
  intros Hs Hbody.
  cut (∀ done, I done s → (∀ a, a ∈ l → a ∈ l) →
         ∃ s', for_each l body s = Ok s' ∧ I (done ++ l) s').
  { intros H. by apply (H []). }
  clear Hs. revert s Hbody. induction l as [|a l IH]; intros s Hbody done Hs _.
  - exists s. by rewrite app_nil_r.
  - destruct (Hbody done a s Hs) as (t & Ht & HI); [by left|].
    destruct (IH t) with (done := done ++ [a]) as (s' & Hs' & HI'); try done.
    { intros d b u Hu Hb. apply Hbody; [done|by right]. }
    exists s'. simpl. rewrite Ht; simpl. by rewrite <-app_assoc in HI'.
Qed.

(** ** The search *)

Section Search.

Variable N : Z.
Variable maze : Grid.
Variables start end_ : Point.
Hypothesis Hsquare : square N maze.

Local Abbreviation step_to v d := (mkPoint (v.(x) + d.(x)) (v.(y) + d.(y))).

(** What one round of the inner loop does on a square grid. *)
Lemma visit_spec (it : QueueItem) (d : Point) (st : list QueueItem * gset string) :
  visit N maze it d st =
  Ok (if decide (open_cell maze (step_to it.(point) d) ∧
                 key (step_to it.(point) d) ∉ st.2)
      then (st.1 ++ [mkItem (step_to it.(point) d)
                            (it.(path) ++ [step_to it.(point) d])],
            {[key (step_to it.(point) d)]} ∪ st.2)
      else st).
Proof.
  unfold visit.
  set (wx := it.(point).(x) + d.(x)). set (wy := it.(point).(y) + d.(y)).
  set (w := mkPoint wx wy).
  destruct (decide (wx >= 0 ∧ wx < N ∧ wy >= 0 ∧ wy < N)) as [Hb|Hb].
  - destruct (square_read2 N maze wx wy) as [c Hc]; [done|lia|lia|].
    rewrite Hc; simpl.
    apply read2_cell_at in Hc. fold w in Hc.
    assert (open_cell maze w ↔ Some c ≠ Some WALL) as Hopen.
    { unfold open_cell. rewrite Hc. split; congruence. }
    destruct (decide (Some c ≠ Some WALL ∧ key w ∉ st.2)) as [[? ?]|Hn].
    + by rewrite decide_True by by rewrite Hopen.
    + by rewrite decide_False by by rewrite Hopen.
  - rewrite decide_False; [done|].
    intros [Ho _]. apply (open_cell_bounds N) in Ho; [|done]. simpl in Ho. lia.
Qed.

Lemma bfs_walk (queue : list QueueItem) (visited : gset string) (l : list Point) :
  (∀ v, key v ∈ visited →
     (∃ it, it ∈ queue ∧ it.(point) = v) ∨ expanded maze end_ visited v) →
  (∀ a, head l = Some a → key a ∈ visited) →
  grid_path maze l →
  (∃ i it, it ∈ queue ∧ l !! i = Some it.(point)) ∨
  Forall (λ c, key c ∈ visited ∧ expanded maze end_ visited c) l.
Proof.
  intros Hvis. induction l as [|a l IH]; intros Hhd [Hopen Hchain].
  { by right. }
  assert (key a ∈ visited) as Ha by by apply Hhd.
  destruct (Hvis a Ha) as [(it & Hit & <-)|Hexp].
  { left. by exists 0%nat, it. }
  apply Forall_cons in Hopen as [_ Hopen].
  apply chain_cons in Hchain as [Hab Hchain].
  destruct IH as [(i & it & Hit & Hi)|Hall].
  - intros b Hb. apply Hexp; [by apply Hab|].
    destruct l; simplify_eq/=. by apply Forall_cons in Hopen as [? _].
  - done.
  - left. by exists (S i), it.
  - right. by constructor.
Qed.

Lemma route_take (a v c : Point) (l : list Point) (i : nat) :
  route maze a v l → l !! i = Some c → route maze a c (take (S i) l).
Proof.
  intros [[Hopen Hchain] [Hhd Hlast]] Hi. split; [split|split].
  - by apply Forall_take.
  - by apply chain_take.
  - by destruct l.
  - pose proof (lookup_lt_Some _ _ _ Hi) as Hlt.
    rewrite last_lookup, length_take.
    replace (pred (S i `min` length l)) with i by lia.
    by rewrite lookup_take_lt by lia.
Qed.

Lemma route_snoc (a u w : Point) (l : list Point) :
  route maze a u l → adjacent u w → open_cell maze w →
  route maze a w (l ++ [w]).
Proof.
  intros [[Hopen Hchain] [Hhd Hlast]] Hadj Hw. split; [split|split].
  - apply Forall_app. split; [done|by constructor].
  - apply chain_app. split_and!; [done|done|].
    intros b c Hb [= <-]. by simplify_eq.
  - by destruct l.
  - by rewrite last_snoc.
Qed.

Lemma size_unvisited (X V : gset string) (k : string) :
  k ∈ X → k ∉ V → S (size (X ∖ ({[k]} ∪ V))) = size (X ∖ V).
Proof.
  intros HX HV.
  assert (k ∈ X ∖ V) as Hk by by apply elem_of_difference.
  replace (X ∖ ({[k]} ∪ V)) with ((X ∖ V) ∖ {[k]}).
  - rewrite size_difference by by apply singleton_subseteq_l.
    rewrite size_singleton.
    assert (size (X ∖ V) ≠ 0%nat); [|lia].
    apply size_non_empty_iff. intros Hempty. rewrite Hempty in Hk.
    by apply not_elem_of_empty in Hk.
  - apply set_eq. intros z.
    rewrite !elem_of_difference, elem_of_union, elem_of_singleton. tauto.
Qed.

Lemma elem_of_all_keys (p : Point) :
  0 ≤ p.(x) < N → 0 ≤ p.(y) < N → key p ∈ all_keys N.
Proof.
  intros Hx Hy. unfold all_keys. rewrite elem_of_list_to_set.
  apply list_elem_of_bind. exists p.(x). split; [|by apply elem_of_seqZ; lia].
  apply list_elem_of_bind. exists p.(y). split; [|by apply elem_of_seqZ; lia].
  destruct p. by left.
Qed.

Lemma queue_layers_head (it : QueueItem) (rest : list QueueItem) :
  (∃ (m : nat) front back, it :: rest = front ++ back ∧
     Forall (λ it, length it.(path) = m) front ∧
     Forall (λ it, length it.(path) = S m) back) →
  ∀ it', it' ∈ it :: rest → (length it.(path) ≤ length it'.(path))%nat.
Proof.
  intros (m & front & back & Heq & Hf & Hb) it' Hit'.
  assert (Forall (λ it, m ≤ length it.(path) ≤ S m)%nat (it :: rest)) as Hall.
  { rewrite Heq. apply Forall_app. split.
    - eapply Forall_impl; [done|]. simpl. lia.
    - eapply Forall_impl; [done|]. simpl. lia. }
  destruct front as [|it0 front]; simplify_eq/=.
  - rewrite Forall_forall in Hb. rewrite (Hb it'), (Hb it); [done|by left|done].
  - apply Forall_cons in Hf as [-> _].
    rewrite Forall_forall in Hall. by apply Hall.
Qed.

Lemma queue_layers_step (it : QueueItem) (rest new : list QueueItem) :
  (∃ (m : nat) front back, it :: rest = front ++ back ∧
     Forall (λ it, length it.(path) = m) front ∧
     Forall (λ it, length it.(path) = S m) back) →
  Forall (λ n, length n.(path) = S (length it.(path))) new →
  ∃ (m : nat) front back, rest ++ new = front ++ back ∧
     Forall (λ it, length it.(path) = m) front ∧
     Forall (λ it, length it.(path) = S m) back.
Proof.
  intros (m & front & back & Heq & Hf & Hb) Hnew.
  destruct front as [|it0 front]; simplify_eq/=.
  - apply Forall_cons in Hb as [Hit Hrest].
    exists (S m), rest, new. split_and!; [done|done|].
    eapply Forall_impl; [done|]. simpl. intros ? ->. by rewrite Hit.
  - apply Forall_cons in Hf as [Hit Hf].
    exists m, front, (back ++ new). split_and!; [by rewrite app_assoc|done|].
    apply Forall_app. split; [done|].
    eapply Forall_impl; [done|]. simpl. intros ? ->. by rewrite Hit.
Qed.

(** Expanding the head of the queue keeps the invariant and uses up one unit
    of the measure. *)
Lemma expand_spec (it : QueueItem) (rest : list QueueItem) (visited : gset string) :
  bfs_inv maze start end_ (it :: rest, visited) →
  it.(point) ≠ end_ →
  ∃ st', for_each directions (visit N maze it) (rest, visited) = Ok st' ∧
         bfs_inv maze start end_ st' ∧
         S (bfs_measure N st') = bfs_measure N (it :: rest, visited).
Proof.
  intros (Hitems & Hlayers & Hstart & Hvis) Hne; simpl in *.
  destruct (for_each_total (expanding N maze it rest visited) directions
              (visit N maze it) (rest, visited)) as (st' & Hrun & HJ).
  { exists []. simpl. rewrite app_nil_r. split_and!; try done.
    - intros n Hn. by apply elem_of_nil in Hn.
    - intros k Hk. by left.
    - intros d Hd. by apply elem_of_nil in Hd. }
  { intros done d t (new & Hq & Hnew & Hin & Hsub & Hfrom & Hdone & Hmeas) Hd.
    rewrite visit_spec. eexists; split; [done|].
    set (w := step_to it.(point) d).
    destruct (decide (open_cell maze w ∧ key w ∉ t.2)) as [[Hw Hkw]|Hno].
    - exists (new ++ [mkItem w (it.(path) ++ [w])]). simpl. split_and!.
      + by rewrite Hq, app_assoc.
      + apply Forall_app. split; [done|]. constructor; [|done]. simpl.
        split_and!; [done| |done|by intros ?%Hsub].
        apply adjacent_directions. by exists d.
      + intros n [Hn|Hn]%elem_of_app; apply elem_of_union.
        * right. by apply Hin.
        * apply list_elem_of_singleton in Hn as ->. left. by apply elem_of_singleton.
      + intros z Hz. apply elem_of_union. right. by apply Hsub.
      + intros k [Hk|Hk]%elem_of_union.
        * right. exists (mkItem w (it.(path) ++ [w])).
          split; [|by apply elem_of_singleton in Hk].
          apply elem_of_app. right. by left.
        * destruct (Hfrom k Hk) as [?|(n & Hn & <-)]; [by left|].
          right. exists n. split; [|done]. apply elem_of_app. by left.
      + intros d' [Hd'|Hd']%elem_of_app Ho.
        * apply elem_of_union. right. by apply Hdone.
        * apply list_elem_of_singleton in Hd' as ->.
          apply elem_of_union. left. by apply elem_of_singleton.
      + unfold bfs_measure in *; simpl in *.
        rewrite length_app; simpl.
        pose proof (open_cell_bounds N maze w Hsquare Hw) as [? ?].
        pose proof (size_unvisited (all_keys N) t.2 (key w)
                      (elem_of_all_keys w ltac:(done) ltac:(done)) Hkw).
        lia.
    - exists new. split_and!; try done.
      intros d' [Hd'|Hd']%elem_of_app Ho; [by apply Hdone|].
      apply list_elem_of_singleton in Hd' as ->. fold w in Ho |- *.
      destruct (decide (key w ∈ t.2)); [done|]. by destruct Hno. }
  exists st'. split; [done|].
  destruct HJ as (new & Hq & Hnew & Hin & Hsub & Hfrom & Hdone & Hmeas).
  apply Forall_cons in Hitems as [Hit Hrest].
  destruct Hit as (Hroute & Hmin & Hkey).
  split; [split_and!|].
  - rewrite Hq. apply Forall_app. split.
    + eapply Forall_impl; [done|]. intros it' (? & ? & ?).
      split_and!; [done|done|by apply Hsub].
    + apply Forall_forall. intros n Hn.
      rewrite Forall_forall in Hnew. destruct (Hnew n Hn) as (Hp & Hadj & Ho & Hfresh).
      split_and!.
      * rewrite Hp. by eapply route_snoc.
      * intros l Hl. rewrite Hp, length_app; simpl.
        destruct (bfs_walk (it :: rest) visited l) as [(i & it' & Hit' & Hi)|Hall].
        -- done.
        -- intros a Ha. destruct Hl as [_ [Hhd _]]. by simplify_eq.
        -- by destruct Hl.
        -- pose proof (queue_layers_head it rest Hlayers it' Hit') as Hge.
           assert (item_ok maze start visited it') as (_ & Hmin' & Hk').
           { apply elem_of_cons in Hit' as [->|Hit']; [done|].
             rewrite Forall_forall in Hrest. by apply Hrest. }
           pose proof (Hmin' _ (route_take _ _ _ _ _ Hl Hi)) as Hle.
           pose proof (lookup_lt_Some _ _ _ Hi) as Hlt.
           rewrite length_take in Hle.
           assert (i ≠ pred (length l)); [|lia].
           intros ->. destruct Hl as [_ [_ Hlast]].
           rewrite last_lookup in Hlast. simplify_eq. congruence.
        -- destruct Hl as [_ [_ Hlast]].
           apply last_Some_elem_of in Hlast.
           rewrite Forall_forall in Hall. by destruct (Hall _ Hlast).
      * by apply Hin.
  - rewrite Hq. apply (queue_layers_step it); [done|].
    eapply Forall_impl; [done|]. simpl. intros n (-> & _).
    rewrite length_app; simpl. lia.
  - by apply Hsub.
  - intros v Hv. destruct (Hfrom _ Hv) as [Hold|(n & Hn & Heq)].
    + destruct (Hvis v Hold) as [(it' & [->|Hit']%elem_of_cons & <-)|[Hve Hexp]].
      * right. split; [done|]. intros w' Hadj Ho.
        apply adjacent_directions in Hadj as (d & Hd & ->). by apply Hdone.
      * left. exists it'. split; [|done]. rewrite Hq. apply elem_of_app. by left.
      * right. split; [done|]. intros w' ? ?. apply Hsub. by apply Hexp.
    + apply (inj key) in Heq. left. exists n. split; [|done].
      rewrite Hq. apply elem_of_app. by right.
  - rewrite Hmeas. unfold bfs_measure. simpl. lia.
Qed.

Lemma bfs_loop_correct (fuel : nat) (st : list QueueItem * gset string) :
  bfs_inv maze start end_ st →
  (bfs_measure N st < fuel)%nat →
  ∃ q, bfs_loop N fuel maze end_ st = Ok q ∧ shortest_or_none maze start end_ q.
Proof.
  revert st. induction fuel as [|fuel IH]; intros [queue visited] Hinv Hfuel; [lia|].
  cbn [bfs_loop fst snd]. destruct queue as [|it rest].
  - exists []. split; [done|]. left. split; [done|].
    intros l Hl. destruct Hinv as (_ & _ & Hstart & Hvis); simpl in *.
    destruct (bfs_walk [] visited l) as [(i & it & Hit & _)|Hall].
    + done.
    + intros a Ha. destruct Hl as [_ [Hhd _]]. by simplify_eq.
    + by destruct Hl.
    + by apply elem_of_nil in Hit.
    + destruct Hl as [_ [_ Hlast]]. apply last_Some_elem_of in Hlast.
      rewrite Forall_forall in Hall. by destruct (Hall _ Hlast) as [_ [? _]].
  - destruct (decide (it.(point).(x) = end_.(x) ∧ it.(point).(y) = end_.(y)))
      as [[Hx Hy]|Hne].
    + exists it.(path). split; [done|]. right.
      destruct Hinv as (Hitems & _); simpl in *.
      apply Forall_cons in Hitems as [(Hroute & Hmin & _) _].
      assert (it.(point) = end_) as <-; [|done].
      destruct (point it), end_; simpl in *; congruence.
    + destruct (expand_spec it rest visited Hinv) as (st' & Hrun & Hinv' & Hmeas).
      { intros Heq. apply Hne. by rewrite Heq. }
      rewrite Hrun. cbn [mbind result_bind]. apply IH; [done|]. lia.
Qed.

End Search.

Lemma length_bind_const {A B : Type} (f : A → list B) (l : list A) (c : nat) :
  (∀ a, length (f a) = c) → length (l ≫= f) = (length l * c)%nat.
Proof.
  intros Hf. induction l as [|a l IH]; [done|].
  rewrite bind_cons, length_app, Hf, IH. simpl. lia.
Qed.

Lemma size_list_to_set_le `{Countable K} (l : list K) :
  (size (list_to_set l : gset K) ≤ length l)%nat.
Proof.
  induction l as [|a l IH].
  - by rewrite list_to_set_nil, size_empty.
  - rewrite list_to_set_cons, size_union_alt, size_singleton. simpl.
    pose proof (subseteq_size (list_to_set l ∖ {[a]}) (list_to_set l : gset K)
                  (subseteq_difference_l _ _ _ (reflexivity _))). lia.
Qed.

Lemma size_all_keys (N : Z) : (size (all_keys N) ≤ Z.to_nat (N * N))%nat.
Proof.
  unfold all_keys. etrans; [apply size_list_to_set_le|].
  rewrite (length_bind_const _ _ (Z.to_nat N)).
  - rewrite length_seqZ. lia.
  - intros i. rewrite (length_bind_const _ _ 1%nat); [|done].
    rewrite length_seqZ. lia.
Qed.

(** The search ends without a fault and returns a shortest path from [start]
    to [end_], or the empty list when there is none. *)
Lemma findOptimalPath_correct (N : Z) (maze : Grid) (start end_ : Point) :
  square N maze → open_cell maze start →
  ∃ q, findOptimalPath N maze start end_ = Ok q ∧
       shortest_or_none maze start end_ q.
Proof.
  intros Hsq Hstart. unfold findOptimalPath.
  apply bfs_loop_correct; [done| |].
  - split_and!; simpl.
    + constructor; [|done]. split_and!; simpl.
      * split; [split|done]; simpl; [by repeat constructor|done].
      * intros l [_ [Hhd _]]. destruct l; simplify_eq/=. lia.
      * set_solver.
    + exists 1%nat, [mkItem start [start]], []. by repeat constructor.
    + set_solver.
    + intros v Hv. left. exists (mkItem start [start]). split; [by left|].
      apply elem_of_singleton in Hv. by apply (inj key) in Hv.
  - unfold bfs_measure, bfs_fuel; simpl.
    pose proof (size_all_keys N).
    pose proof (subseteq_size (all_keys N ∖ {[key start]}) (all_keys N)
                  (subseteq_difference_l _ _ _ (reflexivity _))). lia.
Qed.

(** * Trees grow by leaves *)

Lemma chain_rev {A : Type} (R : A → A → Prop) (l : list A) :
  (∀ a b, R a b → R b a) → chain R l → chain R (reverse l).
Proof.
  intros Hsym. induction l as [|a l IH]; [done|].
  rewrite chain_cons. intros [Hhd Hl]. rewrite reverse_cons.
  rewrite chain_app. split_and!; [by apply IH|done|].
  intros c b Hc [= <-]. apply Hsym, Hhd.
  by rewrite <-Hc, last_reverse.
Qed.

Lemma simple_path_rev {A : Type} (E : A → A → Prop) (a b : A) (l : list A) :
  (∀ a b, E a b → E b a) → simple_path E a b l → simple_path E b a (reverse l).
Proof.
  intros Hsym (Hhd & Hlast & Hnd & Hch). split_and!.
  - by rewrite head_reverse.
  - by rewrite last_reverse.
  - by rewrite reverse_Permutation.
  - by apply chain_rev.
Qed.

Lemma simple_path_self {A : Type} (E : A → A → Prop) (a : A) (l : list A) :
  simple_path E a a l → l = [a].
Proof.
  intros (Hhd & Hlast & Hnd & _). destruct l as [|c l]; simplify_eq/=.
  destruct l as [|c l]; [done|].
  apply NoDup_cons in Hnd as [Hnotin _]. destruct Hnotin.
  by apply last_Some_elem_of.
Qed.

Lemma chain_stays {A : Type} (V : A → Prop) (E : A → A → Prop) (l : list A) :
  (∀ a b, E a b → V b) → (∀ a, head l = Some a → V a) → chain E l → Forall V l.
Proof.
  intros HE. induction l as [|a l IH]; [done|].
  rewrite chain_cons. intros Hhd [Hab Hl]. constructor; [by apply Hhd|].
  apply IH; [|done]. intros b Hb. eapply HE. by apply Hab.
Qed.

Section Leaf.

Context {A : Type} `{!EqDecision A} (V V' : A → Prop) (E E' : A → A → Prop) (u v : A).
Hypothesis E_sym : ∀ a b, E a b → E b a.
Hypothesis E_in : ∀ a b, E a b → V a ∧ V b.
Hypothesis V_u : V u.
Hypothesis V_v : ¬ V v.
Hypothesis E'_spec : ∀ a b, E' a b ↔ E a b ∨ (a = u ∧ b = v) ∨ (a = v ∧ b = u).
Hypothesis V'_spec : ∀ a, V' a ↔ V a ∨ a = v.

Lemma leaf_edge_sym (a b : A) : E' a b → E' b a.
Proof.
  rewrite !E'_spec. intros [?|[[-> ->]|[-> ->]]].
  - left. by apply E_sym.
  - by right; right.
  - by right; left.
Qed.

Lemma leaf_edge_at (c : A) : E' v c → c = u.
Proof.
  rewrite E'_spec. intros [HE|[[-> ->]|[_ ->]]]; [|done..].
  apply E_in in HE as [? _]. done.
Qed.

(** A simple path between old vertices does not pass through the leaf. *)
Lemma leaf_avoided (a : A) (l : list A) :
  chain E' (a :: l) → NoDup (a :: l) → a ≠ v → last (a :: l) ≠ Some v →
  v ∉ a :: l.
Proof.
  revert a. induction l as [|b l IH]; intros a Hch Hnd Ha Hlast.
  { by intros ->%list_elem_of_singleton. }
  apply chain_cons in Hch as [Hab Hch]. specialize (Hab b eq_refl).
  apply NoDup_cons in Hnd as [Hnotin Hnd].
  destruct (decide (b = v)) as [->|Hb].
  - destruct l as [|c l]; [done|].
    apply chain_cons in Hch as [Hvc _]. specialize (Hvc c eq_refl).
    apply leaf_edge_at in Hvc as ->.
    apply leaf_edge_sym, leaf_edge_at in Hab as ->.
    destruct Hnotin. right. by left.
  - intros [->|Hin]%elem_of_cons; [done|].
    by apply (IH b).
Qed.

Lemma leaf_chain_old (l : list A) : v ∉ l → chain E' l → chain E l.
Proof.
  intros Hv. apply chain_impl. intros a b Ha Hb.
  rewrite E'_spec. intros [?|[[_ ->]|[-> _]]]; done.
Qed.

Lemma leaf_chain_new (l : list A) : chain E l → chain E' l.
Proof. apply chain_impl. intros a b _ _ ?. apply E'_spec. by left. Qed.

Lemma leaf_old_path (a b : A) (l : list A) :
  V a → V b → simple_path E' a b l → simple_path E a b l.
Proof.
  intros Ha Hb (Hhd & Hlast & Hnd & Hch). split_and!; try done.
  apply leaf_chain_old; [|done].
  destruct l as [|c l]; simplify_eq/=.
  apply leaf_avoided; try done.
  - by intros ->.
  - rewrite Hlast. by intros [= ->].
Qed.

Lemma leaf_path_not_in (a b : A) (l : list A) :
  V a → simple_path E a b l → v ∉ l.
Proof.
  intros Ha (Hhd & _ & _ & Hch) Hv.
  assert (Forall V l) as Hall.
  { apply (chain_stays V E); [by intros ?? [_ ?]%E_in| |done].
    intros c Hc. by simplify_eq. }
  rewrite Forall_forall in Hall. by apply V_v, Hall.
Qed.

(** Paths that start at the leaf go through [u]. *)
Lemma leaf_from (b : A) (l : list A) :
  V b → simple_path E' v b l ↔ ∃ l1, l = v :: l1 ∧ simple_path E u b l1.
Proof.
  intros Hb. split.
  - intros (Hhd & Hlast & Hnd & Hch).
    destruct l as [|c l1]; simplify_eq/=. exists l1. split; [done|].
    destruct l1 as [|c l1]; [by simplify_eq/=|].
    destruct Hch as [Hvc Hch].
    apply leaf_edge_at in Hvc as ->.
    apply NoDup_cons in Hnd as [Hnotin Hnd].
    split_and!; try done. by apply leaf_chain_old.
  - intros (l1 & -> & Hl1).
    pose proof (leaf_path_not_in u b l1 V_u Hl1) as Hnotin.
    destruct Hl1 as (Hhd & Hlast & Hnd & Hch). split_and!.
    + done.
    + destruct l1; simplify_eq/=. done.
    + by constructor.
    + apply chain_cons. split; [|by apply leaf_chain_new].
      intros c Hc. simplify_eq. apply E'_spec. by right; right.
Qed.

Lemma tree_leaf : tree V E → tree V' E'.
Proof.
  intros Htree a b [Ha| ->]%V'_spec [Hb| ->]%V'_spec.
  - destruct (Htree a b Ha Hb) as [(l & Hl) Huniq]. split.
    + exists l. destruct Hl as (? & ? & ? & ?).
      split_and!; try done. by apply leaf_chain_new.
    + intros l1 l2 H1 H2. apply Huniq; by apply leaf_old_path.
  - destruct (Htree u a V_u Ha) as [(l & Hl) Huniq]. split.
    + exists (reverse (v :: l)). apply simple_path_rev; [apply leaf_edge_sym|].
      apply leaf_from; [done|]. by exists l.
    + intros l1 l2 H1 H2.
      apply (simple_path_rev _ _ _ _ leaf_edge_sym) in H1, H2.
      apply leaf_from in H1 as (k1 & Hk1 & H1); [|done].
      apply leaf_from in H2 as (k2 & Hk2 & H2); [|done].
      rewrite <-(reverse_involutive l1), <-(reverse_involutive l2), Hk1, Hk2.
      by rewrite (Huniq k1 k2).
  - destruct (Htree u b V_u Hb) as [(l & Hl) Huniq]. split.
    + exists (v :: l). apply leaf_from; [done|]. by exists l.
    + intros l1 l2 H1 H2.
      apply leaf_from in H1 as (k1 & -> & H1); [|done].
      apply leaf_from in H2 as (k2 & -> & H2); [|done].
      by rewrite (Huniq k1 k2).
  - split.
    + exists [v]. split_and!; try done. apply NoDup_singleton.
    + intros l1 l2 ->%simple_path_self ->%simple_path_self. done.
Qed.

End Leaf.

Lemma tree_single {A : Type} (V : A → Prop) (E : A → A → Prop) (r : A) :
  (∀ a, V a → a = r) → tree V E.
Proof.
  intros HV a b ->%HV ->%HV. split.
  - exists [r]. split_and!; try done. apply NoDup_singleton.
  - intros l1 l2 ->%simple_path_self ->%simple_path_self. done.
Qed.

Lemma tree_iff {A : Type} (V V' : A → Prop) (E E' : A → A → Prop) :
  (∀ a, V a ↔ V' a) → (∀ a b, E a b ↔ E' a b) → tree V E → tree V' E'.
Proof.
  intros HV HE Htree a b Ha%HV Hb%HV.
  assert (∀ l, simple_path E' a b l ↔ simple_path E a b l) as Hiff.
  { intros l. unfold simple_path. split; intros (? & ? & ? & Hch); split_and!;
      try done; revert Hch; apply chain_impl; intros ????; by apply HE. }
  destruct (Htree a b Ha Hb) as [(l & Hl) Huniq]. split.
  - exists l. by apply Hiff.
  - intros l1 l2 H1%Hiff H2%Hiff. by apply Huniq.
Qed.

(** * generateMaze carves a perfect maze *)

(** ** Writing a cell *)

Lemma at2_in_bounds {A : Type} (N : Z) (m : list (list A)) (cx cy : Z) :
  square N m → 0 ≤ cx < N → 0 ≤ cy < N → is_Some (at2 m cx cy).
Proof.
  intros Hsq Hx Hy. destruct (square_read2 N m cx cy) as [c Hc]; try done.
  apply read2_at2 in Hc. by rewrite Hc.
Qed.

Lemma write2_square {A : Type} (N : Z) (m : list (list A)) (cx cy : Z) (v : A) :
  square N m → 0 ≤ cx < N → 0 ≤ cy < N →
  ∃ m', write2 m cx cy v = Ok m' ∧ square N m' ∧
        ∀ i j, at2 m' i j = if decide (i = cx ∧ j = cy) then Some v else at2 m i j.
Proof.
  intros Hsq Hx Hy. destruct (square_row N m cy Hsq Hy) as (row & Hrow & Hlen).
  destruct Hsq as [Hrows Hall].
  exists (<[Z.to_nat cy := <[Z.to_nat cx := v]> row]> m). split_and!.
  - unfold write2. rewrite Hrow. by rewrite decide_True by lia.
  - split; [by rewrite length_insert|].
    apply Forall_insert; [done|]. by rewrite length_insert.
  - intros i j. unfold at2, js_get.
    apply js_get_Some in Hrow as [_ Hrow].
    destruct (decide (0 ≤ j)) as [Hj|Hj]; [|by rewrite decide_False by lia].
    destruct (decide (j = cy)) as [->|Hne].
    + rewrite list_lookup_insert_eq by (by eapply lookup_lt_Some). simpl.
      rewrite Hrow. simpl.
      destruct (decide (0 ≤ i)) as [Hi|Hi]; [|by rewrite decide_False by lia].
      destruct (decide (i = cx)) as [->|Hne].
      * rewrite decide_True by done. apply list_lookup_insert_eq. lia.
      * rewrite decide_False by (by intros [? _]).
        apply list_lookup_insert_ne. lia.
    + rewrite decide_False by (by intros [_ ?]).
      rewrite list_lookup_insert_ne by lia. done.
Qed.

Lemma write2_same {A : Type} (m : list (list A)) (cx cy : Z) (v : A) :
  at2 m cx cy = Some v → write2 m cx cy v = Ok m.
Proof.
  unfold at2, write2. destruct (js_get m cy) as [row|] eqn:Hrow; [|done]. simpl.
  intros Hv. apply js_get_Some in Hrow as [? Hrow]. apply js_get_Some in Hv as [? Hv].
  rewrite decide_True by (apply lookup_lt_Some in Hv; lia).
  by rewrite (list_insert_id row), (list_insert_id m).
Qed.

Lemma write2_cell (N : Z) (g : Grid) (c : Point) (v : string) :
  square N g → 0 ≤ c.(x) < N → 0 ≤ c.(y) < N →
  ∃ g', write2 g c.(x) c.(y) v = Ok g' ∧ square N g' ∧
        ∀ p, cell_at g' p = if decide (p = c) then Some v else cell_at g p.
Proof.
  intros Hsq Hx Hy.
  destruct (write2_square N g c.(x) c.(y) v) as (g' & Hw & Hsq' & Hat); try done.
  exists g'. split_and!; try done. intros p. unfold cell_at. rewrite Hat.
  destruct (decide (p = c)) as [->|Hne]; [by rewrite decide_True|].
  rewrite decide_False; [done|]. intros [? ?]. destruct p, c; simplify_eq/=.
Qed.

Lemma square_replicate {A : Type} (N : Z) (a : A) :
  square N (replicate (Z.to_nat N) (replicate (Z.to_nat N) a)).
Proof.
  split; [by rewrite length_replicate|].
  apply Forall_replicate. by rewrite length_replicate.
Qed.

Lemma at2_replicate {A : Type} (N : Z) (a : A) (cx cy : Z) (c : A) :
  at2 (replicate (Z.to_nat N) (replicate (Z.to_nat N) a)) cx cy = Some c → c = a.
Proof.
  unfold at2. intros Hc.
  destruct (js_get _ cy) as [row|] eqn:Hrow; simplify_eq/=.
  apply js_get_Some in Hrow as [_ Hrow]. apply js_get_Some in Hc as [_ Hc].
  apply lookup_replicate in Hrow as [-> _].
  by apply lookup_replicate in Hc as [-> _].
Qed.

(** ** Counting walls *)

Lemma length_filter_le_impl {A : Type} (P Q : A → Prop)
    `{!∀ a, Decision (P a), !∀ a, Decision (Q a)} (l : list A) :
  (∀ a, a ∈ l → P a → Q a) → (length (filter P l) ≤ length (filter Q l))%nat.
Proof.
  induction l as [|a l IH]; intros HPQ; [done|].
  rewrite !filter_cons.
  assert (length (filter P l) ≤ length (filter Q l))%nat.
  { apply IH. intros ???. apply HPQ; [by right|done]. }
  destruct (decide (P a)) as [HP|HP].
  - rewrite decide_True by (apply HPQ; [by left|done]). simpl. lia.
  - destruct (decide (Q a)); simpl; lia.
Qed.

Lemma length_filter_lt_impl {A : Type} (P Q : A → Prop)
    `{!∀ a, Decision (P a), !∀ a, Decision (Q a)} (l : list A) (b : A) :
  (∀ a, a ∈ l → P a → Q a) → b ∈ l → Q b → ¬ P b →
  (length (filter P l) < length (filter Q l))%nat.
Proof.
  induction l as [|a l IH]; intros HPQ Hb HQ HP; [by apply elem_of_nil in Hb|].
  rewrite !filter_cons.
  assert (length (filter P l) ≤ length (filter Q l))%nat.
  { apply length_filter_le_impl. intros ???. apply HPQ; [by right|done]. }
  apply elem_of_cons in Hb as [<-|Hb].
  - rewrite decide_False, decide_True by done. simpl. lia.
  - assert (length (filter P l) < length (filter Q l))%nat.
    { apply IH; try done. intros ???. apply HPQ; [by right|done]. }
    destruct (decide (P a)) as [HPa|HPa].
    + rewrite decide_True by (apply HPQ; [by left|done]). simpl. lia.
    + destruct (decide (Q a)); simpl; lia.
Qed.

Lemma elem_of_all_points (N : Z) (p : Point) :
  p ∈ all_points N ↔ 0 ≤ p.(x) < N ∧ 0 ≤ p.(y) < N.
Proof.
  unfold all_points. rewrite list_elem_of_bind. split.
  - intros (i & (j & Hp & Hj%elem_of_seqZ)%list_elem_of_bind & Hi%elem_of_seqZ).
    apply list_elem_of_singleton in Hp as ->. simpl. lia.
  - intros [Hx Hy]. exists p.(x). split; [|apply elem_of_seqZ; lia].
    apply list_elem_of_bind. exists p.(y). split; [|apply elem_of_seqZ; lia].
    destruct p. by left.
Qed.

Lemma wall_count_bound (N : Z) (g : Grid) : (wall_count N g ≤ Z.to_nat (N * N))%nat.
Proof.
  unfold wall_count. etrans; [apply length_filter|].
  unfold all_points. rewrite (length_bind_const _ _ (Z.to_nat N)).
  - rewrite length_seqZ. lia.
  - intros i. rewrite (length_bind_const _ _ 1%nat); [|done].
    rewrite length_seqZ. lia.
Qed.

(** ** The lattice of carveable cells *)

Lemma odd_witness (z : Z) : Z.odd z = true → ∃ k, z = 2 * k + 1.
Proof. intros H. by apply Z.odd_spec in H. Qed.

Lemma node_witness (N : Z) (p : Point) :
  node N p →
  ∃ i j, p = mkPoint (2 * i + 1) (2 * j + 1) ∧ 0 ≤ i ∧ 0 ≤ j ∧
         2 * i + 1 < N - 1 ∧ 2 * j + 1 < N - 1.
Proof.
  destruct p as [px py]. intros (Hx & Hy & ? & ?); simpl in *.
  apply odd_witness in Hx as [i ->]. apply odd_witness in Hy as [j ->].
  exists i, j. split_and!; [done|lia..].
Qed.

Lemma node_intro (N i j : Z) :
  0 ≤ i → 0 ≤ j → 2 * i + 1 < N - 1 → 2 * j + 1 < N - 1 →
  node N (mkPoint (2 * i + 1) (2 * j + 1)).
Proof.
  intros. split_and!; simpl; try lia.
  - by rewrite Z.add_comm, Z.odd_add_mul_2.
  - by rewrite Z.add_comm, Z.odd_add_mul_2.
Qed.

Lemma node_move (N : Z) (a : Point) (d : Z * Z) :
  node N a → d ∈ carve_directions →
  0 < a.(x) + d.1 < N - 1 → 0 < a.(y) + d.2 < N - 1 → node N (move a d).
Proof.
  intros (i & j & -> & ?)%node_witness Hd Hx Hy. dirs Hd; simpl in *.
  - replace (move _ _) with (mkPoint (2 * i + 1) (2 * (j - 1) + 1))
      by (unfold move; f_equal; simpl; lia).
    apply node_intro; lia.
  - replace (move _ _) with (mkPoint (2 * i + 1) (2 * (j + 1) + 1))
      by (unfold move; f_equal; simpl; lia).
    apply node_intro; lia.
  - replace (move _ _) with (mkPoint (2 * (i - 1) + 1) (2 * j + 1))
      by (unfold move; f_equal; simpl; lia).
    apply node_intro; lia.
  - replace (move _ _) with (mkPoint (2 * (i + 1) + 1) (2 * j + 1))
      by (unfold move; f_equal; simpl; lia).
    apply node_intro; lia.
Qed.

(** The cell between two carveable cells is not carveable. *)
Lemma half_not_node (N : Z) (a : Point) (d : Z * Z) :
  node N a → d ∈ carve_directions → ¬ node N (move a (half d)).
Proof.
  intros (i & j & -> & _)%node_witness Hd (i' & j' & Heq & _)%node_witness.
  dirs Hd; unfold move, half in Heq; simpl in Heq; halves; injection Heq; lia.
Qed.

(** In bounds, a cell between two carveable cells lies strictly inside the
    border. *)
Lemma half_inside (N : Z) (a : Point) (d : Z * Z) :
  node N a → node N (move a d) → d ∈ carve_directions →
  0 < (move a (half d)).(x) < N - 1 ∧ 0 < (move a (half d)).(y) < N - 1.
Proof.
  intros (_ & _ & ? & ?) (_ & _ & Hx & Hy) Hd.
  dirs Hd; unfold move, half in *; simpl in *; halves; lia.
Qed.

(** A cell lies between at most one pair of carveable cells. *)
Lemma between_unique (N : Z) (a a' : Point) (d d' : Z * Z) :
  node N a → node N a' → d ∈ carve_directions → d' ∈ carve_directions →
  move a (half d) = move a' (half d') →
  (a' = a ∧ move a' d' = move a d) ∨ (a' = move a d ∧ move a' d' = a).
Proof.
  intros (i & j & -> & _)%node_witness (i' & j' & -> & _)%node_witness Hd Hd'.
  dirs Hd; dirs Hd'; unfold move, half; simpl; halves; intros [= H1 H2];
    first [ left; split; f_equal; lia
          | right; split; f_equal; lia
          | exfalso; lia ].
Qed.

Lemma move_back (a : Point) (d : Z * Z) :
  d ∈ carve_directions →
  ∃ d', d' ∈ carve_directions ∧ move (move a d) d' = a ∧
        move (move a d) (half d') = move a (half d).
Proof.
  intros Hd. destruct a as [ax ay]. dirs Hd.
  - exists (0, 2). split; [set_solver|].
    unfold move, half; simpl; halves. split; f_equal; lia.
  - exists (0, -2). split; [set_solver|].
    unfold move, half; simpl; halves. split; f_equal; lia.
  - exists (2, 0). split; [set_solver|].
    unfold move, half; simpl; halves. split; f_equal; lia.
  - exists (-2, 0). split; [set_solver|].
    unfold move, half; simpl; halves. split; f_equal; lia.
Qed.

Lemma ledge_sym (N : Z) (O : Point → Prop) (a b : Point) :
  ledge N O a b → ledge N O b a.
Proof.
  intros (Ha & Hb & HOa & HOb & d & Hd & -> & Hmid).
  split_and!; try done.
  destruct (move_back a d Hd) as (d' & Hd' & Hback & Hhalf).
  exists d'. split_and!; [done|done|]. by rewrite Hhalf.
Qed.

Lemma ledge_mono (N : Z) (O O' : Point → Prop) (a b : Point) :
  (∀ p, O p → O' p) → ledge N O a b → ledge N O' a b.
Proof.
  intros HO (Ha & Hb & HOa & HOb & d & Hd & -> & Hmid).
  split_and!; try done; try by apply HO. exists d. split_and!; try done.
  by apply HO.
Qed.

Lemma carve_inv_iff (N : Z) (O O' : Point → Prop) :
  (∀ p, O p ↔ O' p) → carve_inv N O → carve_inv N O'.
Proof.
  intros HO [Hcells Htree]. split.
  - intros p [Hp|(a & d & Hd & -> & He)]%HO%Hcells; [by left|].
    right. exists a, d. split_and!; try done.
    eapply ledge_mono; [|done]. intros ?. by apply HO.
  - eapply tree_iff; [| |done].
    + intros a. simpl. by rewrite HO.
    + intros a b. split; apply ledge_mono; intros ?; by apply HO.
Qed.

(** Carving one more cell [move u d], together with the cell between it and
    [u], keeps the invariant. *)
Lemma carve_step (N : Z) (O O' : Point → Prop) (u : Point) (d : Z * Z) :
  carve_inv N O → node N u → O u → d ∈ carve_directions →
  node N (move u d) → ¬ O (move u d) →
  (∀ p, O' p ↔ O p ∨ p = move u d ∨ p = move u (half d)) →
  carve_inv N O'.
Proof.
  intros [Hcells Htree] Hu HOu Hd Hv HOv HO'.
  assert (∀ p, O p → O' p) as Hgrow by (intros p ?; apply HO'; by left).
  assert (ledge N O' u (move u d)) as Huv.
  { split_and!; try done; [by apply Hgrow|apply HO'; by right; left|].
    exists d. split_and!; try done. apply HO'. by right; right. }
  split.
  - intros p [Hp|[->| ->]]%HO'.
    + destruct (Hcells p Hp) as [?|(a & d' & Hd' & -> & He)]; [by left|].
      right. exists a, d'. split_and!; try done. by eapply ledge_mono.
    + by left.
    + right. by exists u, d.
  - apply (tree_leaf (λ p, node N p ∧ O p) _ (ledge N O) _ u (move u d)).
    + apply ledge_sym.
    + by intros a b (? & ? & ? & ? & _).
    + done.
    + by intros [_ ?].
    + intros a b. split.
      * intros (Ha & Hb & HOa & HOb & d' & Hd' & -> & Hmid).
        apply HO' in Hmid as [Hmid|[Hmid|Hmid]].
        -- destruct (Hcells _ Hmid) as [Hn|(a0 & d0 & Hd0 & Heq & He)].
           { by destruct (half_not_node N a d' Ha Hd'). }
           destruct (between_unique N a0 a d0 d') as [[-> ->]|[-> ->]]; try done.
           ++ by destruct He.
           ++ by left.
           ++ left. by apply ledge_sym.
        -- exfalso. rewrite <-Hmid in Hv. by destruct (half_not_node N a d' Ha Hd').
        -- destruct (between_unique N u a d d') as [[-> ->]|[-> ->]]; try done.
           ++ by right; left.
           ++ by right; right.
      * intros [He|[[-> ->]|[-> ->]]].
        -- by eapply ledge_mono.
        -- done.
        -- by apply ledge_sym.
    + intros a. simpl. rewrite HO'. split.
      * intros [Ha [?|[->| ->]]]; [by left|by right|].
        by destruct (half_not_node N u d Hu Hd).
      * intros [[? ?]| ->]; [by split; [|left]|].
        split; [done|by right; left].
    + done.
Qed.

(** ** carvePath *)

Lemma open_cell_wall (N : Z) (g : Grid) (p : Point) :
  square N g → 0 ≤ p.(x) < N → 0 ≤ p.(y) < N →
  ¬ open_cell g p → cell_at g p = Some WALL.
Proof.
  intros Hsq Hx Hy Hno. destruct (at2_in_bounds N g p.(x) p.(y)) as [s Hs]; try done.
  unfold open_cell, cell_at in *. rewrite Hs in Hno |- *.
  destruct (decide (s = WALL)) as [->|?]; [done|]. by destruct Hno.
Qed.

Section Carve.

Variable N : Z.
Variable shuffle : Shuffle.
Hypothesis shuffle_perm : ∀ k l, shuffle k l ≡ₚ l.

Lemma carvePath_spec (fuel : nat) (c : Point) (g : Grid) (k : nat) (g0 : Grid) :
  write2 g c.(x) c.(y) PATH = Ok g0 →
  square N g0 → node N c → open_cell g0 c → carve_inv N (open_cell g0) →
  (wall_count N g0 < fuel)%nat →
  ∃ st', carvePath N shuffle fuel c.(x) c.(y) (g, k) = Ok st' ∧
         carve_post N g0 c st'.1.
Proof.
  revert c g k g0.
  induction fuel as [|fuel IH]; intros c g k g0 Hw Hsq0 Hc Hopen0 Hinv0 Hfuel; [lia|].
  cbn [carvePath fst snd]. rewrite Hw. cbn [mbind result_bind].
  match goal with
  | |- ∃ st', for_each ?l ?body ?s = Ok st' ∧ _ =>
      destruct (for_each_total (carve_loop_inv N g0 c) l body s)
        as (st' & Hrun & HL)
  end.
  { split_and!; simpl; try done. intros d Hd. by apply elem_of_nil in Hd. }
  { intros done d t (Hsq & Hinv & Hgrow & Hwalls & Hnew & Hdone) Hd.
    rewrite shuffle_perm in Hd. cbv beta zeta.
    set (v := move c d).
    change (c.(x) + d.1) with v.(x). change (c.(y) + d.2) with v.(y).
    assert (∀ d', d' ∈ done ++ [d] → (node N v → open_cell t.1 v) →
                  node N (move c d') → open_cell t.1 (move c d')) as Hdone'.
    { intros d' [Hd'|Hd']%elem_of_app Hv; [by apply Hdone|].
      by apply list_elem_of_singleton in Hd' as ->. }
    destruct (decide (v.(x) > 0 ∧ v.(x) < N - 1 ∧ v.(y) > 0 ∧ v.(y) < N - 1))
      as [Hguard|Hguard]; cycle 1.
    { exists t. split; [done|]. split_and!; try done.
      intros d' Hd'. apply Hdone'; [done|].
      intros (_ & _ & ? & ?). lia. }
    assert (node N v) as Hv.
    { pose proof Hguard as Hg. unfold v in Hg. simpl in Hg.
      apply node_move; [done|done|lia..]. }
    destruct (square_read2 N t.1 v.(x) v.(y)) as [s Hs]; [done|lia|lia|].
    rewrite Hs. cbn [mbind result_bind].
    apply read2_cell_at in Hs. replace (mkPoint _ _) with v in Hs by by destruct v.
    destruct (decide (Some s = Some WALL)) as [[= ->]|Hs']; cycle 1.
    { exists t. split; [done|]. split_and!; try done.
      intros d' Hd'. apply Hdone'; [done|]. intros _.
      unfold open_cell. rewrite Hs. congruence. }
    assert (¬ open_cell t.1 v) as Hwall.
    { unfold open_cell. rewrite Hs. by intros ?. }
    destruct (write2_cell N t.1 v PATH) as (maze1 & Hw1 & Hsq1 & Hcell1);
      [done|lia|lia|].
    rewrite Hw1. cbn [mbind result_bind].
    set (mid := move c (half d)).
    change (c.(x) + d.1 / 2) with mid.(x). change (c.(y) + d.2 / 2) with mid.(y).
    pose proof (half_inside N c d Hc Hv Hd) as [Hmx Hmy]. fold mid in Hmx, Hmy.
    destruct (write2_cell N maze1 mid PATH) as (maze2 & Hw2 & Hsq2 & Hcell2);
      [done|lia|lia|].
    rewrite Hw2. cbn [mbind result_bind].
    assert (∀ p, open_cell maze2 p ↔ open_cell t.1 p ∨ p = v ∨ p = mid) as Hopen2.
    { intros p. unfold open_cell. rewrite Hcell2, Hcell1.
      destruct (decide (p = mid)) as [->|?]; [by split; [right; right|]|].
      destruct (decide (p = v)) as [->|?]; [by split; [right; left|]|].
      split; [by left|]. by intros [?|[?|?]]. }
    assert (carve_inv N (open_cell maze2)) as Hinv2.
    { apply (carve_step N (open_cell t.1) _ c d); try done. by apply Hgrow. }
    assert (wall_count N maze2 < wall_count N t.1)%nat as Hless.
    { apply (length_filter_lt_impl _ _ _ v).
      - intros p _. rewrite Hcell2, Hcell1. by repeat case_decide.
      - apply elem_of_all_points. lia.
      - done.
      - rewrite Hcell2, Hcell1. by repeat case_decide. }
    destruct (IH v maze2 t.2 maze2) as (st'' & Hrec & Hpost); try done.
    { apply write2_same. fold (cell_at maze2 v).
      rewrite Hcell2, Hcell1. by repeat case_decide. }
    { apply Hopen2. by right; left. }
    { lia. }
    exists st''. split; [done|].
    destruct Hpost as (Hsq'' & Hinv'' & Hgrow'' & Hwalls'' & Hnew'').
    split_and!; try done.
    - intros p Hp. apply Hgrow'', Hopen2. left. by apply Hgrow.
    - lia.
    - intros w Hw' Hopen' Hnot.
      destruct (decide (open_cell t.1 w)) as [Hyes|Hno].
      + intros d' Hd' Hn. apply Hgrow'', Hopen2. left. by apply Hnew.
      + apply Hnew''; try done.
        destruct (decide (w = v)) as [->|Hne]; [by left|right].
        intros [?|[?| ->]]%Hopen2; try done.
        by destruct (half_not_node N c d Hc Hd).
    - intros d' Hd' Hn.
      destruct (decide (open_cell t.1 (move c d'))) as [Hyes|Hno].
      + apply Hgrow'', Hopen2. by left.
      + apply elem_of_app in Hd' as [Hd'|Hd'].
        * destruct Hno. by apply Hdone.
        * apply list_elem_of_singleton in Hd' as ->.
          apply Hgrow'', Hopen2. by right; left. }
  exists st'. split; [done|].
  destruct HL as (Hsq & Hinv & Hgrow & Hwalls & Hnew & Hdone).
  split_and!; try done.
  intros w Hw' Hopen' [->|Hnot]; [|by apply Hnew].
  intros d Hd. apply Hdone. by rewrite shuffle_perm.
Qed.

End Carve.

(** ** generateMaze *)

(** An open set that contains the start and is closed under carveable
    neighbours contains every carveable cell. *)
Lemma lattice_connected (N : Z) (O : Point → Prop) :
  O (mkPoint 1 1) →
  (∀ v, node N v → O v → nbrs_open N O v) →
  ∀ p, node N p → O p.
Proof.
  intros Hstart Hclosed p (i & j & -> & Hi & Hj & Hx & Hy)%node_witness.
  assert (∀ n, 0 ≤ n → 2 * n + 1 < N - 1 → O (mkPoint (2 * n + 1) 1)) as Hrow.
  { apply (natlike_ind (λ n, 2 * n + 1 < N - 1 → O (mkPoint (2 * n + 1) 1))).
    - by intros _.
    - intros n Hn IH Hlt.
      assert (node N (mkPoint (2 * n + 1) (2 * 0 + 1))) as Hnode
        by (apply node_intro; lia).
      replace (mkPoint (2 * Z.succ n + 1) 1)
        with (move (mkPoint (2 * n + 1) (2 * 0 + 1)) (2, 0))
        by (unfold move; f_equal; simpl; lia).
      apply Hclosed; [done|apply IH; lia|set_solver|].
      replace (move _ _) with (mkPoint (2 * (n + 1) + 1) (2 * 0 + 1))
        by (unfold move; f_equal; simpl; lia).
      apply node_intro; lia. }
  revert Hy. pattern j. apply natlike_ind; [| |done].
  - intros _. apply Hrow; lia.
  - intros n Hn IH Hlt.
    assert (node N (mkPoint (2 * i + 1) (2 * n + 1))) as Hnode
      by (apply node_intro; lia).
    replace (mkPoint (2 * i + 1) (2 * Z.succ n + 1))
      with (move (mkPoint (2 * i + 1) (2 * n + 1)) (0, 2))
      by (unfold move; f_equal; simpl; lia).
    apply Hclosed; [done|apply IH; lia|set_solver|].
    replace (move _ _) with (mkPoint (2 * i + 1) (2 * (n + 1) + 1))
      by (unfold move; f_equal; simpl; lia).
    apply node_intro; lia.
Qed.

Lemma node_start (N : Z) : 3 ≤ N → node N (mkPoint 1 1).
Proof. intros. split_and!; simpl; try done; lia. Qed.

Lemma node_exit (N : Z) :
  Z.odd N = true → 3 ≤ N → node N (mkPoint (N - 2) (N - 2)).
Proof.
  intros [k ->]%odd_witness ?.
  replace (2 * k + 1 - 2) with (2 * (k - 1) + 1) by lia.
  apply node_intro; lia.
Qed.

(** Generation ends without a fault for every side of at least 3, odd or
    even: the grid [g'] left by [carvePath] satisfies the carving invariant
    and has every carveable cell open, and the grid returned differs from it
    at the start and exit cells only. *)
Lemma generateMaze_run (N : Z) (shuffle : Shuffle) :
  (∀ k l, shuffle k l ≡ₚ l) → 3 ≤ N →
  ∃ g g', generateMaze N shuffle = Ok g ∧ square N g ∧ square N g' ∧
       carve_inv N (open_cell g') ∧
       (∀ p, node N p → open_cell g' p) ∧
       (∀ p, cell_at g p =
             if decide (p = mkPoint (N - 2) (N - 2)) then Some EXIT
             else if decide (p = mkPoint 1 1) then Some PLAYER
             else cell_at g' p).
Proof.
  intros Hperm HN. unfold generateMaze.
  set (c := mkPoint 1 1).
  pose proof (node_start N HN) as Hc. fold c in Hc.
  pose proof (square_replicate N WALL) as Hsq. fold (all_walls N) in Hsq.
  destruct (write2_cell N (all_walls N) c PATH) as (g0 & Hw0 & Hsq0 & Hcell0);
    [done|simpl; lia..|].
  assert (∀ p, open_cell g0 p ↔ p = c) as Hopen0.
  { intros p. unfold open_cell. rewrite Hcell0.
    destruct (decide (p = c)) as [->|?]; [done|].
    destruct (cell_at (all_walls N) p) as [s|] eqn:Hs; [|naive_solver].
    apply at2_replicate in Hs as ->. naive_solver. }
  destruct (carvePath_spec N shuffle Hperm (carve_fuel N) c (all_walls N) O g0)
    as (st & Hrun & Hsq1 & Hinv1 & Hgrow1 & _ & Hnew1); try done.
  { by apply Hopen0. }
  { split.
    - intros p ->%Hopen0. by left.
    - apply (tree_single _ _ c). by intros a [_ ?%Hopen0]. }
  { unfold carve_fuel. pose proof (wall_count_bound N g0). lia. }
  change (carvePath N shuffle (carve_fuel N) 1 1 (all_walls N, 0%nat))
    with (carvePath N shuffle (carve_fuel N) c.(x) c.(y) (all_walls N, 0%nat)).
  rewrite Hrun. cbn [mbind result_bind].
  assert (∀ p, node N p → open_cell st.1 p) as Hall.
  { apply lattice_connected; [by apply Hgrow1, Hopen0|].
    intros v Hv Hopen. apply Hnew1; try done.
    destruct (decide (v = c)) as [->|?]; [by left|right]. by intros ?%Hopen0. }
  destruct (write2_cell N st.1 c PLAYER) as (m1 & Hw1 & Hsqm1 & Hcellm1);
    [done|simpl; lia..|].
  change (write2 st.1 1 1 PLAYER) with (write2 st.1 c.(x) c.(y) PLAYER).
  rewrite Hw1. cbn [mbind result_bind].
  set (e := mkPoint (N - 2) (N - 2)).
  destruct (write2_cell N m1 e EXIT) as (gf & Hwf & Hsqf & Hcellf);
    [done|simpl; lia..|].
  change (write2 m1 (N - 2) (N - 2) EXIT) with (write2 m1 e.(x) e.(y) EXIT).
  exists gf, st.1. split_and!; try done.
  intros p. by rewrite Hcellf, Hcellm1.
Qed.

(** For an odd side the grid returned satisfies the carving invariant
    itself, with every carveable cell open. *)
Lemma generateMaze_spec (N : Z) (shuffle : Shuffle) :
  (∀ k l, shuffle k l ≡ₚ l) → Z.odd N = true → 3 ≤ N →
  ∃ g, generateMaze N shuffle = Ok g ∧ square N g ∧
       carve_inv N (open_cell g) ∧
       (∀ p, node N p → open_cell g p) ∧
       (N ≠ 3 → cell_at g (mkPoint 1 1) = Some PLAYER) ∧
       cell_at g (mkPoint (N - 2) (N - 2)) = Some EXIT.
Proof.
  intros Hperm Hodd HN.
  destruct (generateMaze_run N shuffle Hperm HN)
    as (g & g' & Hrun & Hsq & Hsq' & Hinv & Hall & Hcell).
  exists g. split; [done|].
  assert (∀ p, open_cell g' p ↔ open_cell g p) as Hsame.
  { intros p. unfold open_cell at 2. rewrite Hcell.
    destruct (decide (p = _)) as [->|?].
    { split; [done|]. intros _. by apply Hall, node_exit. }
    destruct (decide (p = _)) as [->|?]; [|done].
    split; [done|]. intros _. by apply Hall, node_start. }
  split_and!.
  - done.
  - by apply (carve_inv_iff N (open_cell g')).
  - intros p Hp. by apply Hsame, Hall.
  - intros HN3. rewrite Hcell.
    rewrite decide_False by (intros [= Heq]; lia).
    by rewrite decide_True.
  - rewrite Hcell. by rewrite decide_True.
Qed.

(** ** Consequences for the generated grid *)

(** Every open cell lies strictly inside the border. *)
Lemma carve_inv_inside (N : Z) (O : Point → Prop) (p : Point) :
  carve_inv N O → O p → 0 < p.(x) < N - 1 ∧ 0 < p.(y) < N - 1.
Proof.
  intros [Hcells _] [Hn|(a & d & Hd & -> & (Ha & Hb & _))]%Hcells.
  - by destruct Hn as (_ & _ & ? & ?).
  - by apply half_inside.
Qed.

Lemma adjacent_half (a : Point) (d : Z * Z) :
  d ∈ carve_directions →
  adjacent a (move a (half d)) ∧ adjacent (move a (half d)) (move a d).
Proof.
  intros Hd. destruct a as [ax ay].
  dirs Hd; unfold adjacent, move, half; simpl; halves; lia.
Qed.

(** A path of the lattice unfolds into a path of the grid. *)
Lemma lattice_route (N : Z) (g : Grid) (s : Point) (l : list Point) (a b : Point) :
  chain (ledge N (open_cell g)) l → connects l a b →
  (∃ r, route g s a r) → ∃ r, route g s b r.
Proof.
  revert a. induction l as [|a' l IH]; intros a Hch [Hhd Hlast] Hr;
    simplify_eq/=.
  destruct l as [|a'' l]; [by simplify_eq/=|].
  destruct Hch as [He Hch]. apply (IH a''); [done|done|].
  destruct He as (_ & _ & _ & Hopen & d & Hd & -> & Hmid).
  destruct Hr as [r Hr]. destruct (adjacent_half a d Hd) as [H1 H2].
  exists ((r ++ [move a (half d)]) ++ [move a d]).
  apply (route_snoc g s (move a (half d))); [|done..].
  by apply (route_snoc g s a).
Qed.

(** Every open cell of a carved grid is reached from the start cell. *)
Lemma carve_inv_reach (N : Z) (g : Grid) (p : Point) :
  carve_inv N (open_cell g) → open_cell g (mkPoint 1 1) → node N (mkPoint 1 1) →
  open_cell g p → ∃ r, route g (mkPoint 1 1) p r.
Proof.
  intros [Hcells Htree] Hstart Hnode Hp.
  assert (∀ a, node N a → open_cell g a → ∃ r, route g (mkPoint 1 1) a r) as Hnodes.
  { intros a Ha Hopen.
    destruct (Htree (mkPoint 1 1) a) as [(l & Hhd & Hlast & _ & Hch) _]; [done..|].
    apply (lattice_route N g _ l (mkPoint 1 1)); [done|done|].
    exists [mkPoint 1 1]. split; [split|done]; [by repeat constructor|done]. }
  destruct (Hcells p Hp) as [Hn|(a & d & Hd & -> & (Ha & _ & Hopen & _))].
  - by apply Hnodes.
  - destruct (Hnodes a Ha Hopen) as [r Hr].
    exists (r ++ [move a (half d)]).
    apply (route_snoc g _ a); [done| |done]. by apply adjacent_half.
Qed.

(** * The cells of a generated grid *)

(** ** Counting with filters *)

Lemma length_filter_ext {A : Type} (P Q : A → Prop)
    `{!∀ a, Decision (P a), !∀ a, Decision (Q a)} (l : list A) :
  (∀ a, a ∈ l → P a ↔ Q a) → length (filter P l) = length (filter Q l).
Proof.
  intros HPQ. apply Nat.le_antisymm; apply length_filter_le_impl;
    intros a Ha; by apply HPQ.
Qed.

Lemma length_filter_none {A : Type} (P : A → Prop) `{!∀ a, Decision (P a)}
    (l : list A) :
  (∀ a, a ∈ l → ¬ P a) → length (filter P l) = 0%nat.
Proof.
  induction l as [|a l IH]; intros HP; [done|].
  rewrite filter_cons, decide_False by (apply HP; by left).
  apply IH. intros ??. apply HP. by right.
Qed.

Lemma length_filter_add {A : Type} (P Q : A → Prop)
    `{!∀ a, Decision (P a), !∀ a, Decision (Q a)} (l : list A) (b : A) :
  NoDup l → b ∈ l → ¬ P b → (∀ a, Q a ↔ P a ∨ a = b) →
  length (filter Q l) = S (length (filter P l)).
Proof.
  intros Hnd Hb HPb HQ.
  induction l as [|a l IH]; [by apply elem_of_nil in Hb|].
  apply NoDup_cons in Hnd as [Ha Hnd]. rewrite !filter_cons.
  apply elem_of_cons in Hb as [<-|Hb].
  - rewrite decide_True by (apply HQ; by right).
    rewrite decide_False by done. simpl. f_equal.
    apply length_filter_ext. intros a' Hal. rewrite HQ. split; [|by left].
    intros [?| ->]; done.
  - specialize (IH Hnd Hb).
    destruct (decide (P a)) as [HPa|HPa].
    + rewrite decide_True by (apply HQ; by left). simpl. by rewrite IH.
    + rewrite decide_False; [done|].
      intros [?| ->]%HQ; done.
Qed.

Lemma NoDup_all_points (N : Z) : NoDup (all_points N).
Proof.
  unfold all_points. apply NoDup_bind.
  - intros i1 i2 p _ _ (j1 & Hp1 & _)%list_elem_of_bind (j2 & Hp2 & _)%list_elem_of_bind.
    apply list_elem_of_singleton in Hp1, Hp2. congruence.
  - intros i _. apply NoDup_bind.
    + intros j1 j2 p _ _ Hp1 Hp2.
      apply list_elem_of_singleton in Hp1, Hp2. congruence.
    + intros j _. apply NoDup_singleton.
    + apply NoDup_seqZ.
  - apply NoDup_seqZ.
Qed.

(** A loop rule for runs that end without a fault. *)
Lemma for_each_inv {A S : Type} (I : S → Prop) (l : list A)
    (body : A → S → result S) (s s' : S) :
  I s →
  (∀ a t t', a ∈ l → I t → body a t = Ok t' → I t') →
  for_each l body s = Ok s' → I s'.
Proof.
  revert s. induction l as [|a l IH]; intros s Hs Hbody; simpl.
  - by intros [= <-].
  - destruct (body a s) as [t|] eqn:Ht; [|done]. simpl.
    apply IH.
    + apply (Hbody a s); [by left|done..].
    + intros ?????. eapply Hbody; [by right|done..].
Qed.

(** ** One carving step *)

(** The cell between a carveable open cell and a carveable wall is a wall. *)
Lemma lattice_between (N : Z) (O : Point → Prop) (c : Point) (d : Z * Z) :
  lattice_inv N O → node N c → d ∈ carve_directions →
  ¬ O (move c d) → ¬ O (move c (half d)).
Proof.
  intros Hlat Hc Hd Hv Hmid.
  destruct (Hlat _ Hmid) as [Hn|(a & d' & Hd' & Heq & He)].
  { by destruct (half_not_node N c d Hc Hd). }
  pose proof He as (Ha & _ & HOa & HOb & _).
  destruct (between_unique N c a d d') as [[-> Hb]|[-> Hb]]; try done.
  by rewrite Hb in HOb.
Qed.

Lemma lattice_step (N : Z) (O O' : Point → Prop) (c : Point) (d : Z * Z) :
  lattice_inv N O → node N c → O c → d ∈ carve_directions →
  node N (move c d) →
  (∀ p, O' p ↔ O p ∨ p = move c d ∨ p = move c (half d)) →
  lattice_inv N O'.
Proof.
  intros Hlat Hc HOc Hd Hv HO' p [Hp|[->| ->]]%HO'.
  - destruct (Hlat p Hp) as [?|(a & d' & Hd' & -> & He)]; [by left|].
    right. exists a, d'. split_and!; try done.
    eapply ledge_mono; [|done]. intros q ?. apply HO'. by left.
  - by left.
  - right. exists c, d. split_and!; try done.
    split_and!; try done; [apply HO'; by left|apply HO'; by right; left|].
    exists d. split_and!; try done. apply HO'. by right; right.
Qed.

(** ** carvePath *)

Section Count.

Variable N : Z.
Variable shuffle : Shuffle.
Hypothesis shuffle_perm : ∀ k l, shuffle k l ≡ₚ l.

Lemma carvePath_count (fuel : nat) (c : Point) (g : Grid) (k : nat)
    (st' : Grid * nat) :
  count_inv N g → node N c → open_cell g c →
  carvePath N shuffle fuel c.(x) c.(y) (g, k) = Ok st' →
  count_inv N st'.1 ∧ (∀ p, open_cell g p → open_cell st'.1 p) ∧
  (st'.2 + node_count N g = S k + node_count N st'.1)%nat.
Proof.
  revert c g k st'.
  induction fuel as [|fuel IH]; intros c g k st' Hg Hc Hopen; [done|].
  cbn [carvePath fst snd].
  assert (cell_at g c = Some PATH) as Hpath.
  { destruct Hg as (_ & _ & Hcont & _). unfold open_cell in Hopen.
    destruct (cell_at g c) as [s|] eqn:Hs; [|done].
    by destruct (Hcont c s Hs) as [->| ->]. }
  rewrite (write2_same g c.(x) c.(y) PATH Hpath). cbn [mbind result_bind].
  apply (for_each_inv
           (λ t, count_inv N t.1 ∧ (∀ p, open_cell g p → open_cell t.1 p) ∧
                 (t.2 + node_count N g = S k + node_count N t.1)%nat)).
  { done. }
  intros d t t' Hd (Ht & Hgrow & Hdraws). rewrite shuffle_perm in Hd.
  cbv beta zeta.
  set (v := move c d).
  change (c.(x) + d.1) with v.(x). change (c.(y) + d.2) with v.(y).
  destruct (decide (v.(x) > 0 ∧ v.(x) < N - 1 ∧ v.(y) > 0 ∧ v.(y) < N - 1))
    as [Hguard|Hguard]; [|by intros [= <-]].
  assert (node N v) as Hv.
  { pose proof Hguard as Hgd. unfold v in Hgd. simpl in Hgd.
    apply node_move; [done|done|lia..]. }
  pose proof Ht as (Hsq & Hlat & Hcont & Hcount).
  destruct (square_read2 N t.1 v.(x) v.(y)) as [s Hs]; [done|lia|lia|].
  rewrite Hs. cbn [mbind result_bind].
  apply read2_cell_at in Hs. replace (mkPoint _ _) with v in Hs by by destruct v.
  destruct (decide (Some s = Some WALL)) as [[= ->]|Hs']; [|by intros [= <-]].
  assert (¬ open_cell t.1 v) as Hwall.
  { unfold open_cell. rewrite Hs. by intros ?. }
  destruct (write2_cell N t.1 v PATH) as (maze1 & Hw1 & Hsq1 & Hcell1);
    [done|lia|lia|].
  rewrite Hw1. cbn [mbind result_bind].
  set (mid := move c (half d)).
  change (c.(x) + d.1 / 2) with mid.(x). change (c.(y) + d.2 / 2) with mid.(y).
  pose proof (half_inside N c d Hc Hv Hd) as [Hmx Hmy]. fold mid in Hmx, Hmy.
  destruct (write2_cell N maze1 mid PATH) as (maze2 & Hw2 & Hsq2 & Hcell2);
    [done|lia|lia|].
  rewrite Hw2. cbn [mbind result_bind].
  assert (¬ node N mid) as Hmid by by apply half_not_node.
  assert (¬ open_cell t.1 mid) as Hmidwall.
  { apply (lattice_between N); try done. }
  assert (∀ p, open_cell maze1 p ↔ open_cell t.1 p ∨ p = v) as Hopen1.
  { intros p. unfold open_cell. rewrite Hcell1.
    destruct (decide (p = v)) as [->|?]; [by split; [right|]|].
    split; [by left|]. by intros [?|?]. }
  assert (∀ p, open_cell maze2 p ↔ open_cell maze1 p ∨ p = mid) as Hopen2'.
  { intros p. unfold open_cell. rewrite Hcell2.
    destruct (decide (p = mid)) as [->|?]; [by split; [right|]|].
    split; [by left|]. by intros [?|?]. }
  assert (∀ p, open_cell maze2 p ↔ open_cell t.1 p ∨ p = v ∨ p = mid) as Hopen2.
  { intros p. rewrite Hopen2', Hopen1. tauto. }
  assert (node_count N maze1 = S (node_count N t.1)) as Hn1.
  { apply (length_filter_add _ _ _ v).
    - apply NoDup_all_points.
    - apply elem_of_all_points. lia.
    - by intros [_ ?].
    - intros p. rewrite Hopen1. split.
      + intros [? [?| ->]]; [by left|by right].
      + intros [[? ?]| ->]; [by split; [|left]|by split; [|right]]. }
  assert (node_count N maze2 = node_count N maze1) as Hn2.
  { apply length_filter_ext. intros p _. rewrite Hopen2'. split.
    - intros [? [?| ->]]; done.
    - intros [? ?]. by split; [|left]. }
  assert (count_inv N maze2) as Hinv2.
  { split_and!.
    - done.
    - apply (lattice_step N (open_cell t.1) _ c d); try done. by apply Hgrow.
    - intros p s. rewrite Hcell2, Hcell1.
      repeat case_decide; [by intros [= <-]; right..|apply Hcont].
    - assert (open_count N maze1 = S (open_count N t.1)) as Ho1.
      { apply (length_filter_add _ _ _ v); try done.
        - apply NoDup_all_points.
        - apply elem_of_all_points. lia. }
      assert (open_count N maze2 = S (open_count N maze1)) as Ho2.
      { apply (length_filter_add _ _ _ mid); try done.
        - apply NoDup_all_points.
        - apply elem_of_all_points. lia.
        - intros [?| ->]%Hopen1; done. }
      lia. }
  intros Hrec.
  destruct (IH v maze2 t.2 t' Hinv2 Hv) as (Hinv' & Hgrow' & Hdraws');
    [|done|].
  { apply Hopen2. by right; left. }
  split_and!; [done| |lia].
  intros p Hp. apply Hgrow', Hopen2. left. by apply Hgrow.
Qed.

End Count.

(** ** The shuffles that a run consumes *)

(** A loop whose rounds consume shuffles in turn can be replayed with any
    oracle that agrees on the shuffles consumed. *)
Lemma for_each_agree {A G : Type} (agree : nat → Prop) (l : list A)
    (body1 body2 : A → G * nat → result (G * nat)) (s s' : G * nat) :
  (∀ a t t', a ∈ l → body1 a t = Ok t' →
     (t.2 ≤ t'.2)%nat ∧
     ((∀ i, (t.2 ≤ i < t'.2)%nat → agree i) → body2 a t = Ok t')) →
  for_each l body1 s = Ok s' →
  (s.2 ≤ s'.2)%nat ∧
  ((∀ i, (s.2 ≤ i < s'.2)%nat → agree i) → for_each l body2 s = Ok s').
Proof.
  revert s. induction l as [|a l IH]; intros s Hbody; simpl.
  - intros [= <-]. by split.
  - destruct (body1 a s) as [t|] eqn:Ht; [|done]. simpl. intros Hrest.
    destruct (Hbody a s t) as [Hle Hreplay]; [by left|done|].
    destruct (IH t) as [Hle' Hreplay']; [|done|].
    { intros ?????. eapply Hbody; [by right|done]. }
    split; [lia|]. intros Hagree.
    rewrite Hreplay by (intros i ?; apply Hagree; lia). simpl.
    apply Hreplay'. intros i ?. apply Hagree. lia.
Qed.

(** A call of [carvePath] shuffles the array of the four directions at
    least once, and goes the same way under any oracle that agrees on the
    shuffles it made. *)
Lemma carvePath_agree (N : Z) (shuffle1 shuffle2 : Shuffle) (fuel : nat)
    (cx cy : Z) (st st' : Grid * nat) :
  carvePath N shuffle1 fuel cx cy st = Ok st' →
  (st.2 < st'.2)%nat ∧
  ((∀ i, (st.2 ≤ i < st'.2)%nat →
         shuffle1 i (carve_directions) = shuffle2 i (carve_directions)) →
   carvePath N shuffle2 fuel cx cy st = Ok st').
Proof.
  revert cx cy st st'.
  induction fuel as [|fuel IH]; intros cx cy st st'; [done|].
  cbn [carvePath]. destruct (write2 st.1 cx cy PATH) as [maze|]; [|done].
  cbn [mbind result_bind]. intros Hrun.
  apply (for_each_agree
           (λ i, shuffle1 i carve_directions = shuffle2 i carve_directions)
           _ _
           (fun d st' =>
              let newX := cx + d.1 in
              let newY := cy + d.2 in
              if decide (newX > 0 ∧ newX < N - 1 ∧ newY > 0 ∧ newY < N - 1) then
                c ← read2 st'.1 newX newY;
                if decide (c = Some WALL) then
                  maze1 ← write2 st'.1 newX newY PATH;
                  maze2 ← write2 maze1 (cx + d.1 / 2) (cy + d.2 / 2) PATH;
                  carvePath N shuffle2 fuel newX newY (maze2, st'.2)
                else Ok st'
              else Ok st')) in Hrun as [Hle Hreplay].
  - simpl in Hle. split; [lia|]. intros Hagree.
    rewrite <-(Hagree st.2) by lia. apply Hreplay.
    intros i ?. apply Hagree. simpl in *. lia.
  - intros d t t' _. cbv beta zeta. case_decide; [|by intros [= <-]].
    destruct (read2 t.1 (cx + d.1) (cy + d.2)) as [c|]; [|done].
    cbn [mbind result_bind]. case_decide; [|by intros [= <-]].
    destruct (write2 t.1 _ _ PATH) as [maze1|]; [|done]. cbn [mbind result_bind].
    destruct (write2 maze1 _ _ PATH) as [maze2|]; [|done]. cbn [mbind result_bind].
    intros Hrec. apply IH in Hrec as [Hlt Hreplay]. simpl in *.
    split; [lia|done].
Qed.

(** ** The number of carveable cells *)

Lemma odd_count (k : Z) :
  0 ≤ k →
  length (filter (λ z, Z.odd z = true) (seqZ 0 (2 * k + 1))) = Z.to_nat k.
Proof.
  revert k. apply natlike_ind; [done|].
  intros k Hk IH.
  replace (2 * Z.succ k + 1) with ((2 * k + 1) + 2) by lia.
  rewrite seqZ_app by lia. rewrite filter_app, length_app, IH.
  change (seqZ (0 + (2 * k + 1)) 2)
    with [0 + (0 + (2 * k + 1)); 1 + (0 + (2 * k + 1))].
  rewrite filter_cons, decide_True; cycle 1.
  { replace (0 + (0 + (2 * k + 1))) with (1 + 2 * k) by lia.
    apply Z.odd_add_mul_2. }
  rewrite filter_cons, decide_False; cycle 1.
  { replace (1 + (0 + (2 * k + 1))) with (0 + 2 * (k + 1)) by lia.
    rewrite Z.odd_add_mul_2. done. }
  simpl. lia.
Qed.

Lemma length_filter_bind {A B : Type} (P : B → Prop) (Q : A → Prop)
    `{!∀ b, Decision (P b), !∀ a, Decision (Q a)}
    (f : A → list B) (l : list A) (c : nat) :
  (∀ a, a ∈ l → length (filter P (f a)) = if decide (Q a) then c else 0%nat) →
  length (filter P (l ≫= f)) = (length (filter Q l) * c)%nat.
Proof.
  induction l as [|a l IH]; intros Hf; [done|].
  rewrite bind_cons, filter_app, length_app, filter_cons.
  rewrite IH by (intros ??; apply Hf; by right).
  rewrite (Hf a) by by left.
  destruct (decide (Q a)); simpl; lia.
Qed.

Lemma node_total (N : Z) :
  Z.odd N = true → 3 ≤ N →
  Z.of_nat (length (filter (node N) (all_points N))) = (N - 1) / 2 * ((N - 1) / 2).
Proof.
  intros [k ->]%odd_witness HN.
  replace ((2 * k + 1 - 1) / 2) with k by (rewrite Z.add_simpl_r, Z.mul_comm, Z.div_mul; lia).
  set (A := λ z : Z, Z.odd z = true ∧ 0 < z < 2 * k + 1 - 1).
  assert (length (filter A (seqZ 0 (2 * k + 1))) = Z.to_nat k) as HA.
  { rewrite <-odd_count by lia. apply length_filter_ext.
    intros z Hz%elem_of_seqZ. unfold A. split; [by intros [? _]|].
    intros Hodd. split; [done|].
    apply odd_witness in Hodd as [i ->]. lia. }
  unfold all_points.
  rewrite (length_filter_bind _ A _ _ (Z.to_nat k)).
  - rewrite HA. lia.
  - intros i _.
    rewrite (length_filter_bind _ (λ j, A i ∧ A j) _ _ 1%nat).
    + destruct (decide (A i)) as [Hi|Hi].
      * rewrite Nat.mul_1_r, <-HA. apply length_filter_ext. intros j _. tauto.
      * rewrite Nat.mul_1_r. apply length_filter_none. by intros j _ [? _].
    + intros j _. rewrite filter_cons, filter_nil.
      destruct (decide (A i ∧ A j)) as [[Hi Hj]|Hno].
      * rewrite decide_True; [done|]. unfold node, A in *. simpl. tauto.
      * rewrite decide_False; [done|]. unfold node, A in *. simpl. tauto.
Qed.

(** ** generateMaze *)

Lemma length_filter_one {A : Type} (P : A → Prop) `{!∀ a, Decision (P a)}
    (l : list A) (b : A) :
  NoDup l → b ∈ l → (∀ a, P a ↔ a = b) → length (filter P l) = 1%nat.
Proof.
  intros Hnd Hb HP.
  rewrite (length_filter_add (λ _, False) P l b); try done.
  - f_equal. apply length_filter_none. by intros ? _ ?.
  - by intros [].
  - intros a. rewrite HP. tauto.
Qed.

(** The run of [carvePath] that [generateMaze] starts: it ends without a
    fault on a grid with walls and passages only, every carveable cell open
    and one connecting passage for each carveable cell but the first, after
    one shuffle for each carveable cell. *)
Lemma carve_run (N : Z) (shuffle : Shuffle) :
  (∀ k l, shuffle k l ≡ₚ l) → 3 ≤ N →
  ∃ st, carvePath N shuffle (carve_fuel N) 1 1 (all_walls N, 0%nat) = Ok st ∧
        count_inv N st.1 ∧
        (∀ p, node N p → open_cell st.1 p) ∧
        st.2 = length (filter (node N) (all_points N)).
Proof.
  intros Hperm HN.
  set (c := mkPoint 1 1).
  pose proof (node_start N HN) as Hc. fold c in Hc.
  pose proof (square_replicate N WALL) as Hsq. fold (all_walls N) in Hsq.
  destruct (write2_cell N (all_walls N) c PATH) as (g0 & Hw0 & Hsq0 & Hcell0);
    [done|simpl; lia..|].
  assert (∀ p, open_cell g0 p ↔ p = c) as Hopen0.
  { intros p. unfold open_cell. rewrite Hcell0.
    destruct (decide (p = c)) as [->|?]; [done|].
    destruct (cell_at (all_walls N) p) as [s|] eqn:Hs; [|naive_solver].
    apply at2_replicate in Hs as ->. naive_solver. }
  destruct (carvePath_spec N shuffle Hperm (carve_fuel N) c (all_walls N) O g0)
    as (st & Hrun & Hsq1 & Hinv1 & Hgrow1 & _ & Hnew1); try done.
  { by apply Hopen0. }
  { split.
    - intros p ->%Hopen0. by left.
    - apply (tree_single _ _ c). by intros a [_ ?%Hopen0]. }
  { unfold carve_fuel. pose proof (wall_count_bound N g0). lia. }
  exists st. split; [done|].
  assert (∀ p, node N p → open_cell st.1 p) as Hall.
  { apply lattice_connected; [by apply Hgrow1, Hopen0|].
    intros v Hv Hopen. apply Hnew1; try done.
    destruct (decide (v = c)) as [->|?]; [by left|right]. by intros ?%Hopen0. }
  assert (node_count N g0 = 1%nat) as Hnodes0.
  { apply (length_filter_one _ _ c).
    - apply NoDup_all_points.
    - apply elem_of_all_points. simpl. lia.
    - intros p. rewrite Hopen0. split; [by intros [_ ?]|by intros ->]. }
  assert (count_inv N g0) as Hcount0.
  { split_and!.
    - done.
    - intros p ->%Hopen0. by left.
    - intros p s. rewrite Hcell0. case_decide; [by intros [= <-]; right|].
      intros ->%at2_replicate. by left.
    - rewrite Hnodes0. unfold open_count.
      rewrite (length_filter_one _ _ c); try done.
      + apply NoDup_all_points.
      + apply elem_of_all_points. simpl. lia. }
  assert (carvePath N shuffle (carve_fuel N) c.(x) c.(y) (g0, 0%nat) = Ok st)
    as Hrun0.
  { rewrite <-Hrun. unfold carve_fuel. cbn [carvePath fst snd].
    rewrite Hw0. rewrite (write2_same g0); [done|].
    fold (cell_at g0 c). rewrite Hcell0. by rewrite decide_True. }
  destruct (carvePath_count N shuffle Hperm (carve_fuel N) c g0 0%nat st Hcount0 Hc)
    as (Hcount & _ & Hdraws); [by apply Hopen0|done|].
  split_and!; [done|done|].
  assert (node_count N st.1 = length (filter (node N) (all_points N))) as <-.
  { apply length_filter_ext. intros p _. split; [by intros [? _]|].
    intros ?. split; [done|by apply Hall]. }
  lia.
Qed.

(** The grid returned differs from the grid [g'] left by [carvePath] at the
    start and exit cells only. *)
Lemma generateMaze_cells (N : Z) (shuffle : Shuffle) :
  (∀ k l, shuffle k l ≡ₚ l) → 3 ≤ N →
  ∃ g g', generateMaze N shuffle = Ok g ∧ count_inv N g' ∧
       (∀ p, node N p → open_cell g' p) ∧
       (∀ p, cell_at g p =
             if decide (p = mkPoint (N - 2) (N - 2)) then Some EXIT
             else if decide (p = mkPoint 1 1) then Some PLAYER
             else cell_at g' p).
Proof.
  intros Hperm HN.
  destruct (carve_run N shuffle Hperm HN) as (st & Hrun & Hcount & Hall & _).
  pose proof Hcount as (Hsq1 & _).
  unfold generateMaze. rewrite Hrun. cbn [mbind result_bind].
  set (c := mkPoint 1 1).
  destruct (write2_cell N st.1 c PLAYER) as (m1 & Hw1 & Hsqm1 & Hcellm1);
    [done|simpl; lia..|].
  change (write2 st.1 1 1 PLAYER) with (write2 st.1 c.(x) c.(y) PLAYER).
  rewrite Hw1. cbn [mbind result_bind].
  set (e := mkPoint (N - 2) (N - 2)).
  destruct (write2_cell N m1 e EXIT) as (gf & Hwf & Hsqf & Hcellf);
    [done|simpl; lia..|].
  change (write2 m1 (N - 2) (N - 2) EXIT) with (write2 m1 e.(x) e.(y) EXIT).
  exists gf, st.1. split_and!; try done.
  intros p. by rewrite Hcellf, Hcellm1.
Qed.

(** The grid is decided by the shuffles made: one for each carveable cell. *)
Lemma generateMaze_agree (N : Z) (shuffle1 shuffle2 : Shuffle) :
  (∀ k l, shuffle1 k l ≡ₚ l) → Z.odd N = true → 3 ≤ N →
  (∀ i, (i < Z.to_nat ((N - 1) / 2 * ((N - 1) / 2)))%nat →
        shuffle1 i carve_directions = shuffle2 i carve_directions) →
  generateMaze N shuffle1 = generateMaze N shuffle2.
Proof.
  intros Hperm Hodd HN Hagree.
  destruct (carve_run N shuffle1 Hperm HN) as (st & Hrun & _ & _ & Hdraws).
  pose proof (node_total N Hodd HN) as Htotal.
  destruct (carvePath_agree N shuffle1 shuffle2 _ _ _ _ _ Hrun) as [_ Hreplay].
  unfold generateMaze. rewrite Hrun, Hreplay; [done|].
  intros i [_ Hi]. apply Hagree. lia.
Qed.

(** * The episode *)

(** ** Heatmap sums *)

Lemma sum_with_insert {A : Type} (f : A → Z) (l : list A) (i : nat) (a b : A) :
  l !! i = Some a → sum_with f (<[i:=b]> l) = sum_with f l - f a + f b.
Proof.
  revert i. induction l as [|c l IH]; intros [|i] Hi; simplify_eq/=.
  - lia.
  - rewrite (IH i Hi). lia.
Qed.

Lemma sum_with_zero {A : Type} (f : A → Z) (n : nat) (a : A) :
  f a = 0 → sum_with f (replicate n a) = 0.
Proof. intros Ha. induction n as [|n IH]; simpl; [done|]. rewrite Ha, IH. done. Qed.

Lemma incr2_spec (N : Z) (h : list (list Z)) (p : Point) :
  square N h → 0 ≤ p.(x) < N → 0 ≤ p.(y) < N →
  ∃ h', incr2 h p.(x) p.(y) = Ok h' ∧ square N h' ∧
        sum_matrix h' = sum_matrix h + 1 ∧ incremented_at p h h'.
Proof.
  intros Hsq Hx Hy.
  destruct (square_row N h p.(y) Hsq Hy) as (row & Hrow & Hlen).
  destruct (js_get_lt row p.(x)) as [n Hn]; [lia|].
  destruct (write2_square N h p.(x) p.(y) (n + 1)) as (h' & Hw & Hsq' & Hat);
    try done.
  exists h'. unfold incr2, read2. rewrite Hrow, Hn. simpl.
  split_and!; try done.
  - unfold write2 in Hw. rewrite Hrow in Hw.
    rewrite decide_True in Hw by lia. injection Hw as <-.
    apply js_get_Some in Hrow as [_ Hrow]. apply js_get_Some in Hn as [_ Hn].
    unfold sum_matrix. rewrite (sum_with_insert _ _ _ row) by done.
    rewrite (sum_with_insert _ _ _ n) by done. unfold id. lia.
  - exists n. split; [|done]. unfold at2. by rewrite Hrow.
Qed.

(** ** One event *)

Lemma bump_get (k k' : Key) (m : MovePatterns.t) :
  MovePatterns.get k' (MovePatterns.bump k m) =
  if decide (k' = k) then MovePatterns.get k' m + 1 else MovePatterns.get k' m.
Proof. by destruct k, k', m. Qed.

Lemma cell_at_read2 (g : Grid) (p : Point) (c : string) :
  cell_at g p = Some c → read2 g p.(x) p.(y) = Ok (Some c).
Proof.
  unfold cell_at, at2, read2. destruct (js_get g p.(y)); simpl; [|done].
  by intros ->.
Qed.

(** A press that runs into a wall. *)
Lemma handleMove_collision (N : Z) (k : Key) (now : Z) (s : State) :
  s.(gameState) = playing →
  cell_at s.(maze) (destination s k) = Some WALL →
  handleMove N (key_direction k) k now s =
  Ok ({| maze := s.(maze);
         playerPos := s.(playerPos);
         gameState := s.(gameState);
         timeLeft := s.(timeLeft);
         startTime := s.(startTime);
         moveCount := s.(moveCount);
         wallCollisions := s.(wallCollisions) + 1;
         backtrackCount := s.(backtrackCount);
         movementHistory := s.(movementHistory);
         visitedCells := s.(visitedCells);
         movePatterns := MovePatterns.bump k s.(movePatterns);
         firstHalfMetrics := s.(firstHalfMetrics);
         heatmap := s.(heatmap);
         optimalPath := s.(optimalPath);
         actualPath := s.(actualPath);
         pathDeviation := s.(pathDeviation) |}, None).
Proof.
  intros Hplay Hwall. unfold handleMove.
  rewrite decide_False by (by rewrite Hplay; intros ?).
  cbv zeta. fold (destination s k).
  rewrite (cell_at_read2 _ _ _ Hwall). cbn [mbind result_bind].
  by rewrite decide_True.
Qed.

(** Whatever the outcome, an attempt counts the pressed direction once and
    leaves the other three counters alone. *)
Lemma handleMove_patterns (N : Z) (k : Key) (now : Z) (s s' : State)
    (m : option Metrics.t) :
  s.(gameState) = playing →
  handleMove N (key_direction k) k now s = Ok (s', m) →
  s'.(movePatterns) = MovePatterns.bump k s.(movePatterns).
Proof.
  intros Hplay. unfold handleMove.
  rewrite decide_False by (by rewrite Hplay; intros ?).
  destruct (read2 _ _ _) as [c|]; [|done]. cbn [mbind result_bind].
  case_decide; [by intros [= <- _]|].
  destruct (incr2 _ _ _) as [h|]; [|done]. cbn [mbind result_bind].
  by intros [= <- _].
Qed.

Lemma destination_bounds (N : Z) (s : State) (k : Key) (n : nat) :
  episode_inv N s n →
  0 ≤ (destination s k).(x) < N ∧ 0 ≤ (destination s k).(y) < N.
Proof.
  intros (_ & Hin & _ & Hpos & _). apply Hin in Hpos.
  unfold destination. destruct k; simpl; lia.
Qed.

(** A press that enters a cell. *)
Lemma handleMove_accepted (N : Z) (k : Key) (now : Z) (s : State) (n : nat) :
  episode_inv N s n →
  s.(gameState) = playing →
  cell_at s.(maze) (destination s k) ≠ Some WALL →
  ∃ s' m, handleMove N (key_direction k) k now s = Ok (s', m) ∧
          s'.(playerPos) = destination s k ∧
          s'.(maze) = s.(maze) ∧
          s'.(wallCollisions) = s.(wallCollisions) ∧
          s'.(actualPath) = s.(actualPath) ++ [destination s k] ∧
          incremented_at (destination s k) s.(heatmap) s'.(heatmap) ∧
          episode_inv N s' (S n).
Proof.
  intros Hinv Hplay Hfree.
  pose proof (destination_bounds N s k n Hinv) as [Hx Hy].
  destruct Hinv as (Hsq & Hin & Hsqh & Hpos & Hsum & Hcount & Hpath & Hhist).
  unfold handleMove. rewrite decide_False by (by rewrite Hplay; intros ?).
  cbv zeta. fold (destination s k). set (p := destination s k) in *.
  destruct (at2_in_bounds N s.(maze) p.(x) p.(y)) as [c Hc]; try done.
  fold (cell_at s.(maze) p) in Hc.
  rewrite (cell_at_read2 _ _ _ Hc). cbn [mbind result_bind].
  rewrite decide_False by congruence.
  destruct (incr2_spec N s.(heatmap) p) as (h' & Hincr & Hsqh' & Hsum' & Hat);
    try done.
  rewrite Hincr. cbn [mbind result_bind].
  eexists _, _. split; [done|].
  unfold episode_inv.
  cbn [maze playerPos gameState moveCount wallCollisions heatmap actualPath
       movementHistory].
  split_and!; try done.
  - unfold open_cell. rewrite Hc. congruence.
  - lia.
  - lia.
  - rewrite length_app. simpl. lia.
  - rewrite length_app. simpl. lia.
Qed.

Lemma tick_inv (N : Z) (s : State) (n : nat) :
  episode_inv N s n → episode_inv N (tick s) n.
Proof. unfold tick. by case_decide. Qed.

Lemma step_inv (N : Z) (e : event) (s : State) (n : nat) :
  episode_inv N s n →
  ∃ s', step N e s = Ok s' ∧
        episode_inv N s' (n + if decide (accepted s e) then 1 else 0) ∧
        s'.(maze) = s.(maze).
Proof.
  intros Hinv. destruct e as [k now|]; simpl.
  - destruct (decide (s.(gameState) = playing)) as [Hplay|Hplay]; cycle 1.
    { exists s. unfold handleMove. rewrite decide_True by done. simpl.
      rewrite decide_False by (by intros [? _]).
      by rewrite Nat.add_0_r. }
    destruct (decide (cell_at s.(maze) (destination s k) = Some WALL)) as [Hw|Hw].
    + rewrite (handleMove_collision N k now s Hplay Hw). simpl.
      eexists. split; [done|]. rewrite decide_False by (by intros [_ ?]).
      by rewrite Nat.add_0_r.
    + destruct (handleMove_accepted N k now s n Hinv Hplay Hw)
        as (s' & m & Hrun & _ & Hmaze & _ & _ & _ & Hinv').
      rewrite Hrun. simpl. exists s'. rewrite decide_True by done.
      by rewrite Nat.add_1_r.
  - exists (tick s). rewrite Nat.add_0_r. split_and!; [done|by apply tick_inv|].
    unfold tick. by case_decide.
Qed.

Lemma run_inv (N : Z) (es : list event) (s : State) (n : nat) :
  episode_inv N s n →
  ∃ s', run N es s = Ok s' ∧
        episode_inv N s' (n + count_accepted N es s) ∧
        s'.(maze) = s.(maze).
Proof.
  revert s n. induction es as [|e es IH]; intros s n Hinv.
  - exists s. simpl. by rewrite Nat.add_0_r.
  - destruct (step_inv N e s n Hinv) as (s1 & Hstep & Hinv1 & Hmaze1).
    destruct (IH s1 _ Hinv1) as (s' & Hrun & Hinv' & Hmaze').
    exists s'. unfold run in *. simpl. rewrite Hstep. simpl.
    split_and!; [done| |congruence].
    by rewrite Nat.add_assoc.
Qed.

(** ** Starting an episode *)

Lemma startGame_spec (N : Z) (shuffle : Shuffle) (now : Z) :
  (∀ k l, shuffle k l ≡ₚ l) → Z.odd N = true → 3 ≤ N →
  ∃ g q, generateMaze N shuffle = Ok g ∧
         findOptimalPath N g (mkPoint 1 1) (mkPoint (N - 2) (N - 2)) = Ok q ∧
         startGame N shuffle now =
         Ok {| maze := g;
               optimalPath := q;
               playerPos := mkPoint 1 1;
               actualPath := [mkPoint 1 1];
               pathDeviation := 0;
               gameState := playing;
               timeLeft := 60;
               startTime := now;
               moveCount := 0;
               wallCollisions := 0;
               backtrackCount := 0;
               movementHistory := [];
               visitedCells := {["1,1"]};
               movePatterns := MovePatterns.mk 0 0 0 0;
               firstHalfMetrics := mkHalf 0 0 0;
               heatmap := replicate (Z.to_nat N) (replicate (Z.to_nat N) 0) |} ∧
         square N g ∧ carve_inv N (open_cell g) ∧
         (∀ p, node N p → open_cell g p) ∧
         route g (mkPoint 1 1) (mkPoint (N - 2) (N - 2)) q.
Proof.
  intros Hperm Hodd HN.
  destruct (generateMaze_spec N shuffle Hperm Hodd HN)
    as (g & Hgen & Hsq & Hinv & Hall & _).
  pose proof (Hall _ (node_start N HN)) as Hstart.
  pose proof (Hall _ (node_exit N Hodd HN)) as Hexit.
  destruct (findOptimalPath_correct N g (mkPoint 1 1) (mkPoint (N - 2) (N - 2)))
    as (q & Hfind & Hq); [done..|].
  exists g, q. unfold startGame. rewrite Hgen. cbn [mbind result_bind].
  rewrite Hfind. cbn [mbind result_bind]. split_and!; try done.
  destruct Hq as [[_ Hnone]|[? _]]; [|done].
  destruct (carve_inv_reach N g (mkPoint (N - 2) (N - 2))) as [r Hr]; try done.
  - by apply node_start.
  - by destruct (Hnone r).
Qed.

Lemma startGame_inv (N : Z) (shuffle : Shuffle) (now : Z) :
  (∀ k l, shuffle k l ≡ₚ l) → Z.odd N = true → 3 ≤ N →
  ∃ s0, startGame N shuffle now = Ok s0 ∧ episode_inv N s0 0 ∧
        carve_inv N (open_cell s0.(maze)) ∧ s0.(gameState) = playing ∧
        s0.(playerPos) = mkPoint 1 1.
Proof.
  intros Hperm Hodd HN.
  destruct (startGame_spec N shuffle now Hperm Hodd HN)
    as (g & q & _ & _ & Hstart & Hsq & Hinv & Hall & _).
  eexists. split; [done|].
  cbn [maze playerPos gameState]. split; [|done].
  unfold episode_inv.
  cbn [maze playerPos gameState moveCount wallCollisions heatmap actualPath
       movementHistory].
  split_and!.
  - done.
  - intros p. by apply carve_inv_inside.
  - apply square_replicate.
  - by apply Hall, node_start.
  - unfold sum_matrix. apply sum_with_zero. by apply sum_with_zero.
  - done.
  - done.
  - done.
Qed.

(** What one event does to the heatmap. *)
Lemma step_heatmap (N : Z) (e : event) (s s' : State) (n : nat) :
  episode_inv N s n → step N e s = Ok s' →
  (accepted s e → ∃ p, incremented_at p s.(heatmap) s'.(heatmap)) ∧
  (¬ accepted s e → s'.(heatmap) = s.(heatmap)).
Proof.
  intros Hinv. destruct e as [k now|]; simpl.
  - destruct (decide (s.(gameState) = playing)) as [Hplay|Hplay]; cycle 1.
    { unfold handleMove. rewrite decide_True by done. simpl.
      intros [= <-]. split; [by intros [? _]|done]. }
    destruct (decide (cell_at s.(maze) (destination s k) = Some WALL)) as [Hw|Hw].
    + rewrite (handleMove_collision N k now s Hplay Hw). simpl.
      intros [= <-]. split; [by intros [_ ?]|done].
    + destruct (handleMove_accepted N k now s n Hinv Hplay Hw)
        as (s1 & m & Hrun & _ & _ & _ & _ & Hincr & _).
      rewrite Hrun. simpl. intros [= <-]. split; [|by intros []].
      intros _. by exists (destination s k).
  - intros [= <-]. split; [done|]. intros _. unfold tick. by case_decide.
Qed.

(** The border of a carved grid is made of walls. *)
Lemma border_walls (N : Z) (g : Grid) (p : Point) :
  square N g →
  (∀ q, open_cell g q → 0 < q.(x) < N - 1 ∧ 0 < q.(y) < N - 1) →
  0 ≤ p.(x) < N → 0 ≤ p.(y) < N →
  p.(x) = 0 ∨ p.(x) = N - 1 ∨ p.(y) = 0 ∨ p.(y) = N - 1 →
  cell_at g p = Some WALL.
Proof.
  intros Hsq Hin Hx Hy Hborder. apply (open_cell_wall N); try done.
  intros Hopen%Hin. lia.
Qed.

(** ** The divisions of the record built in handleMove *)

Lemma step_half_inv (N : Z) (e : event) (s s' : State) (n : nat) :
  episode_inv N s n → half_inv s → step N e s = Ok s' → half_inv s'.
Proof.
  intros Hinv [Horigin Hhalf]. destruct e as [k now|]; simpl.
  - destruct (decide (s.(gameState) = playing)) as [Hplay|Hplay]; cycle 1.
    { unfold handleMove. rewrite decide_True by done. simpl. by intros [= <-]. }
    destruct (decide (cell_at s.(maze) (destination s k) = Some WALL)) as [Hw|Hw].
    + rewrite (handleMove_collision N k now s Hplay Hw). simpl. by intros [= <-].
    + pose proof Hinv as (_ & _ & _ & _ & _ & Hcount & _).
      unfold handleMove. rewrite decide_False by (by rewrite Hplay; intros ?).
      cbv zeta. fold (destination s k).
      destruct (read2 _ _ _) as [c|]; [|done]. cbn [mbind result_bind].
      case_decide; [by intros [= <-]|].
      destruct (incr2 _ _ _) as [h|]; [|done]. cbn [mbind result_bind].
      intros [= <-]. split; cbn [moveCount playerPos firstHalfMetrics].
      * lia.
      * case_decide; cbn [moves]; [right; lia|].
        destruct Hhalf; [by left|right; lia].
  - intros [= <-]. unfold tick. by case_decide.
Qed.

Lemma run_half_inv (N : Z) (es : list event) (s s' : State) (n : nat) :
  episode_inv N s n → half_inv s → run N es s = Ok s' → half_inv s'.
Proof.
  revert s n. induction es as [|e es IH]; intros s n Hinv Hhalf.
  - by intros [= <-].
  - unfold run. simpl.
    destruct (step_inv N e s n Hinv) as (s1 & Hstep & Hinv1 & _).
    rewrite Hstep. simpl. apply (IH s1 _ Hinv1).
    by apply (step_half_inv N e s s1 n).
Qed.

Lemma js_div_finite (a b : Z) : b ≠ 0 → finite (js_div a b).
Proof. intros Hb. unfold js_div. by rewrite decide_False. Qed.

(** In a running episode the record that [handleMove] builds on reaching the
    exit never divides by zero, although its second half is not guarded. *)
Lemma completion_metrics_finite (N : Z) (k : Key) (now : Z) (s s' : State)
    (n : nat) (m : Metrics.t) :
  episode_inv N s n → half_inv s →
  handleMove N (key_direction k) k now s = Ok (s', Some m) →
  finite (Metrics.pathEfficiency m) ∧
  finite (Metrics.averageTimePerMove m) ∧
  finite (Metrics.secondHalf m).(speed) ∧
  ∃ q, (Metrics.secondHalf m).(accuracy) = js_one_minus (Fin q).
Proof.
  intros Hinv [Horigin Hhalf] Hrun.
  pose proof Hinv as (_ & _ & _ & _ & _ & Hcount & _).
  unfold handleMove in Hrun.
  destruct (decide (s.(gameState) ≠ playing)); [done|].
  cbv zeta in Hrun. fold (destination s k) in Hrun.
  destruct (read2 _ _ _) as [c|]; [|done]. cbn [mbind result_bind] in Hrun.
  case_decide; [done|].
  destruct (incr2 _ _ _) as [h|]; [|done]. cbn [mbind result_bind] in Hrun.
  case_bool_decide as Hexit; [|done]. injection Hrun as _ <-.
  assert (s.(moveCount) - s.(firstHalfMetrics).(moves) ≠ 0) as Hden.
  { destruct Hhalf as [Hzero|?]; [|lia]. rewrite Hzero.
    intros Hnone. assert (s.(moveCount) = 0) as Hstart by lia.
    apply Horigin in Hstart. unfold destination in Hexit. rewrite Hstart in Hexit.
    destruct k; simpl in Hexit; lia. }
  cbn [completionMetrics Metrics.pathEfficiency Metrics.averageTimePerMove
       Metrics.secondHalf speed accuracy].
  split_and!.
  - apply js_div_finite. lia.
  - apply js_div_finite. lia.
  - by apply js_div_finite.
  - unfold js_div. rewrite decide_False by done. by eexists.
Qed.

(** * The claims *)

(** ** C1 *)

(** On the 5x5 grid [ring5] the search returns the corridor that runs from
    (1,1) through (1,3) to (3,3); its 5 cells are the least that a path
    between these two cells can have, by [chain_manhattan]. *)
Example findOptimalPath_corridor :
  findOptimalPath 5 ring5 (mkPoint 1 1) (mkPoint 3 3) =
  Ok [mkPoint 1 1; mkPoint 1 2; mkPoint 1 3; mkPoint 2 3; mkPoint 3 3].
Proof. by vm_compute. Qed.

(** So does the search with the constant of the source, [21], for which
    [ring5] is a corner of the area within bounds: its walls keep the search
    inside. *)
Example findOptimalPath_corridor_21 :
  findOptimalPath MAZE_SIZE ring5 (mkPoint 1 1) (mkPoint 3 3) =
  Ok [mkPoint 1 1; mkPoint 1 2; mkPoint 1 3; mkPoint 2 3; mkPoint 3 3].
Proof. by vm_compute. Qed.

(** A target that is walled in gives the empty list. *)
Example findOptimalPath_unreachable :
  findOptimalPath 6 (grid_of [ "######";
                               "#P# ##";
                               "# # ##";
                               "#   ##";
                               "####E#";
                               "######" ]) (mkPoint 1 1) (mkPoint 4 4) = Ok [].
Proof. by vm_compute. Qed.

(** C1.  On every grid of side [N] (the constant [MAZE_SIZE] of the source)
    and for every pair of Open cells [start] and [end_], [findOptimalPath]
    ends without a fault with a list [q]; when some path of Open cells leads
    from [start] to [end_], [q] is such a path and no path from [start] to
    [end_] has fewer cells than [q]; when there is none, [q] is the empty
    list. *)
Theorem findOptimalPath_shortest (N : Z) (maze : Grid) (start end_ : Point) :
  square N maze → open_cell maze start → open_cell maze end_ →
  ∃ q, findOptimalPath N maze start end_ = Ok q ∧
       ((∃ l, route maze start end_ l) →
          route maze start end_ q ∧
          ∀ l, route maze start end_ l → (length q ≤ length l)%nat) ∧
       ((¬ ∃ l, route maze start end_ l) → q = []).
Proof.
  intros Hsq Hstart _.
  destruct (findOptimalPath_correct N maze start end_ Hsq Hstart) as (q & Hrun & Hq).
  exists q. split; [done|]. split.
  - intros [l Hl]. destruct Hq as [[_ Hnone]|Hq]; [|done]. by destruct (Hnone l).
  - intros Hnone. destruct Hq as [[-> _]|[Hq _]]; [done|].
    destruct Hnone. by exists q.
Qed.

Lemma findOptimalPath_shortest_witness :
  ∃ q, findOptimalPath 5 ring5 (mkPoint 1 1) (mkPoint 3 3) = Ok q ∧
       ((∃ l, route ring5 (mkPoint 1 1) (mkPoint 3 3) l) →
          route ring5 (mkPoint 1 1) (mkPoint 3 3) q ∧
          ∀ l, route ring5 (mkPoint 1 1) (mkPoint 3 3) l → (length q ≤ length l)%nat) ∧
       ((¬ ∃ l, route ring5 (mkPoint 1 1) (mkPoint 3 3) l) → q = []).
Proof.
  apply (findOptimalPath_shortest 5 ring5 (mkPoint 1 1) (mkPoint 3 3));
    compute_done.
Defined.

(** ** C2 *)

(** C2.  Whatever the outcomes of the shuffles, for an odd side [N] of at
    least 3 [generateMaze] ends without a fault with a grid of side [N] in
    which every Open cell is reached from the start cell (1,1) by a path of
    Open cells, which is the path that [findOptimalPath] returns for it;
    every cell at odd coordinates inside the border is Open, and any two such
    cells are joined by exactly one simple path of the lattice: the carved
    lattice is a spanning tree. *)
Theorem generateMaze_perfect (N : Z) (shuffle : Shuffle) :
  (∀ k l, shuffle k l ≡ₚ l) → Z.odd N = true → 3 ≤ N →
  ∃ g, generateMaze N shuffle = Ok g ∧ square N g ∧
       (∀ p, open_cell g p →
          ∃ q, findOptimalPath N g (mkPoint 1 1) p = Ok q ∧
               route g (mkPoint 1 1) p q) ∧
       (∀ a, node N a → open_cell g a) ∧
       tree (node N) (ledge N (open_cell g)).
Proof.
  intros Hperm Hodd HN.
  destruct (generateMaze_spec N shuffle Hperm Hodd HN)
    as (g & Hgen & Hsq & Hinv & Hall & _).
  pose proof (Hall _ (node_start N HN)) as Hstart.
  exists g. split_and!; try done.
  - intros p Hp.
    destruct (carve_inv_reach N g p Hinv Hstart (node_start N HN) Hp) as [r Hr].
    destruct (findOptimalPath_correct N g (mkPoint 1 1) p Hsq Hstart)
      as (q & Hrun & [[_ Hnone]|[Hq _]]).
    + by destruct (Hnone r).
    + by exists q.
  - destruct Hinv as [_ Htree]. eapply tree_iff; [| |done].
    + intros a. simpl. split; [by intros [? _]|]. intros Ha. by split; [|apply Hall].
    + done.
Qed.

Lemma generateMaze_perfect_witness :
  ∃ g, generateMaze MAZE_SIZE id_shuffle = Ok g ∧ square MAZE_SIZE g ∧
       (∀ p, open_cell g p →
          ∃ q, findOptimalPath MAZE_SIZE g (mkPoint 1 1) p = Ok q ∧
               route g (mkPoint 1 1) p q) ∧
       (∀ a, node MAZE_SIZE a → open_cell g a) ∧
       tree (node MAZE_SIZE) (ledge MAZE_SIZE (open_cell g)).
Proof.
  apply (generateMaze_perfect MAZE_SIZE id_shuffle).
  - intros k l. reflexivity.
  - reflexivity.
  - unfold MAZE_SIZE. lia.
Defined.

(** ** C3 *)

(** C3.  In every episode (a maze generated for an odd side of at least 3,
    any shuffles) and after every sequence of key presses and timer ticks,
    no fault has occurred and the entries of the heatmap add up to the number
    of accepted moves, which is also the move counter; the next event, when
    it is an accepted move, increments exactly one entry of the heatmap by
    one, and otherwise (a collision, a press after the end, a tick) leaves
    the heatmap as it is. *)
Theorem heatmap_conservation (N : Z) (shuffle : Shuffle) (now : Z) (es : list event) :
  (∀ k l, shuffle k l ≡ₚ l) → Z.odd N = true → 3 ≤ N →
  ∃ s0 s, startGame N shuffle now = Ok s0 ∧ run N es s0 = Ok s ∧
          sum_matrix s.(heatmap) = Z.of_nat (count_accepted N es s0) ∧
          s.(moveCount) = Z.of_nat (count_accepted N es s0) ∧
          ∀ e, ∃ s', step N e s = Ok s' ∧
            (accepted s e → ∃ p, incremented_at p s.(heatmap) s'.(heatmap)) ∧
            (¬ accepted s e → s'.(heatmap) = s.(heatmap)).
Proof.
  intros Hperm Hodd HN.
  destruct (startGame_inv N shuffle now Hperm Hodd HN) as (s0 & Hstart & Hinv0 & _).
  destruct (run_inv N es s0 0 Hinv0) as (s & Hrun & Hinv & _).
  exists s0, s. split_and!; try done.
  - by destruct Hinv as (_ & _ & _ & _ & ? & _).
  - by destruct Hinv as (_ & _ & _ & _ & _ & ? & _).
  - intros e. destruct (step_inv N e s _ Hinv) as (s' & Hstep & _).
    exists s'. split; [done|]. by eapply step_heatmap.
Qed.

Lemma heatmap_conservation_witness :
  ∃ s0 s, startGame MAZE_SIZE id_shuffle 0 = Ok s0 ∧
          run MAZE_SIZE [Press ArrowDown 1; Press ArrowLeft 2; Tick] s0 = Ok s ∧
          sum_matrix s.(heatmap) =
            Z.of_nat (count_accepted MAZE_SIZE
                        [Press ArrowDown 1; Press ArrowLeft 2; Tick] s0) ∧
          s.(moveCount) =
            Z.of_nat (count_accepted MAZE_SIZE
                        [Press ArrowDown 1; Press ArrowLeft 2; Tick] s0) ∧
          ∀ e, ∃ s', step MAZE_SIZE e s = Ok s' ∧
            (accepted s e → ∃ p, incremented_at p s.(heatmap) s'.(heatmap)) ∧
            (¬ accepted s e → s'.(heatmap) = s.(heatmap)).
Proof.
  apply (heatmap_conservation MAZE_SIZE id_shuffle 0).
  - intros k l. reflexivity.
  - reflexivity.
  - unfold MAZE_SIZE. lia.
Defined.

(** ** C4 *)

(** The record of the [Next Game] button always lists one cell more than the
    player's path: the exit cell is appended without a test. *)
Lemma nextGameMetrics_actualPath (N : Z) (s : State) (now : Z) :
  Metrics.actualPath (nextGameMetrics N s now) =
  s.(actualPath) ++ [mkPoint (N - 2) (N - 2)].
Proof. done. Qed.

(** C4, evaluated.  Three accepted moves down from the start, then the
    timeout: the game is over, the player stands on (1,4) and the recorded
    path has the 4 cells visited; the metrics record is produced without a
    fault, but its [actualPath] has 5 cells, the last being the exit (19,19)
    that was never entered. *)
Theorem timeout_metrics_actualPath :
  (s ← timeout_episode [ArrowDown; ArrowDown; ArrowDown];
   let m := nextGameMetrics MAZE_SIZE s 60000 in
   Ok (s.(gameState), s.(playerPos), s.(moveCount), s.(actualPath),
       Metrics.totalMoves m, Metrics.actualPath m)) =
  Ok (gameOver, mkPoint 1 4, 3,
      [mkPoint 1 1; mkPoint 1 2; mkPoint 1 3; mkPoint 1 4],
      3,
      [mkPoint 1 1; mkPoint 1 2; mkPoint 1 3; mkPoint 1 4; mkPoint 19 19]).
Proof. by vm_compute. Qed.

(** ** C5 *)

(** The halves of the [Next Game] record are guarded: a half without moves
    reports speed 0 and accuracy 0. *)
Lemma nextGameMetrics_halves_guarded (N : Z) (s : State) (now : Z) :
  (s.(firstHalfMetrics).(moves) ≤ 0 →
     Metrics.firstHalf (nextGameMetrics N s now) = mkPerformance (Fin 0) (Fin 0)) ∧
  (s.(moveCount) ≤ s.(firstHalfMetrics).(moves) →
     Metrics.secondHalf (nextGameMetrics N s now) = mkPerformance (Fin 0) (Fin 0)).
Proof.
  split; intros H; simpl; unfold firstHalfPerformance;
    by rewrite !decide_False by lia.
Qed.

(** The efficiency of the [Next Game] record is not guarded: without any
    accepted move it is a division by zero. *)
Lemma nextGameMetrics_efficiency_unguarded (N : Z) (s : State) (now : Z) :
  s.(movementHistory) = [] →
  Metrics.pathEfficiency (nextGameMetrics N s now) =
  if decide (s.(optimalPath) = []) then NaN else Infinity.
Proof.
  intros Hnone. cbn [nextGameMetrics Metrics.pathEfficiency].
  rewrite Hnone. unfold js_div.
  destruct s.(optimalPath) as [|p l]; cbn [length];
    repeat case_decide; try done; lia.
Qed.

(** The record that [handleMove] builds on reaching the exit has no guard on
    its second half, but in an episode its divisors are never zero. *)
Lemma handleMove_metrics_finite (N : Z) (shuffle : Shuffle) (now : Z)
    (es : list event) (k : Key) (t : Z) :
  (∀ k l, shuffle k l ≡ₚ l) → Z.odd N = true → 3 ≤ N →
  ∃ s0 s, startGame N shuffle now = Ok s0 ∧ run N es s0 = Ok s ∧
    ∀ s' m, handleMove N (key_direction k) k t s = Ok (s', Some m) →
      finite (Metrics.pathEfficiency m) ∧
      finite (Metrics.averageTimePerMove m) ∧
      finite (Metrics.secondHalf m).(speed) ∧
      ∃ q, (Metrics.secondHalf m).(accuracy) = js_one_minus (Fin q).
Proof.
  intros Hperm Hodd HN.
  destruct (startGame_spec N shuffle now Hperm Hodd HN)
    as (g & q & _ & _ & Hstart & _).
  destruct (startGame_inv N shuffle now Hperm Hodd HN) as (s0 & Hstart' & Hinv0 & _).
  assert (half_inv s0) as Hhalf0.
  { rewrite Hstart in Hstart'. injection Hstart' as <-. split; [done|by left]. }
  destruct (run_inv N es s0 0 Hinv0) as (s & Hrun & Hinv & _).
  exists s0, s. split_and!; try done.
  intros s' m. apply (completion_metrics_finite N k t s s' _ m Hinv).
  by apply (run_half_inv N es s0 s 0%nat).
Qed.

(** C5, evaluated.  An episode that times out before any move: both halves
    report speed 0 and accuracy 0, but the path efficiency is [181 / 0], that
    is [Infinity], and so is the average time per move. *)
Theorem timeout_metrics_division :
  (s ← timeout_episode [];
   let m := nextGameMetrics MAZE_SIZE s 60000 in
   Ok (Metrics.pathLength m, Metrics.optimalPathLength m,
       Metrics.pathEfficiency m, Metrics.averageTimePerMove m,
       Metrics.firstHalf m, Metrics.secondHalf m)) =
  Ok (0, 181, Infinity, Infinity,
      mkPerformance (Fin 0) (Fin 0), mkPerformance (Fin 0) (Fin 0)).
Proof. by vm_compute. Qed.

(** ** C7 *)

(** Against C7 as stated: [generateMaze] takes no seed, only the side length
    and whatever the shuffles turn out to be, and two runs for the same side
    can return different grids: when every shuffle leaves the directions in
    source order the first corridor runs down from the start, when every
    shuffle reverses them it runs to the right. *)
Lemma generateMaze_same_side_differs :
  (∀ k l, id_shuffle k l ≡ₚ l) ∧ (∀ k l, rev_shuffle k l ≡ₚ l) ∧
  generateMaze MAZE_SIZE id_shuffle ≠ generateMaze MAZE_SIZE rev_shuffle ∧
  (g ← generateMaze MAZE_SIZE id_shuffle;
   Ok (cell_at g (mkPoint 1 2), cell_at g (mkPoint 2 1))) =
    Ok (Some PATH, Some WALL) ∧
  (g ← generateMaze MAZE_SIZE rev_shuffle;
   Ok (cell_at g (mkPoint 1 2), cell_at g (mkPoint 2 1))) =
    Ok (Some WALL, Some PATH).
Proof.
  split_and!.
  - done.
  - intros k l. apply reverse_Permutation.
  - vm_compute. discriminate.
  - by vm_compute.
  - by vm_compute.
Qed.

(** C7, amended.  There is no seed, and two runs for the same side can return
    different grids and different optimal paths, as the runs whose shuffles
    all leave, or all reverse, the array of directions do on the 21 by 21
    grid.  What decides the grid is the outcome of the shuffles, and only of
    the first [((N - 1) / 2)²] of them (100 for the side 21, one for each
    carveable cell): two runs whose shuffles come out the same on those
    calls both end without a fault and return the same grid, and the
    episodes started from them have the same state, in particular the same
    optimal path, whatever the shuffles would return on later calls. *)
Theorem generateMaze_decided_by_shuffles (N : Z) (shuffle1 shuffle2 : Shuffle)
    (now : Z) :
  (∀ k l, shuffle1 k l ≡ₚ l) → Z.odd N = true → 3 ≤ N →
  (∀ i, (i < Z.to_nat ((N - 1) / 2 * ((N - 1) / 2)))%nat →
        shuffle1 i carve_directions = shuffle2 i carve_directions) →
  (∃ g, generateMaze N shuffle1 = Ok g ∧ generateMaze N shuffle2 = Ok g) ∧
  (∃ s0, startGame N shuffle1 now = Ok s0 ∧ startGame N shuffle2 now = Ok s0) ∧
  generateMaze MAZE_SIZE id_shuffle ≠ generateMaze MAZE_SIZE rev_shuffle ∧
  (s ← startGame MAZE_SIZE id_shuffle 0; Ok s.(optimalPath)) ≠
  (s ← startGame MAZE_SIZE rev_shuffle 0; Ok s.(optimalPath)).
Proof.
  intros Hperm Hodd HN Hagree.
  pose proof (generateMaze_agree N shuffle1 shuffle2 Hperm Hodd HN Hagree) as Heq.
  destruct (startGame_inv N shuffle1 now Hperm Hodd HN) as (s0 & Hs0 & _).
  destruct (generateMaze_spec N shuffle1 Hperm Hodd HN) as (g & Hg & _).
  split_and!.
  - exists g. by rewrite <-Heq.
  - exists s0. split; [done|]. rewrite <-Hs0. unfold startGame. by rewrite Heq.
  - vm_compute. discriminate.
  - vm_compute. discriminate.
Qed.

Lemma generateMaze_decided_by_shuffles_witness :
  (∃ g, generateMaze MAZE_SIZE rev_shuffle = Ok g ∧
        generateMaze MAZE_SIZE
          (λ k l, if decide (k < 100)%nat then reverse l else l) = Ok g) ∧
  (∃ s0, startGame MAZE_SIZE rev_shuffle 0 = Ok s0 ∧
         startGame MAZE_SIZE
           (λ k l, if decide (k < 100)%nat then reverse l else l) 0 = Ok s0) ∧
  generateMaze MAZE_SIZE id_shuffle ≠ generateMaze MAZE_SIZE rev_shuffle ∧
  (s ← startGame MAZE_SIZE id_shuffle 0; Ok s.(optimalPath)) ≠
  (s ← startGame MAZE_SIZE rev_shuffle 0; Ok s.(optimalPath)).
Proof.
  apply (generateMaze_decided_by_shuffles MAZE_SIZE rev_shuffle).
  - intros k l. apply reverse_Permutation.
  - reflexivity.
  - unfold MAZE_SIZE. lia.
  - intros i Hi. unfold rev_shuffle.
    rewrite decide_True; [reflexivity|]. vm_compute in Hi. exact Hi.
Defined.

(** ** C8 *)

(** C8.  While the game is being played, a press whose destination cell is a
    wall ends without a fault and without metrics; it leaves the player
    where it is, adds one to the collision count, and changes neither the
    recorded path, the visited set, the backtrack count, the heatmap, the
    move count nor the movement history; and every press, whatever its
    outcome, adds one to the counter of its direction and leaves the other
    three counters alone. *)
Theorem wall_collision_frame (N : Z) (k : Key) (now : Z) (s : State) :
  s.(gameState) = playing →
  (cell_at s.(maze) (destination s k) = Some WALL →
     ∃ s', handleMove N (key_direction k) k now s = Ok (s', None) ∧
           s'.(playerPos) = s.(playerPos) ∧
           s'.(wallCollisions) = s.(wallCollisions) + 1 ∧
           s'.(actualPath) = s.(actualPath) ∧
           s'.(visitedCells) = s.(visitedCells) ∧
           s'.(backtrackCount) = s.(backtrackCount) ∧
           s'.(heatmap) = s.(heatmap) ∧
           s'.(moveCount) = s.(moveCount) ∧
           s'.(movementHistory) = s.(movementHistory)) ∧
  (∀ s' m, handleMove N (key_direction k) k now s = Ok (s', m) →
     ∀ k', MovePatterns.get k' s'.(movePatterns) =
           if decide (k' = k) then MovePatterns.get k' s.(movePatterns) + 1
           else MovePatterns.get k' s.(movePatterns)).
Proof.
  intros Hplay. split.
  - intros Hwall. eexists. split; [by apply handleMove_collision|]. done.
  - intros s' m Hrun k'.
    rewrite (handleMove_patterns N k now s s' m Hplay Hrun). apply bump_get.
Qed.

Lemma wall_collision_frame_witness :
  ∃ s', handleMove 5 (key_direction ArrowUp) ArrowUp 7 ring5_state = Ok (s', None) ∧
        s'.(playerPos) = ring5_state.(playerPos) ∧
        s'.(wallCollisions) = ring5_state.(wallCollisions) + 1 ∧
        s'.(actualPath) = ring5_state.(actualPath) ∧
        s'.(visitedCells) = ring5_state.(visitedCells) ∧
        s'.(backtrackCount) = ring5_state.(backtrackCount) ∧
        s'.(heatmap) = ring5_state.(heatmap) ∧
        s'.(moveCount) = ring5_state.(moveCount) ∧
        s'.(movementHistory) = ring5_state.(movementHistory).
Proof.
  apply (proj1 (wall_collision_frame 5 ArrowUp 7 ring5_state eq_refl)).
  reflexivity.
Defined.

(** ** C9 *)

(** C9.  The deviation of two paths is the number of cells that belong to
    exactly one of them; hence it is symmetric, it is zero for a path and
    itself, and it is the same for any two other paths that have the same
    cells, in whatever order and however often. *)
Theorem pathDeviation_symmetric_difference (A B : list Point) :
  calculatePathDeviation A B =
    Z.of_nat (size ((cells A ∖ cells B) ∪ (cells B ∖ cells A))) ∧
  calculatePathDeviation A B = calculatePathDeviation B A ∧
  calculatePathDeviation A A = 0 ∧
  ∀ A' B', cells A' = cells A → cells B' = cells B →
           calculatePathDeviation A' B' = calculatePathDeviation A B.
Proof.
  split_and!.
  - rewrite calculatePathDeviation_size.
    rewrite (size_union (cells A ∖ cells B)); [lia|].
    apply elem_of_disjoint.
    by intros z [? ?]%elem_of_difference [? ?]%elem_of_difference.
  - rewrite !calculatePathDeviation_size. lia.
  - rewrite calculatePathDeviation_size.
    by rewrite difference_diag_L, size_empty.
  - intros A' B' HA HB. rewrite !calculatePathDeviation_size. by rewrite HA, HB.
Qed.

Lemma pathDeviation_symmetric_difference_witness :
  calculatePathDeviation
    [mkPoint 1 2; mkPoint 1 1; mkPoint 1 2; mkPoint 1 1]
    [mkPoint 2 1; mkPoint 1 1; mkPoint 2 1] =
  calculatePathDeviation [mkPoint 1 1; mkPoint 1 2] [mkPoint 1 1; mkPoint 2 1].
Proof.
  apply (proj2 (proj2 (proj2 (pathDeviation_symmetric_difference
           [mkPoint 1 1; mkPoint 1 2] [mkPoint 1 1; mkPoint 2 1]))));
    compute_done.
Defined.

(** ** C10 *)

(** C10.  In every episode (a maze generated for an odd side [N] of at least
    3, any shuffles) and after every sequence of key presses and timer
    ticks, no fault has occurred; the maze is still the generated grid, all
    cells of its border (row 0, row [N-1], column 0, column [N-1]) are walls,
    the player stands within rows and columns 1 to [N-2], and the
    destination of a press of any key lies within the bounds of the grid. *)
Theorem border_keeps_player_inside (N : Z) (shuffle : Shuffle) (now : Z)
    (es : list event) :
  (∀ k l, shuffle k l ≡ₚ l) → Z.odd N = true → 3 ≤ N →
  ∃ s0 s, startGame N shuffle now = Ok s0 ∧ run N es s0 = Ok s ∧
          generateMaze N shuffle = Ok s.(maze) ∧
          (∀ p, 0 ≤ p.(x) < N → 0 ≤ p.(y) < N →
                p.(x) = 0 ∨ p.(x) = N - 1 ∨ p.(y) = 0 ∨ p.(y) = N - 1 →
                cell_at s.(maze) p = Some WALL) ∧
          1 ≤ s.(playerPos).(x) ≤ N - 2 ∧ 1 ≤ s.(playerPos).(y) ≤ N - 2 ∧
          ∀ k, 0 ≤ (destination s k).(x) < N ∧ 0 ≤ (destination s k).(y) < N.
Proof.
  intros Hperm Hodd HN.
  destruct (startGame_spec N shuffle now Hperm Hodd HN)
    as (g & q & Hgen & _ & Hstart & _).
  destruct (startGame_inv N shuffle now Hperm Hodd HN) as (s0 & Hstart' & Hinv0 & _).
  destruct (run_inv N es s0 0 Hinv0) as (s & Hrun & Hinv & Hmaze).
  exists s0, s.
  pose proof Hinv as (Hsq & Hin & _ & Hpos & _). apply Hin in Hpos.
  split; [done|]. split; [done|]. split; [|split; [|split; [|split]]].
  - rewrite Hmaze, Hgen. rewrite Hstart in Hstart'. by injection Hstart' as <-.
  - intros p ? ? ?. by apply (border_walls N).
  - lia.
  - lia.
  - intros k. by eapply destination_bounds.
Qed.

Lemma border_keeps_player_inside_witness :
  ∃ s0 s, startGame MAZE_SIZE rev_shuffle 0 = Ok s0 ∧
          run MAZE_SIZE [Press ArrowUp 1; Press ArrowRight 2; Press ArrowLeft 3] s0
            = Ok s ∧
          generateMaze MAZE_SIZE rev_shuffle = Ok s.(maze) ∧
          (∀ p, 0 ≤ p.(x) < MAZE_SIZE → 0 ≤ p.(y) < MAZE_SIZE →
                p.(x) = 0 ∨ p.(x) = MAZE_SIZE - 1 ∨
                p.(y) = 0 ∨ p.(y) = MAZE_SIZE - 1 →
                cell_at s.(maze) p = Some WALL) ∧
          1 ≤ s.(playerPos).(x) ≤ MAZE_SIZE - 2 ∧
          1 ≤ s.(playerPos).(y) ≤ MAZE_SIZE - 2 ∧
          ∀ k, 0 ≤ (destination s k).(x) < MAZE_SIZE ∧
               0 ≤ (destination s k).(y) < MAZE_SIZE.
Proof.
  apply (border_keeps_player_inside MAZE_SIZE rev_shuffle 0).
  - intros k l. apply reverse_Permutation.
  - reflexivity.
  - unfold MAZE_SIZE. lia.
Defined.

(** * The records of an episode *)

(** ** The cases of one event *)

Lemma handleMove_enter (N : Z) (k : Key) (now : Z) (s : State) (n : nat) :
  episode_inv N s n → s.(gameState) = playing →
  cell_at s.(maze) (destination s k) ≠ Some WALL →
  ∃ h' fh, open_cell s.(maze) (destination s k) ∧
        incremented_at (destination s k) s.(heatmap) h' ∧
        handleMove N (key_direction k) k now s =
        Ok ({| maze := s.(maze);
               playerPos := destination s k;
               gameState :=
                 if bool_decide ((destination s k).(x) = N - 2 ∧
                                 (destination s k).(y) = N - 2)
                 then gameOver else s.(gameState);
               timeLeft := s.(timeLeft);
               startTime := s.(startTime);
               moveCount := s.(moveCount) + 1;
               wallCollisions := s.(wallCollisions);
               backtrackCount :=
                 if decide (key (destination s k) ∈ s.(visitedCells))
                 then s.(backtrackCount) + 1 else s.(backtrackCount);
               movementHistory := s.(movementHistory) ++ [directionKey k];
               visitedCells := s.(visitedCells) ∪ {[key (destination s k)]};
               movePatterns := MovePatterns.bump k s.(movePatterns);
               firstHalfMetrics := fh;
               heatmap := h';
               optimalPath := s.(optimalPath);
               actualPath := s.(actualPath) ++ [destination s k];
               pathDeviation :=
                 if bool_decide ((destination s k).(x) = N - 2 ∧
                                 (destination s k).(y) = N - 2)
                 then calculatePathDeviation s.(optimalPath)
                        (s.(actualPath) ++ [destination s k])
                 else s.(pathDeviation) |},
            if bool_decide ((destination s k).(x) = N - 2 ∧
                            (destination s k).(y) = N - 2)
            then Some (completionMetrics s (destination s k) now h') else None).
Proof.
  intros Hinv Hplay Hfree.
  pose proof (destination_bounds N s k n Hinv) as [Hx Hy].
  destruct Hinv as (Hsq & Hin & Hsqh & Hpos & Hsum & Hcount & Hpath & Hhist).
  unfold handleMove. rewrite decide_False by (by rewrite Hplay; intros ?).
  cbv zeta. fold (destination s k). set (p := destination s k) in *.
  destruct (at2_in_bounds N s.(maze) p.(x) p.(y)) as [c Hc]; try done.
  fold (cell_at s.(maze) p) in Hc.
  rewrite (cell_at_read2 _ _ _ Hc). cbn [mbind result_bind].
  rewrite decide_False by congruence.
  destruct (incr2_spec N s.(heatmap) p) as (h' & Hincr & Hsqh' & Hsum' & Hat);
    try done.
  rewrite Hincr. cbn [mbind result_bind].
  eexists h', _. split_and!; [|done|done].
  unfold open_cell. rewrite Hc. congruence.
Qed.

Lemma step_cases (N : Z) (e : event) (s s' : State) (n : nat) :
  episode_inv N s n → step N e s = Ok s' →
  (e = Tick ∧ s' = tick s) ∨
  (∃ k now, e = Press k now ∧ s.(gameState) ≠ playing ∧ s' = s) ∨
  (∃ k now, e = Press k now ∧ s.(gameState) = playing ∧
     cell_at s.(maze) (destination s k) = Some WALL ∧
     s' = {| maze := s.(maze);
             playerPos := s.(playerPos);
             gameState := s.(gameState);
             timeLeft := s.(timeLeft);
             startTime := s.(startTime);
             moveCount := s.(moveCount);
             wallCollisions := s.(wallCollisions) + 1;
             backtrackCount := s.(backtrackCount);
             movementHistory := s.(movementHistory);
             visitedCells := s.(visitedCells);
             movePatterns := MovePatterns.bump k s.(movePatterns);
             firstHalfMetrics := s.(firstHalfMetrics);
             heatmap := s.(heatmap);
             optimalPath := s.(optimalPath);
             actualPath := s.(actualPath);
             pathDeviation := s.(pathDeviation) |}) ∨
  (∃ k now h' fh, e = Press k now ∧ s.(gameState) = playing ∧
     open_cell s.(maze) (destination s k) ∧
     incremented_at (destination s k) s.(heatmap) h' ∧
     s' = {| maze := s.(maze);
             playerPos := destination s k;
             gameState :=
               if bool_decide ((destination s k).(x) = N - 2 ∧
                               (destination s k).(y) = N - 2)
               then gameOver else s.(gameState);
             timeLeft := s.(timeLeft);
             startTime := s.(startTime);
             moveCount := s.(moveCount) + 1;
             wallCollisions := s.(wallCollisions);
             backtrackCount :=
               if decide (key (destination s k) ∈ s.(visitedCells))
               then s.(backtrackCount) + 1 else s.(backtrackCount);
             movementHistory := s.(movementHistory) ++ [directionKey k];
             visitedCells := s.(visitedCells) ∪ {[key (destination s k)]};
             movePatterns := MovePatterns.bump k s.(movePatterns);
             firstHalfMetrics := fh;
             heatmap := h';
             optimalPath := s.(optimalPath);
             actualPath := s.(actualPath) ++ [destination s k];
             pathDeviation :=
               if bool_decide ((destination s k).(x) = N - 2 ∧
                               (destination s k).(y) = N - 2)
               then calculatePathDeviation s.(optimalPath)
                      (s.(actualPath) ++ [destination s k])
               else s.(pathDeviation) |}).
Proof.
  intros Hinv. destruct e as [k now|]; simpl.
  - destruct (decide (s.(gameState) = playing)) as [Hplay|Hplay].
    + destruct (decide (cell_at s.(maze) (destination s k) = Some WALL)) as [Hw|Hw].
      * rewrite (handleMove_collision N k now s Hplay Hw). simpl.
        intros [= <-]. right; right; left. by exists k, now.
      * destruct (handleMove_enter N k now s n Hinv Hplay Hw)
          as (h' & fh & Hopen & Hincr & ->).
        simpl. intros [= <-]. right; right; right. by exists k, now, h', fh.
    + unfold handleMove. rewrite decide_True by done. simpl.
      intros [= <-]. right; left. by exists k, now.
  - intros [= <-]. by left.
Qed.

(** ** The recorded path, the visited set and the counters *)

Lemma adjacent_destination (s : State) (k : Key) :
  adjacent s.(playerPos) (destination s k).
Proof. unfold adjacent, destination. destruct k; simpl; lia. Qed.

Lemma occurrences_snoc (p q : Point) (l : list Point) :
  occurrences p (l ++ [q]) =
  (occurrences p l + if decide (q = p) then 1 else 0)%nat.
Proof.
  unfold occurrences. rewrite filter_app, length_app. f_equal.
  rewrite filter_cons, filter_nil. by case_decide.
Qed.

Lemma key_start : key (mkPoint 1 1) = "1,1".
Proof. reflexivity. Qed.

Lemma tick_trace_inv (N : Z) (s : State) : trace_inv N s → trace_inv N (tick s).
Proof. unfold tick. by case_decide. Qed.

Lemma step_trace_inv (N : Z) (e : event) (s s' : State) (n : nat) :
  episode_inv N s n → trace_inv N s → step N e s = Ok s' → trace_inv N s'.
Proof.
  intros Hinv Htr Hstep.
  destruct (step_cases N e s s' n Hinv Hstep)
    as [[-> ->]|[(k & now & -> & Hplay & ->)|[(k & now & -> & Hplay & Hwall & ->)|
        (k & now & h' & fh & -> & Hplay & Hopen & Hincr & ->)]]].
  - by apply tick_trace_inv.
  - done.
  - destruct Htr as (Hroute & Hvis & Hback & Hcoll & Hatt & Hheat).
    unfold trace_inv.
    cbn [maze playerPos actualPath visitedCells backtrackCount moveCount
         wallCollisions movePatterns heatmap].
    split_and!; try done; [lia|].
    unfold attempts in *. destruct k, (movePatterns s); simpl in *; lia.
  - destruct Htr as (Hroute & Hvis & Hback & Hcoll & Hatt & Hheat).
    pose proof (destination_bounds N s k n Hinv) as [Hx Hy].
    set (p := destination s k) in *.
    unfold trace_inv.
    cbn [maze playerPos actualPath visitedCells backtrackCount moveCount
         wallCollisions movePatterns heatmap].
    split_and!.
    + apply (route_snoc _ _ s.(playerPos)); [done| |done].
      apply adjacent_destination.
    + rewrite fmap_app, list_to_set_app_L, <-Hvis. simpl.
      by rewrite (right_id_L ∅ (∪)).
    + case_decide as Hin.
      * rewrite (union_comm_L s.(visitedCells)), subseteq_union_1_L; [lia|].
        by apply singleton_subseteq_l.
      * rewrite size_union by (by apply disjoint_singleton_r).
        rewrite size_singleton. lia.
    + done.
    + unfold attempts in *. destruct k, (movePatterns s); simpl in *; lia.
    + intros q Hqx Hqy.
      destruct Hroute as [_ [Hhd _]].
      destruct s.(actualPath) as [|a l] eqn:Hl; [done|].
      cbn [tail app]. change (l ++ [p]) with (l ++ [p]).
      rewrite occurrences_snoc.
      specialize (Hheat q Hqx Hqy). cbn [tail] in Hheat.
      destruct Hincr as (n0 & Hn0 & Hh'). rewrite Hh'.
      destruct (decide (q.(x) = p.(x) ∧ q.(y) = p.(y))) as [[Hex Hey]|Hne].
      * assert (q = p) as -> by (destruct q, p; simplify_eq/=; done).
        rewrite decide_True by done. rewrite Hn0 in Hheat.
        injection Hheat as ->. f_equal. lia.
      * rewrite decide_False by (intros <-; by destruct Hne).
        rewrite Hheat. f_equal. lia.
Qed.

Lemma run_trace_inv (N : Z) (es : list event) (s s' : State) (n : nat) :
  episode_inv N s n → trace_inv N s → run N es s = Ok s' → trace_inv N s'.
Proof.
  revert s n. induction es as [|e es IH]; intros s n Hinv Htr.
  - by intros [= <-].
  - unfold run. simpl.
    destruct (step_inv N e s n Hinv) as (s1 & Hstep & Hinv1 & _).
    rewrite Hstep. simpl. apply (IH s1 _ Hinv1).
    by apply (step_trace_inv N e s s1 n).
Qed.

Lemma startGame_trace_inv (N : Z) (shuffle : Shuffle) (now : Z) (s0 : State) :
  (∀ k l, shuffle k l ≡ₚ l) → Z.odd N = true → 3 ≤ N →
  startGame N shuffle now = Ok s0 → trace_inv N s0.
Proof.
  intros Hperm Hodd HN Hs0.
  destruct (startGame_spec N shuffle now Hperm Hodd HN)
    as (g & q & _ & _ & Hstart & Hsq & Hinv & Hall & _).
  rewrite Hstart in Hs0. injection Hs0 as <-.
  unfold trace_inv.
  cbn [maze playerPos actualPath visitedCells backtrackCount moveCount
       wallCollisions movePatterns heatmap].
  split_and!; [| | |done|done|].
  - split; [split|done]; [|done].
    constructor; [|done]. by apply Hall, node_start.
  - change (key <$> [mkPoint 1 1]) with ["1,1"].
    rewrite list_to_set_cons, list_to_set_nil. by rewrite (right_id_L ∅ (∪)).
  - rewrite size_singleton. lia.
  - intros p Hx Hy.
    destruct (at2_in_bounds N (replicate (Z.to_nat N) (replicate (Z.to_nat N) 0))
                p.(x) p.(y)) as [c Hc]; [apply square_replicate|done..|].
    rewrite Hc. by apply at2_replicate in Hc as ->.
Qed.

(** ** The optimal path of an episode *)

Lemma step_optimalPath (N : Z) (e : event) (s s' : State) (n : nat) :
  episode_inv N s n → step N e s = Ok s' → s'.(optimalPath) = s.(optimalPath).
Proof.
  intros Hinv Hstep.
  destruct (step_cases N e s s' n Hinv Hstep)
    as [[-> ->]|[(k & now & -> & Hplay & ->)|[(k & now & -> & Hplay & Hwall & ->)|
        (k & now & h' & fh & -> & Hplay & Hopen & Hincr & ->)]]]; try done.
  unfold tick. by case_decide.
Qed.

Lemma run_optimalPath (N : Z) (es : list event) (s s' : State) (n : nat) :
  episode_inv N s n → run N es s = Ok s' → s'.(optimalPath) = s.(optimalPath).
Proof.
  revert s n. induction es as [|e es IH]; intros s n Hinv.
  - by intros [= <-].
  - unfold run. simpl.
    destruct (step_inv N e s n Hinv) as (s1 & Hstep & Hinv1 & _).
    rewrite Hstep. simpl. intros Hrun.
    rewrite (IH s1 _ Hinv1 Hrun). by apply (step_optimalPath N e s s1 n).
Qed.

(** ** The clock *)

Lemma ticks_cons (e : event) (es : list event) :
  ticks (e :: es) = ((if decide (e = Tick) then 1 else 0) + ticks es)%nat.
Proof. unfold ticks. rewrite filter_cons. by case_decide. Qed.

Lemma step_clock_inv (N : Z) (e : event) (s s' : State) (n t : nat) :
  episode_inv N s n → clock_inv N s t → step N e s = Ok s' →
  clock_inv N s' (t + if decide (e = Tick) then 1 else 0).
Proof.
  intros Hinv Hclock Hstep.
  destruct (step_cases N e s s' n Hinv Hstep)
    as [[-> ->]|[(k & now & -> & Hplay & ->)|[(k & now & -> & Hplay & Hwall & ->)|
        (k & now & h' & fh & -> & Hplay & Hopen & Hincr & ->)]]].
  - rewrite decide_True by done. unfold clock_inv, tick in *.
    destruct (decide (s.(gameState) = playing)) as [Hplay|Hplay].
    + rewrite Hplay in Hclock. destruct Hclock as (Htime & Hpos & Hexit).
      cbn [gameState timeLeft playerPos].
      destruct (decide (s.(timeLeft) ≤ 1)).
      * by right.
      * rewrite Hplay. split_and!; [lia|lia|done].
    + destruct s.(gameState); done.
  - rewrite decide_False by done. rewrite Nat.add_0_r.
    unfold clock_inv in *. by destruct s.(gameState).
  - rewrite decide_False by done. rewrite Nat.add_0_r.
    unfold clock_inv in *. cbn [gameState timeLeft playerPos]. done.
  - rewrite (decide_False (P := Press k now = Tick)) by done.
    rewrite Nat.add_0_r.
    unfold clock_inv in *. cbn [gameState timeLeft playerPos].
    rewrite Hplay in Hclock |- *. destruct Hclock as (Htime & Hpos & Hexit).
    case_bool_decide as Hend.
    + left. split; [|lia]. destruct (destination s k); simplify_eq/=.
      destruct Hend as [-> ->]. done.
    + split_and!; [done|done|]. intros Heq. destruct Hend.
      by rewrite Heq.
Qed.

Lemma run_clock_inv (N : Z) (es : list event) (s s' : State) (n t : nat) :
  episode_inv N s n → clock_inv N s t → run N es s = Ok s' →
  clock_inv N s' (t + ticks es).
Proof.
  revert s n t. induction es as [|e es IH]; intros s n t Hinv Hclock.
  - intros [= <-]. by rewrite Nat.add_0_r.
  - unfold run. simpl.
    destruct (step_inv N e s n Hinv) as (s1 & Hstep & Hinv1 & _).
    rewrite Hstep. simpl. intros Hrun.
    rewrite ticks_cons, Nat.add_assoc.
    apply (IH s1 _ _ Hinv1); [|done].
    by apply (step_clock_inv N e s s1 n).
Qed.

(** ** The exit is entered once *)

Lemma step_exit_fresh (N : Z) (e : event) (s s' : State) (n : nat) :
  episode_inv N s n → exit_fresh N s → step N e s = Ok s' → exit_fresh N s'.
Proof.
  intros Hinv Hfresh Hstep.
  destruct (step_cases N e s s' n Hinv Hstep)
    as [[-> ->]|[(k & now & -> & Hplay & ->)|[(k & now & -> & Hplay & Hwall & ->)|
        (k & now & h' & fh & -> & Hplay & Hopen & Hincr & ->)]]].
  - unfold exit_fresh, tick in *.
    destruct (decide (s.(gameState) = playing)) as [Hplay|Hplay]; [|done].
    cbn [gameState actualPath]. case_decide; [done|]. done.
  - done.
  - done.
  - unfold exit_fresh in *. cbn [gameState actualPath].
    case_bool_decide as Hend; [done|]. intros _.
    rewrite elem_of_app, list_elem_of_singleton. intros [Hin|Heq].
    + by apply Hfresh.
    + destruct Hend. by rewrite <-Heq.
Qed.

Lemma run_exit_fresh (N : Z) (es : list event) (s s' : State) (n : nat) :
  episode_inv N s n → exit_fresh N s → run N es s = Ok s' → exit_fresh N s'.
Proof.
  revert s n. induction es as [|e es IH]; intros s n Hinv Hfresh.
  - by intros [= <-].
  - unfold run. simpl.
    destruct (step_inv N e s n Hinv) as (s1 & Hstep & Hinv1 & _).
    rewrite Hstep. simpl. apply (IH s1 _ Hinv1).
    by apply (step_exit_fresh N e s s1 n).
Qed.

(** ** The presses behind the counters *)

Lemma run_counts (N : Z) (es : list event) (s s' : State) (n : nat) :
  episode_inv N s n → run N es s = Ok s' →
  (∀ k, MovePatterns.get k s'.(movePatterns) =
        MovePatterns.get k s.(movePatterns) +
        Z.of_nat (count_where N (attempt_of k) es s)) ∧
  s'.(wallCollisions) =
    s.(wallCollisions) + Z.of_nat (count_where N collides es s).
Proof.
  revert s n. induction es as [|e es IH]; intros s n Hinv.
  - intros [= <-]. simpl. split; [intros k|]; lia.
  - unfold run. cbn [for_each count_where].
    destruct (step_inv N e s n Hinv) as (s1 & Hstep & Hinv1 & _).
    rewrite Hstep. cbn [mbind result_bind]. intros Hrun.
    destruct (IH s1 _ Hinv1 Hrun) as [Hget Hcoll].
    destruct (step_cases N e s s1 n Hinv Hstep)
      as [[-> ->]|[(k & now & -> & Hplay & ->)|[(k & now & -> & Hplay & Hwall & ->)|
          (k & now & h' & fh & -> & Hplay & Hopen & Hincr & ->)]]].
    + assert ((tick s).(movePatterns) = s.(movePatterns)) as Hmp
        by (unfold tick; by destruct (decide (s.(gameState) = playing))).
      assert ((tick s).(wallCollisions) = s.(wallCollisions)) as Hwc
        by (unfold tick; by destruct (decide (s.(gameState) = playing))).
      rewrite Hmp in Hget. rewrite Hwc in Hcoll. split.
      * intros k. rewrite Hget. rewrite decide_False by (by intros []). lia.
      * rewrite Hcoll. rewrite decide_False by (by intros []). lia.
    + split.
      * intros k'. rewrite Hget. rewrite decide_False by (by intros [_ ?]). lia.
      * rewrite Hcoll. rewrite decide_False by (by intros [? _]). lia.
    + split.
      * intros k'. rewrite Hget. cbn [movePatterns]. rewrite bump_get.
        destruct (decide (k' = k)) as [->|Hne].
        -- rewrite (decide_True (P := attempt_of k s (Press k now))) by done. lia.
        -- rewrite (decide_False (P := attempt_of k' s (Press k now)));
             [lia|]. by intros [? _].
      * rewrite Hcoll. cbn [wallCollisions].
        rewrite (decide_True (P := collides s (Press k now))) by done. lia.
    + split.
      * intros k'. rewrite Hget. cbn [movePatterns]. rewrite bump_get.
        destruct (decide (k' = k)) as [->|Hne].
        -- rewrite (decide_True (P := attempt_of k s (Press k now))) by done. lia.
        -- rewrite (decide_False (P := attempt_of k' s (Press k now)));
             [lia|]. by intros [? _].
      * rewrite Hcoll. cbn [wallCollisions].
        rewrite (decide_False (P := collides s (Press k now))); [lia|].
        intros [_ Hwall]. unfold open_cell in Hopen. by rewrite Hwall in Hopen.
Qed.

(** ** Episodes from their start *)

(** The state [s] is reached by the events [es] from the state [s0] in
    which [startGame] leaves the component. *)
Lemma episode_records (N : Z) (shuffle : Shuffle) (now : Z) (es : list event) :
  (∀ k l, shuffle k l ≡ₚ l) → Z.odd N = true → 3 ≤ N →
  ∃ s0 s, startGame N shuffle now = Ok s0 ∧ run N es s0 = Ok s ∧
          episode_inv N s (count_accepted N es s0) ∧
          trace_inv N s ∧
          (N ≠ 3 → clock_inv N s (ticks es)) ∧
          s.(maze) = s0.(maze) ∧ s.(optimalPath) = s0.(optimalPath) ∧
          shortest_or_none s0.(maze) (mkPoint 1 1) (mkPoint (N - 2) (N - 2))
            s0.(optimalPath) ∧
          route s0.(maze) (mkPoint 1 1) (mkPoint (N - 2) (N - 2)) s0.(optimalPath).
Proof.
  intros Hperm Hodd HN.
  destruct (startGame_spec N shuffle now Hperm Hodd HN)
    as (g & q & _ & Hfind & Hstart & Hsq & _ & Hall & Hq).
  destruct (startGame_inv N shuffle now Hperm Hodd HN)
    as (s0 & Hstart' & Hinv0 & _ & Hplay0 & Hpos0).
  destruct (run_inv N es s0 0 Hinv0) as (s & Hrun & Hinv & Hmaze).
  pose proof (startGame_trace_inv N shuffle now s0 Hperm Hodd HN Hstart') as Htr0.
  exists s0, s. split_and!; try done.
  - by apply (run_trace_inv N es s0 s 0).
  - intros HN3. apply (run_clock_inv N es s0 s 0 0); try done.
    unfold clock_inv. rewrite Hplay0, Hpos0.
    rewrite Hstart in Hstart'. injection Hstart' as <-. cbn [timeLeft].
    split_and!; [done|done|]. intros [= ?]. lia.
  - by apply (run_optimalPath N es s0 s 0).
  - rewrite Hstart in Hstart'. injection Hstart' as <-. cbn [maze optimalPath].
    destruct (findOptimalPath_correct N g (mkPoint 1 1) (mkPoint (N - 2) (N - 2)))
      as (q' & Hfind' & Hq'); [done|by apply Hall, node_start|].
    rewrite Hfind in Hfind'. by injection Hfind' as <-.
  - rewrite Hstart in Hstart'. by injection Hstart' as <-.
Qed.

(** ** Shortest paths *)

Lemma chain_lookup {A : Type} (R : A → A → Prop) (l : list A) (i : nat) (a b : A) :
  chain R l → l !! i = Some a → l !! S i = Some b → R a b.
Proof.
  revert i. induction l as [|c l IH]; intros i; [done|].
  rewrite chain_cons. intros [Hhd Hl] Ha Hb. destruct i as [|i]; simplify_eq/=.
  - apply Hhd. by destruct l; simplify_eq/=.
  - by eapply IH.
Qed.

Lemma chain_drop {A : Type} (R : A → A → Prop) (n : nat) (l : list A) :
  chain R l → chain R (drop n l).
Proof.
  intros H. rewrite <-(take_drop n l) in H. by apply chain_app in H as (_ & ? & _).
Qed.

Lemma route_rev (maze : Grid) (a b : Point) (l : list Point) :
  route maze a b l → route maze b a (reverse l).
Proof.
  intros [[Hopen Hchain] [Hhd Hlast]]. split; [split|split].
  - by rewrite reverse_Permutation.
  - apply chain_rev; [|done]. unfold adjacent. intros ??. lia.
  - by rewrite head_reverse.
  - by rewrite last_reverse.
Qed.

(** Cutting the loop between two occurrences of a cell. *)
Lemma route_shortcut (maze : Grid) (a b c : Point) (l : list Point) (i j : nat) :
  route maze a b l → l !! i = Some c → l !! j = Some c → (i < j)%nat →
  route maze a b (take (S i) l ++ drop (S j) l) ∧
  (length (take (S i) l ++ drop (S j) l) < length l)%nat.
Proof.
  intros [[Hopen Hchain] [Hhd Hlast]] Hi Hj Hlt.
  pose proof (lookup_lt_Some _ _ _ Hi) as Hil.
  pose proof (lookup_lt_Some _ _ _ Hj) as Hjl.
  assert (last (take (S i) l) = Some c) as Hlast1.
  { rewrite last_lookup, length_take.
    replace (pred (S i `min` length l)) with i by lia.
    by rewrite lookup_take_lt by lia. }
  split; [split; [split|split]|].
  - apply Forall_app. split; [by apply Forall_take|by apply Forall_drop].
  - apply chain_app. split_and!; [by apply chain_take|by apply chain_drop|].
    intros u v Hu Hv. rewrite Hlast1 in Hu. injection Hu as <-.
    rewrite head_lookup, lookup_drop, Nat.add_0_r in Hv.
    by apply (chain_lookup adjacent l j).
  - by destruct l.
  - destruct (drop (S j) l) as [|d r] eqn:Hdrop.
    + rewrite app_nil_r, Hlast1.
      assert (length (drop (S j) l) = 0%nat) as Hlen by by rewrite Hdrop.
      rewrite length_drop in Hlen.
      rewrite last_lookup in Hlast.
      replace (pred (length l)) with j in Hlast by lia. congruence.
    + rewrite <-Hdrop.
      assert (drop (S j) l ≠ []) as Hne by (by rewrite Hdrop).
      apply last_is_Some in Hne as [z Hz].
      rewrite last_app, Hz. rewrite <-Hlast, <-Hz.
      rewrite !last_lookup, lookup_drop, length_drop. f_equal.
      assert (length (drop (S j) l) ≠ 0%nat) as Hlen by by rewrite Hdrop.
      rewrite length_drop in Hlen. lia.
  - rewrite length_app, length_take, length_drop. lia.
Qed.

(** A shortest path does not visit a cell twice. *)
Lemma shortest_NoDup (maze : Grid) (a b : Point) (q : list Point) :
  route maze a b q →
  (∀ l, route maze a b l → (length q ≤ length l)%nat) →
  NoDup q.
Proof.
  intros Hq Hmin. apply NoDup_alt. intros i j c Hi Hj.
  destruct (Nat.lt_total i j) as [Hlt|[->|Hlt]]; [|done|].
  - destruct (route_shortcut maze a b c q i j) as [Hr Hlen]; try done.
    apply Hmin in Hr. lia.
  - destruct (route_shortcut maze a b c q j i) as [Hr Hlen]; try done.
    apply Hmin in Hr. lia.
Qed.

(** * PatternPuzzler *)

Lemma pattern_step_inv (e : PatternPuzzler.event) (s : PatternPuzzler.State) :
  pattern_inv s → pattern_inv (PatternPuzzler.step e s).
Proof.
  intros (Hlevel & Hscore & Htime & Hover).
  destruct e as [|captured r| | |tile]; simpl.
  - split_and!; simpl; try done; lia.
  - split_and!; simpl; try done; lia.
  - unfold PatternPuzzler.shown.
    case_decide; split_and!; simpl; try done; lia.
  - unfold PatternPuzzler.tick. repeat case_decide; split_and!; simpl; try done;
      try lia; intros; lia.
  - unfold PatternPuzzler.handleTileClick.
    repeat case_decide; split_and!; simpl; try done; try lia; intros; try lia.
    congruence.
Qed.

Lemma pattern_run_inv (es : list PatternPuzzler.event) (s : PatternPuzzler.State) :
  pattern_inv s → pattern_inv (PatternPuzzler.run es s).
Proof.
  revert s. induction es as [|e es IH]; intros s Hs; [done|].
  apply IH. by apply pattern_step_inv.
Qed.

(** Repeating the rest of the pattern, tile by tile. *)
Lemma pattern_repeat (todo given : list Z) (s : PatternPuzzler.State) :
  s.(PatternPuzzler.gameState) = PatternPuzzler.input →
  s.(PatternPuzzler.playerInput) = given →
  s.(PatternPuzzler.pattern) = given ++ todo →
  todo ≠ [] →
  PatternPuzzler.run (PatternPuzzler.Click <$> todo) s =
  {| PatternPuzzler.gameState := PatternPuzzler.input;
     PatternPuzzler.pattern := s.(PatternPuzzler.pattern);
     PatternPuzzler.playerInput := [];
     PatternPuzzler.level := s.(PatternPuzzler.level) + 1;
     PatternPuzzler.timeLeft := s.(PatternPuzzler.timeLeft);
     PatternPuzzler.score :=
       s.(PatternPuzzler.score) + s.(PatternPuzzler.level) * 10;
     PatternPuzzler.highestLevel := s.(PatternPuzzler.highestLevel) |}.
Proof.
  revert given s. induction todo as [|t todo IH]; intros given s Hphase Hgiven Hpat Hne;
    [done|].
  change (PatternPuzzler.run (PatternPuzzler.Click <$> t :: todo) s)
    with (PatternPuzzler.run (PatternPuzzler.Click <$> todo)
            (PatternPuzzler.handleTileClick t s)).
  assert (js_get s.(PatternPuzzler.pattern)
            (Z.of_nat (length s.(PatternPuzzler.playerInput))) = Some t) as Hexp.
  { rewrite Hpat, Hgiven. unfold js_get.
    rewrite decide_True by lia. rewrite Nat2Z.id.
    by rewrite list_lookup_middle. }
  unfold PatternPuzzler.handleTileClick.
  rewrite decide_False by (by rewrite Hphase; intros ?).
  cbv zeta. rewrite decide_False by (by rewrite Hexp; intros ?).
  destruct todo as [|t' todo].
  - rewrite decide_True by (by rewrite Hpat, Hgiven).
    simpl. by rewrite Hphase.
  - rewrite decide_False; cycle 1.
    { rewrite Hpat, Hgiven, !length_app. simpl. lia. }
    rewrite (IH (given ++ [t])); simpl; try done.
    + by rewrite Hgiven.
    + by rewrite Hpat, <-app_assoc.
Qed.

(** * GameSeries *)

Lemma indexOf_gameOrder (g : GameSeries.GameType) :
  js_get GameSeries.gameOrder (GameSeries.indexOf GameSeries.gameOrder g) = Some g.
Proof. by destruct g. Qed.

Lemma handleGameComplete_next {M : Type} (g : GameSeries.GameType) (score : Z)
    (m : option M) (s : GameSeries.State M) :
  (GameSeries.handleGameComplete g score m s).(GameSeries.currentGame) =
  if decide (g = GameSeries.complete) then s.(GameSeries.currentGame)
  else js_get GameSeries.gameOrder
         (GameSeries.indexOf GameSeries.gameOrder g + 1).
Proof. by destruct g. Qed.

Lemma reported_snoc {M : Type}
    (reports : list (GameSeries.GameType * Z * option M))
    (r : GameSeries.GameType * Z * option M) (s : GameSeries.State M) :
  GameSeries.reported (reports ++ [r]) s =
  GameSeries.handleGameComplete r.1.1 r.1.2 r.2 (GameSeries.reported reports s).
Proof. unfold GameSeries.reported. by rewrite foldl_app. Qed.

(** * Further properties *)

(** ** handleMove: the recorded path *)

(** X1.  In every episode (a maze generated for an odd side of at least 3,
    any shuffles) and after every sequence of key presses and timer ticks,
    the recorded actual path is a path of the maze: it starts on the start
    cell (1,1), ends on the cell where the player stands, consists of open
    cells each adjacent to the next, and has one cell more than there were
    accepted moves. *)
Theorem actualPath_is_maze_path (N : Z) (shuffle : Shuffle) (now : Z)
    (es : list event) :
  (∀ k l, shuffle k l ≡ₚ l) → Z.odd N = true → 3 ≤ N →
  ∃ s0 s, startGame N shuffle now = Ok s0 ∧ run N es s0 = Ok s ∧
          route s.(maze) (mkPoint 1 1) s.(playerPos) s.(actualPath) ∧
          length s.(actualPath) = S (count_accepted N es s0).
Proof.
  intros Hperm Hodd HN.
  destruct (episode_records N shuffle now es Hperm Hodd HN)
    as (s0 & s & Hstart & Hrun & Hinv & Htr & _).
  exists s0, s. split_and!; try done.
  - by destruct Htr as (? & _).
  - by destruct Hinv as (_ & _ & _ & _ & _ & _ & ? & _).
Qed.

Lemma actualPath_is_maze_path_witness :
  ∃ s0 s, startGame MAZE_SIZE id_shuffle 0 = Ok s0 ∧
          run MAZE_SIZE [Press ArrowDown 1; Press ArrowUp 2; Press ArrowLeft 3; Tick]
            s0 = Ok s ∧
          route s.(maze) (mkPoint 1 1) s.(playerPos) s.(actualPath) ∧
          length s.(actualPath) =
            S (count_accepted MAZE_SIZE
                 [Press ArrowDown 1; Press ArrowUp 2; Press ArrowLeft 3; Tick] s0).
Proof.
  apply (actualPath_is_maze_path MAZE_SIZE id_shuffle 0).
  - intros k l. reflexivity.
  - reflexivity.
  - unfold MAZE_SIZE. lia.
Defined.

(** ** handleMove: visited cells and backtracks *)

(** X2.  In every episode and after every sequence of events, the visited
    set holds exactly the keys of the cells of the recorded path, so that the
    next accepted move is counted as a backtrack exactly when its destination
    already lies on the path; and each accepted move so far either entered a
    new cell or was counted as a backtrack: the number of distinct cells of
    the path plus the backtrack counter is the move counter plus one. *)
Theorem visitedCells_are_path_cells (N : Z) (shuffle : Shuffle) (now : Z)
    (es : list event) :
  (∀ k l, shuffle k l ≡ₚ l) → Z.odd N = true → 3 ≤ N →
  ∃ s0 s, startGame N shuffle now = Ok s0 ∧ run N es s0 = Ok s ∧
          s.(visitedCells) = list_to_set (key <$> s.(actualPath)) ∧
          (∀ k, key (destination s k) ∈ s.(visitedCells) ↔
                destination s k ∈ s.(actualPath)) ∧
          Z.of_nat (size (cells s.(actualPath))) + s.(backtrackCount) =
            s.(moveCount) + 1.
Proof.
  intros Hperm Hodd HN.
  destruct (episode_records N shuffle now es Hperm Hodd HN)
    as (s0 & s & Hstart & Hrun & _ & (_ & Hvis & Hback & _) & _).
  exists s0, s. split_and!; try done.
  - intros k. rewrite Hvis, elem_of_list_to_set, list_elem_of_fmap. split.
    + by intros (q & ->%(inj key) & ?).
    + intros ?. by eexists.
  - rewrite <-Hback, Hvis, keys_of_cells. by rewrite size_set_map_inj by apply _.
Qed.

Lemma visitedCells_are_path_cells_witness :
  ∃ s0 s, startGame MAZE_SIZE id_shuffle 0 = Ok s0 ∧
          run MAZE_SIZE [Press ArrowDown 1; Press ArrowUp 2; Press ArrowDown 3]
            s0 = Ok s ∧
          s.(visitedCells) = list_to_set (key <$> s.(actualPath)) ∧
          (∀ k, key (destination s k) ∈ s.(visitedCells) ↔
                destination s k ∈ s.(actualPath)) ∧
          Z.of_nat (size (cells s.(actualPath))) + s.(backtrackCount) =
            s.(moveCount) + 1.
Proof.
  apply (visitedCells_are_path_cells MAZE_SIZE id_shuffle 0).
  - intros k l. reflexivity.
  - reflexivity.
  - unfold MAZE_SIZE. lia.
Defined.

(** ** handleMove: the direction counters *)

(** X3.  In every episode and after every sequence of events, every attempt
    has been counted once: each direction counter is the number of presses
    of its key delivered while the game was on, the collision counter is the
    number of those presses whose destination was a wall, and the move
    counter is the number of the others; hence the four direction counters
    add up to the move counter plus the collision counter. *)
Theorem attempts_are_moves_or_collisions (N : Z) (shuffle : Shuffle) (now : Z)
    (es : list event) :
  (∀ k l, shuffle k l ≡ₚ l) → Z.odd N = true → 3 ≤ N →
  ∃ s0 s, startGame N shuffle now = Ok s0 ∧ run N es s0 = Ok s ∧
          (∀ k, MovePatterns.get k s.(movePatterns) =
                Z.of_nat (count_where N (attempt_of k) es s0)) ∧
          s.(wallCollisions) = Z.of_nat (count_where N collides es s0) ∧
          s.(moveCount) = Z.of_nat (count_accepted N es s0) ∧
          attempts s.(movePatterns) = s.(moveCount) + s.(wallCollisions).
Proof.
  intros Hperm Hodd HN.
  destruct (episode_records N shuffle now es Hperm Hodd HN)
    as (s0 & s & Hstart & Hrun & Hinv & (_ & _ & _ & _ & Hatt & _) & _).
  destruct (startGame_inv N shuffle now Hperm Hodd HN) as (s0' & Hs0 & Hinv0 & _).
  rewrite Hstart in Hs0. injection Hs0 as <-.
  destruct (run_counts N es s0 s 0 Hinv0 Hrun) as [Hget Hcoll].
  destruct (startGame_spec N shuffle now Hperm Hodd HN)
    as (g & q & _ & _ & Hs0 & _).
  rewrite Hstart in Hs0. injection Hs0 as Hs0.
  exists s0, s. split_and!; try done.
  - intros k. rewrite Hget, Hs0. destruct k; simpl; lia.
  - rewrite Hcoll, Hs0. simpl. lia.
  - by destruct Hinv as (_ & _ & _ & _ & _ & ? & _).
Qed.

Lemma attempts_are_moves_or_collisions_witness :
  ∃ s0 s, startGame MAZE_SIZE rev_shuffle 0 = Ok s0 ∧
          run MAZE_SIZE [Press ArrowUp 1; Press ArrowRight 2; Press ArrowRight 3]
            s0 = Ok s ∧
          (∀ k, MovePatterns.get k s.(movePatterns) =
                Z.of_nat (count_where MAZE_SIZE (attempt_of k)
                            [Press ArrowUp 1; Press ArrowRight 2; Press ArrowRight 3]
                            s0)) ∧
          s.(wallCollisions) =
            Z.of_nat (count_where MAZE_SIZE collides
                        [Press ArrowUp 1; Press ArrowRight 2; Press ArrowRight 3]
                        s0) ∧
          s.(moveCount) =
            Z.of_nat (count_accepted MAZE_SIZE
                        [Press ArrowUp 1; Press ArrowRight 2; Press ArrowRight 3]
                        s0) ∧
          attempts s.(movePatterns) = s.(moveCount) + s.(wallCollisions).
Proof.
  apply (attempts_are_moves_or_collisions MAZE_SIZE rev_shuffle 0).
  - intros k l. apply reverse_Permutation.
  - reflexivity.
  - unfold MAZE_SIZE. lia.
Defined.

(** ** handleMove: the heatmap, cell by cell *)

(** X4.  In every episode and after every sequence of events, each entry of
    the heatmap is the number of times the player entered that cell: the
    number of occurrences of the cell in the recorded path after its first
    element, the start of the episode not being an entry. *)
Theorem heatmap_counts_entries (N : Z) (shuffle : Shuffle) (now : Z)
    (es : list event) :
  (∀ k l, shuffle k l ≡ₚ l) → Z.odd N = true → 3 ≤ N →
  ∃ s0 s, startGame N shuffle now = Ok s0 ∧ run N es s0 = Ok s ∧
          ∀ p, 0 ≤ p.(x) < N → 0 ≤ p.(y) < N →
               at2 s.(heatmap) p.(x) p.(y) =
               Some (Z.of_nat (occurrences p (tail s.(actualPath)))).
Proof.
  intros Hperm Hodd HN.
  destruct (episode_records N shuffle now es Hperm Hodd HN)
    as (s0 & s & Hstart & Hrun & _ & (_ & _ & _ & _ & _ & Hheat) & _).
  by exists s0, s.
Qed.

Lemma heatmap_counts_entries_witness :
  ∃ s0 s, startGame MAZE_SIZE id_shuffle 0 = Ok s0 ∧
          run MAZE_SIZE [Press ArrowDown 1; Press ArrowUp 2; Press ArrowDown 3]
            s0 = Ok s ∧
          ∀ p, 0 ≤ p.(x) < MAZE_SIZE → 0 ≤ p.(y) < MAZE_SIZE →
               at2 s.(heatmap) p.(x) p.(y) =
               Some (Z.of_nat (occurrences p (tail s.(actualPath)))).
Proof.
  apply (heatmap_counts_entries MAZE_SIZE id_shuffle 0).
  - intros k l. reflexivity.
  - reflexivity.
  - unfold MAZE_SIZE. lia.
Defined.

(** ** The timer *)

(** X5.  In every episode on a maze of odd side at least 5 and after every
    sequence of events, the clock stays between 0 and 60; while the game is
    on it shows 60 less the number of timer firings so far, which is at
    least 1; hence after 60 firings, whatever keys were pressed in between,
    the game is over. *)
Theorem timer_ends_the_game (N : Z) (shuffle : Shuffle) (now : Z)
    (es : list event) :
  (∀ k l, shuffle k l ≡ₚ l) → Z.odd N = true → 5 ≤ N →
  ∃ s0 s, startGame N shuffle now = Ok s0 ∧ run N es s0 = Ok s ∧
          0 ≤ s.(timeLeft) ≤ 60 ∧
          (s.(gameState) = playing →
           s.(timeLeft) = 60 - Z.of_nat (ticks es) ∧ 1 ≤ s.(timeLeft)) ∧
          ((60 ≤ ticks es)%nat → s.(gameState) = gameOver).
Proof.
  intros Hperm Hodd HN.
  destruct (episode_records N shuffle now es Hperm Hodd)
    as (s0 & s & Hstart & Hrun & _ & _ & Hclock & _); [lia|].
  exists s0, s. split; [done|]. split; [done|].
  specialize (Hclock ltac:(lia)). unfold clock_inv in Hclock.
  destruct s.(gameState); [done| |].
  - destruct Hclock as (? & ? & _). split_and!; [lia|lia|done|lia].
  - split_and!; [destruct Hclock as [[_ ?]|[_ ?]]; lia..|done|done].
Qed.

Lemma timer_ends_the_game_witness :
  ∃ s0 s, startGame MAZE_SIZE id_shuffle 0 = Ok s0 ∧
          run MAZE_SIZE (Press ArrowDown 1 :: replicate 60 Tick) s0 = Ok s ∧
          0 ≤ s.(timeLeft) ≤ 60 ∧
          (s.(gameState) = playing →
           s.(timeLeft) =
             60 - Z.of_nat (ticks (Press ArrowDown 1 :: replicate 60 Tick)) ∧
           1 ≤ s.(timeLeft)) ∧
          ((60 ≤ ticks (Press ArrowDown 1 :: replicate 60 Tick))%nat →
           s.(gameState) = gameOver).
Proof.
  apply (timer_ends_the_game MAZE_SIZE id_shuffle 0).
  - intros k l. reflexivity.
  - reflexivity.
  - unfold MAZE_SIZE. lia.
Defined.

(** ** The end of an episode *)

(** X6.  In every episode on a maze of odd side at least 5 and after every
    sequence of events, the game is either on or over, and it is over
    exactly when the player stands on the exit or the clock shows 0; these
    two never hold together: an episode ends by reaching the exit in time or
    by running out of time away from the exit. *)
Theorem game_over_at_exit_or_timeout (N : Z) (shuffle : Shuffle) (now : Z)
    (es : list event) :
  (∀ k l, shuffle k l ≡ₚ l) → Z.odd N = true → 5 ≤ N →
  ∃ s0 s, startGame N shuffle now = Ok s0 ∧ run N es s0 = Ok s ∧
          s.(gameState) ≠ ready ∧
          (s.(gameState) = gameOver ↔
           s.(playerPos) = mkPoint (N - 2) (N - 2) ∨ s.(timeLeft) = 0) ∧
          ¬ (s.(playerPos) = mkPoint (N - 2) (N - 2) ∧ s.(timeLeft) = 0).
Proof.
  intros Hperm Hodd HN.
  destruct (episode_records N shuffle now es Hperm Hodd)
    as (s0 & s & Hstart & Hrun & _ & _ & Hclock & _); [lia|].
  exists s0, s. split; [done|]. split; [done|].
  specialize (Hclock ltac:(lia)). unfold clock_inv in Hclock.
  destruct s.(gameState); [done| |].
  - destruct Hclock as (? & ? & ?). split_and!; [done| |].
    + split; [done|]. intros [?|?]; [done|lia].
    + intros [? _]. done.
  - split_and!; [done| |].
    + split; [|done]. intros _. destruct Hclock as [[? _]|[_ ?]]; [by left|by right].
    + intros [? ?]. destruct Hclock as [[_ ?]|[? _]]; [lia|done].
Qed.

Lemma game_over_at_exit_or_timeout_witness :
  ∃ s0 s, startGame MAZE_SIZE rev_shuffle 0 = Ok s0 ∧
          run MAZE_SIZE (replicate 59 Tick ++ [Press ArrowRight 1; Tick]) s0 = Ok s ∧
          s.(gameState) ≠ ready ∧
          (s.(gameState) = gameOver ↔
           s.(playerPos) = mkPoint (MAZE_SIZE - 2) (MAZE_SIZE - 2) ∨
           s.(timeLeft) = 0) ∧
          ¬ (s.(playerPos) = mkPoint (MAZE_SIZE - 2) (MAZE_SIZE - 2) ∧
             s.(timeLeft) = 0).
Proof.
  apply (game_over_at_exit_or_timeout MAZE_SIZE rev_shuffle 0).
  - intros k l. apply reverse_Permutation.
  - reflexivity.
  - unfold MAZE_SIZE. lia.
Defined.

(** X7.  Once the game is not on (before [startGame] or after the end of an
    episode), no key press and no firing of the timer changes anything: from
    any such state, whatever its maze, every sequence of events runs without
    a fault and leaves every state variable as it was. *)
Theorem game_over_is_final (N : Z) (es : list event) (s : State) :
  s.(gameState) ≠ playing → run N es s = Ok s.
Proof.
  intros Hover. induction es as [|e es IH]; [done|].
  unfold run in *. simpl.
  assert (step N e s = Ok s) as ->; [|done].
  destruct e as [k now|]; simpl.
  - unfold handleMove. by rewrite decide_True.
  - unfold tick. by rewrite decide_False.
Qed.

Lemma game_over_is_final_witness :
  run 5 [Press ArrowDown 61; Tick; Press ArrowRight 62]
    (Nat.iter 60 tick ring5_state) = Ok (Nat.iter 60 tick ring5_state).
Proof.
  apply (game_over_is_final 5). vm_compute. discriminate.
Defined.

(** ** handleMove: the record of a completed episode *)

(** X8.  When a move of an episode reaches the exit, the game is over and
    the record handed to [onComplete] is consistent: its actual path is a
    path of the maze from the start cell to the exit, with one cell more
    than the reported path length, which is also the reported number of
    moves; its optimal path is the one computed at the start, and has at
    most as many cells as the actual path, so that the reported efficiency,
    the optimal cells divided by the moves, exceeds 1 on a shortest run; and
    the reported deviation is the deviation of these two paths. *)
Theorem completion_record_path (N : Z) (shuffle : Shuffle) (now : Z)
    (es : list event) (k : Key) (now' : Z) (s0 s s' : State) (m : Metrics.t) :
  (∀ k l, shuffle k l ≡ₚ l) → Z.odd N = true → 3 ≤ N →
  startGame N shuffle now = Ok s0 → run N es s0 = Ok s →
  handleMove N (key_direction k) k now' s = Ok (s', Some m) →
  s'.(gameState) = gameOver ∧
  route s0.(maze) (mkPoint 1 1) (mkPoint (N - 2) (N - 2)) (Metrics.actualPath m) ∧
  Z.of_nat (length (Metrics.actualPath m)) = Metrics.pathLength m + 1 ∧
  Metrics.totalMoves m = Metrics.pathLength m ∧
  Metrics.optimalPath m = s0.(optimalPath) ∧
  Metrics.optimalPathLength m = Z.of_nat (length s0.(optimalPath)) ∧
  Metrics.optimalPathLength m ≤ Metrics.pathLength m + 1 ∧
  Metrics.pathEfficiency m =
    js_div (Metrics.optimalPathLength m) (Metrics.pathLength m) ∧
  Metrics.pathDeviation m =
    calculatePathDeviation (Metrics.optimalPath m) (Metrics.actualPath m).
Proof.
  intros Hperm Hodd HN Hstart Hrun Hmove.
  destruct (episode_records N shuffle now es Hperm Hodd HN)
    as (s0' & s1 & Hstart' & Hrun' & Hinv & Htr & _ & Hmaze & Hopt & Hshort & Hq).
  rewrite Hstart in Hstart'. injection Hstart' as <-.
  rewrite Hrun in Hrun'. injection Hrun' as <-.
  destruct (decide (s.(gameState) = playing)) as [Hplay|Hplay]; cycle 1.
  { unfold handleMove in Hmove. by rewrite decide_True in Hmove. }
  destruct (decide (cell_at s.(maze) (destination s k) = Some WALL)) as [Hw|Hw].
  { by rewrite (handleMove_collision N k now' s Hplay Hw) in Hmove. }
  destruct (handleMove_enter N k now' s _ Hinv Hplay Hw)
    as (h' & fh & Hopen & Hincr & Heq).
  rewrite Heq in Hmove. clear Heq.
  case_bool_decide as Hexit; [|done]. injection Hmove as <- <-.
  assert (destination s k = mkPoint (N - 2) (N - 2)) as Hdest.
  { destruct (destination s k), Hexit; simplify_eq/=. done. }
  destruct Htr as (Hroute & _).
  pose proof Hinv as (_ & _ & _ & _ & _ & Hcount & Hlen & Hhist).
  assert (route s0.(maze) (mkPoint 1 1) (mkPoint (N - 2) (N - 2))
            (s.(actualPath) ++ [destination s k])) as Hfull.
  { rewrite <-Hmaze, <-Hdest. apply (route_snoc _ _ s.(playerPos)); try done.
    apply adjacent_destination. }
  cbn [gameState completionMetrics Metrics.actualPath Metrics.pathLength
       Metrics.totalMoves Metrics.optimalPath Metrics.optimalPathLength
       Metrics.pathEfficiency Metrics.pathDeviation].
  split_and!; try done.
  - rewrite length_app, Hlen, Hhist. simpl. lia.
  - rewrite Hcount, Hhist. done.
  - by rewrite Hopt.
  - destruct Hshort as [[_ Hnone]|[_ Hmin]]; [by destruct (Hnone _ Hfull)|].
    apply Hmin in Hfull. rewrite length_app, Hlen in Hfull. simpl in Hfull.
    rewrite Hopt, Hhist. lia.
Qed.

Lemma completion_record_path_witness :
  ∃ s0 s s' m,
    startGame 5 id_shuffle 0 = Ok s0 ∧
    run 5 [Press ArrowDown 1; Press ArrowDown 2; Press ArrowRight 3] s0 = Ok s ∧
    handleMove 5 (key_direction ArrowRight) ArrowRight 4 s = Ok (s', Some m) ∧
    Metrics.optimalPathLength m = 5 ∧ Metrics.pathLength m = 4 ∧
    Metrics.optimalPathLength m ≤ Metrics.pathLength m + 1.
Proof.
  destruct (startGame 5 id_shuffle 0) as [s0|] eqn:Hs0; [|by vm_compute in Hs0].
  destruct (run 5 [Press ArrowDown 1; Press ArrowDown 2; Press ArrowRight 3] s0)
    as [s|] eqn:Hs; [|by vm_compute in Hs0; injection Hs0 as <-; vm_compute in Hs].
  destruct (handleMove 5 (key_direction ArrowRight) ArrowRight 4 s)
    as [[s' [m|]]|] eqn:Hm;
    [|by vm_compute in Hs0; injection Hs0 as <-; vm_compute in Hs;
         injection Hs as <-; vm_compute in Hm..].
  exists s0, s, s', m. split_and!; try done.
  - vm_compute in Hs0. injection Hs0 as <-. vm_compute in Hs. injection Hs as <-.
    vm_compute in Hm. by injection Hm as <- <-.
  - vm_compute in Hs0. injection Hs0 as <-. vm_compute in Hs. injection Hs as <-.
    vm_compute in Hm. by injection Hm as <- <-.
  - apply (completion_record_path 5 id_shuffle 0
             [Press ArrowDown 1; Press ArrowDown 2; Press ArrowRight 3]
             ArrowRight 4 s0 s s' m); done.
Defined.

(** ** The two records of a completed episode *)

(** X9.  An episode on a maze of odd side at least 5 that ends on the exit
    yields two records: the one built by [handleMove] on the final move and
    the one built by the Next Game button afterwards.  They agree on the
    numbers of moves, collisions and backtracks, on the path length, the
    optimal path and its length, the efficiency, the deviation and the
    heatmap.  They differ in the direction counters, which in the first
    record are the ones captured before the final move and add up to one
    less than its moves plus collisions, and in the actual path, to which
    the second record appends the exit once more. *)
Theorem completion_records_agree (N : Z) (shuffle : Shuffle) (now : Z)
    (es : list event) (k : Key) (now1 now2 : Z) (s0 s s' : State)
    (m : Metrics.t) :
  (∀ k l, shuffle k l ≡ₚ l) → Z.odd N = true → 5 ≤ N →
  startGame N shuffle now = Ok s0 → run N es s0 = Ok s →
  handleMove N (key_direction k) k now1 s = Ok (s', Some m) →
  Metrics.totalMoves (nextGameMetrics N s' now2) = Metrics.totalMoves m ∧
  Metrics.wallCollisions (nextGameMetrics N s' now2) = Metrics.wallCollisions m ∧
  Metrics.backtrackCount (nextGameMetrics N s' now2) = Metrics.backtrackCount m ∧
  Metrics.pathLength (nextGameMetrics N s' now2) = Metrics.pathLength m ∧
  Metrics.optimalPath (nextGameMetrics N s' now2) = Metrics.optimalPath m ∧
  Metrics.optimalPathLength (nextGameMetrics N s' now2) =
    Metrics.optimalPathLength m ∧
  Metrics.pathEfficiency (nextGameMetrics N s' now2) = Metrics.pathEfficiency m ∧
  Metrics.pathDeviation (nextGameMetrics N s' now2) = Metrics.pathDeviation m ∧
  Metrics.heatmap (nextGameMetrics N s' now2) = Metrics.heatmap m ∧
  Metrics.movementPatterns (nextGameMetrics N s' now2) =
    MovePatterns.bump k (Metrics.movementPatterns m) ∧
  attempts (Metrics.movementPatterns m) =
    Metrics.totalMoves m + Metrics.wallCollisions m - 1 ∧
  Metrics.actualPath (nextGameMetrics N s' now2) =
    Metrics.actualPath m ++ [mkPoint (N - 2) (N - 2)].
Proof.
  intros Hperm Hodd HN Hstart Hrun Hmove.
  destruct (episode_records N shuffle now es Hperm Hodd)
    as (s0' & s1 & Hstart' & Hrun' & Hinv & Htr & _); [lia|].
  rewrite Hstart in Hstart'. injection Hstart' as <-.
  rewrite Hrun in Hrun'. injection Hrun' as <-.
  assert (exit_fresh N s) as Hfresh.
  { destruct (startGame_inv N shuffle now Hperm Hodd) as (s0' & Hs0 & Hinv0 & _);
      [lia|].
    rewrite Hstart in Hs0. injection Hs0 as <-.
    apply (run_exit_fresh N es s0 s 0); try done.
    destruct (startGame_spec N shuffle now Hperm Hodd)
      as (g & q & _ & _ & Hs0 & _); [lia|].
    rewrite Hstart in Hs0. injection Hs0 as ->.
    intros _. cbn [actualPath]. rewrite list_elem_of_singleton.
    intros [= ?]. lia. }
  destruct (decide (s.(gameState) = playing)) as [Hplay|Hplay]; cycle 1.
  { unfold handleMove in Hmove. by rewrite decide_True in Hmove. }
  destruct (decide (cell_at s.(maze) (destination s k) = Some WALL)) as [Hw|Hw].
  { by rewrite (handleMove_collision N k now1 s Hplay Hw) in Hmove. }
  destruct (handleMove_enter N k now1 s _ Hinv Hplay Hw)
    as (h' & fh & Hopen & Hincr & Heq).
  rewrite Heq in Hmove. clear Heq.
  case_bool_decide as Hexit; [|done]. injection Hmove as <- <-.
  assert (destination s k = mkPoint (N - 2) (N - 2)) as Hdest.
  { destruct (destination s k), Hexit; simplify_eq/=. done. }
  destruct Htr as (_ & Hvis & _ & _ & Hatt & _).
  pose proof Hinv as (_ & _ & _ & _ & _ & Hcount & Hlen & Hhist).
  assert (key (destination s k) ∉ s.(visitedCells)) as Hnew.
  { rewrite Hvis, elem_of_list_to_set, list_elem_of_fmap.
    intros (q & Heq%(inj key) & Hq). apply (Hfresh Hplay).
    by rewrite <-Hdest, Heq. }
  cbn [nextGameMetrics completionMetrics moveCount wallCollisions
       backtrackCount movementHistory optimalPath pathDeviation heatmap
       movePatterns actualPath
       Metrics.totalMoves Metrics.wallCollisions Metrics.backtrackCount
       Metrics.pathLength Metrics.optimalPath Metrics.optimalPathLength
       Metrics.pathEfficiency Metrics.pathDeviation Metrics.heatmap
       Metrics.movementPatterns Metrics.actualPath].
  split_and!; try done.
  - by rewrite decide_False.
  - rewrite length_app. simpl. lia.
  - rewrite length_app. simpl. do 2 f_equal. lia.
  - lia.
Qed.

Lemma completion_records_agree_witness :
  ∃ s0 s s' m,
    startGame 5 id_shuffle 0 = Ok s0 ∧
    run 5 [Press ArrowDown 1; Press ArrowUp 2; Press ArrowDown 3;
           Press ArrowLeft 4; Press ArrowDown 5; Press ArrowRight 6] s0 = Ok s ∧
    handleMove 5 (key_direction ArrowRight) ArrowRight 7 s = Ok (s', Some m) ∧
    Metrics.totalMoves (nextGameMetrics 5 s' 9) = Metrics.totalMoves m ∧
    Metrics.movementPatterns (nextGameMetrics 5 s' 9) =
      MovePatterns.bump ArrowRight (Metrics.movementPatterns m) ∧
    attempts (Metrics.movementPatterns m) =
      Metrics.totalMoves m + Metrics.wallCollisions m - 1.
Proof.
  destruct (startGame 5 id_shuffle 0) as [s0|] eqn:Hs0; [|by vm_compute in Hs0].
  destruct (run 5 [Press ArrowDown 1; Press ArrowUp 2; Press ArrowDown 3;
                   Press ArrowLeft 4; Press ArrowDown 5; Press ArrowRight 6] s0)
    as [s|] eqn:Hs; [|by vm_compute in Hs0; injection Hs0 as <-; vm_compute in Hs].
  destruct (handleMove 5 (key_direction ArrowRight) ArrowRight 7 s)
    as [[s' [m|]]|] eqn:Hm;
    [|by vm_compute in Hs0; injection Hs0 as <-; vm_compute in Hs;
         injection Hs as <-; vm_compute in Hm..].
  exists s0, s, s', m.
  destruct (completion_records_agree 5 id_shuffle 0
              [Press ArrowDown 1; Press ArrowUp 2; Press ArrowDown 3;
               Press ArrowLeft 4; Press ArrowDown 5; Press ArrowRight 6]
              ArrowRight 7 9 s0 s s' m)
    as (H1 & _ & _ & _ & _ & _ & _ & _ & _ & H2 & H3 & _); try done.
Defined.

(** ** startGame: the optimal path of an episode *)

(** X10.  For every odd side of at least 3 and whatever the shuffles, the
    optimal path stored by [startGame] is a path of the generated maze from
    the start cell to the exit, no path between them has fewer cells, it
    visits no cell twice, and its number of cells lies between [2 N - 5]
    and the number of open cells of the maze (from 37 to 199 on the 21 by 21
    grid): it is never empty. *)
Theorem startGame_optimalPath (N : Z) (shuffle : Shuffle) (now : Z) :
  (∀ k l, shuffle k l ≡ₚ l) → Z.odd N = true → 3 ≤ N →
  ∃ s0, startGame N shuffle now = Ok s0 ∧
        route s0.(maze) (mkPoint 1 1) (mkPoint (N - 2) (N - 2)) s0.(optimalPath) ∧
        (∀ l, route s0.(maze) (mkPoint 1 1) (mkPoint (N - 2) (N - 2)) l →
              (length s0.(optimalPath) ≤ length l)%nat) ∧
        NoDup s0.(optimalPath) ∧
        2 * N - 5 ≤ Z.of_nat (length s0.(optimalPath)) ≤
          2 * ((N - 1) / 2 * ((N - 1) / 2)) - 1.
Proof.
  intros Hperm Hodd HN.
  destruct (episode_records N shuffle now [] Hperm Hodd HN)
    as (s0 & s & Hstart & [= <-] & Hinv & _ & _ & _ & _ & Hshort & Hq).
  exists s0. split; [done|]. split; [done|].
  assert (∀ l, route s0.(maze) (mkPoint 1 1) (mkPoint (N - 2) (N - 2)) l →
               (length s0.(optimalPath) ≤ length l)%nat) as Hmin.
  { destruct Hshort as [[Hnil _]|[_ ?]]; [|done].
    rewrite Hnil in Hq. by destruct Hq as [_ [? _]]. }
  pose proof (shortest_NoDup _ _ _ _ Hq Hmin) as Hnd.
  split_and!; try done.
  - destruct Hq as [[_ Hch] Hconn].
    pose proof (chain_manhattan _ _ _ Hch Hconn) as Hman. simpl in Hman. lia.
  - destruct (generateMaze_cells N shuffle Hperm HN)
      as (g & g' & Hgen & (Hsq' & _ & _ & Hcount) & Hall & Hcell).
    destruct (startGame_spec N shuffle now Hperm Hodd HN)
      as (g1 & q1 & Hgen1 & _ & Hstart1 & _).
    rewrite Hgen in Hgen1. injection Hgen1 as <-.
    rewrite Hstart in Hstart1. injection Hstart1 as Hs0.
    assert (s0.(maze) = g) as Hmaze by by rewrite Hs0.
    assert (∀ p, open_cell g p ↔ open_cell g' p) as Hsame.
    { intros p. unfold open_cell at 1. rewrite Hcell.
      destruct (decide (p = _)) as [->|?].
      { split; [|done]. intros _. by apply Hall, node_exit. }
      destruct (decide (p = _)) as [->|?]; [|done].
      split; [|done]. intros _. by apply Hall, node_start. }
    assert (length s0.(optimalPath) ≤ open_count N g')%nat as Hle.
    { unfold open_count. apply submseteq_length, NoDup_submseteq; [done|].
      intros p Hp. apply list_elem_of_filter.
      destruct Hq as [[Hopen _] _].
      rewrite Forall_forall in Hopen. specialize (Hopen p Hp).
      rewrite Hmaze in Hopen. split; [by apply Hsame|].
      apply elem_of_all_points.
      apply (open_cell_bounds N g'); [done|by apply Hsame]. }
    assert (node_count N g' = length (filter (node N) (all_points N))) as Hnodes.
    { apply length_filter_ext. intros p _. split; [by intros [? _]|].
      intros ?. split; [done|by apply Hall]. }
    pose proof (node_total N Hodd HN). lia.
Qed.

Lemma startGame_optimalPath_witness :
  ∃ s0, startGame MAZE_SIZE rev_shuffle 0 = Ok s0 ∧
        route s0.(maze) (mkPoint 1 1) (mkPoint (MAZE_SIZE - 2) (MAZE_SIZE - 2))
          s0.(optimalPath) ∧
        (∀ l, route s0.(maze) (mkPoint 1 1)
                (mkPoint (MAZE_SIZE - 2) (MAZE_SIZE - 2)) l →
              (length s0.(optimalPath) ≤ length l)%nat) ∧
        NoDup s0.(optimalPath) ∧
        2 * MAZE_SIZE - 5 ≤ Z.of_nat (length s0.(optimalPath)) ≤
          2 * ((MAZE_SIZE - 1) / 2 * ((MAZE_SIZE - 1) / 2)) - 1.
Proof.
  apply (startGame_optimalPath MAZE_SIZE rev_shuffle 0).
  - intros k l. apply reverse_Permutation.
  - reflexivity.
  - unfold MAZE_SIZE. lia.
Defined.

(** ** findOptimalPath: simple and symmetric *)

(** X11.  On every square grid and from every open start cell, the path
    returned by [findOptimalPath] visits no cell twice; when it is not
    empty, it begins with the start cell and ends with the target. *)
Theorem findOptimalPath_visits_no_cell_twice (N : Z) (maze : Grid)
    (start end_ : Point) :
  square N maze → open_cell maze start →
  ∃ q, findOptimalPath N maze start end_ = Ok q ∧ NoDup q ∧
       (q ≠ [] → head q = Some start ∧ last q = Some end_).
Proof.
  intros Hsq Hstart.
  destruct (findOptimalPath_correct N maze start end_ Hsq Hstart)
    as (q & Hfind & [[-> _]|[Hq Hmin]]).
  - exists []. split_and!; [done|constructor|done].
  - exists q. split_and!; [done| |].
    + by apply (shortest_NoDup maze start end_).
    + intros _. by destruct Hq as [_ ?].
Qed.

Lemma findOptimalPath_visits_no_cell_twice_witness :
  ∃ q, findOptimalPath 5 ring5 (mkPoint 1 1) (mkPoint 3 3) = Ok q ∧ NoDup q ∧
       (q ≠ [] → head q = Some (mkPoint 1 1) ∧ last q = Some (mkPoint 3 3)).
Proof.
  apply (findOptimalPath_visits_no_cell_twice 5 ring5 (mkPoint 1 1) (mkPoint 3 3)).
  - vm_compute. split; [reflexivity|]. repeat constructor.
  - vm_compute. discriminate.
Defined.

(** X12.  On every square grid and for every two open cells, the search from
    the one to the other and the search back both end without a fault and
    return paths with the same number of cells (both empty when the cells
    are not connected), although the paths themselves may differ. *)
Theorem findOptimalPath_symmetric_length (N : Z) (maze : Grid) (a b : Point) :
  square N maze → open_cell maze a → open_cell maze b →
  ∃ q1 q2, findOptimalPath N maze a b = Ok q1 ∧
           findOptimalPath N maze b a = Ok q2 ∧
           length q1 = length q2.
Proof.
  intros Hsq Ha Hb.
  destruct (findOptimalPath_correct N maze a b Hsq Ha) as (q1 & Hfind1 & Hq1).
  destruct (findOptimalPath_correct N maze b a Hsq Hb) as (q2 & Hfind2 & Hq2).
  exists q1, q2. split_and!; try done.
  destruct Hq1 as [[-> Hnone1]|[Hr1 Hmin1]], Hq2 as [[-> Hnone2]|[Hr2 Hmin2]].
  - done.
  - by destruct (Hnone1 _ (route_rev _ _ _ _ Hr2)).
  - by destruct (Hnone2 _ (route_rev _ _ _ _ Hr1)).
  - pose proof (Hmin1 _ (route_rev _ _ _ _ Hr2)) as H1.
    pose proof (Hmin2 _ (route_rev _ _ _ _ Hr1)) as H2.
    rewrite length_reverse in H1, H2. lia.
Qed.

Lemma findOptimalPath_symmetric_length_witness :
  ∃ q1 q2, findOptimalPath 5 ring5 (mkPoint 1 1) (mkPoint 3 3) = Ok q1 ∧
           findOptimalPath 5 ring5 (mkPoint 3 3) (mkPoint 1 1) = Ok q2 ∧
           length q1 = length q2.
Proof.
  apply (findOptimalPath_symmetric_length 5 ring5 (mkPoint 1 1) (mkPoint 3 3)).
  - vm_compute. split; [reflexivity|]. repeat constructor.
  - vm_compute. discriminate.
  - vm_compute. discriminate.
Defined.

(** ** generateMaze: the cells of the grid *)

Lemma length_filter_split {A : Type} (P Q : A → Prop)
    `{!∀ a, Decision (P a), !∀ a, Decision (Q a)} (l : list A) :
  (∀ a, a ∈ l → P a ↔ ¬ Q a) →
  (length (filter P l) + length (filter Q l) = length l)%nat.
Proof.
  induction l as [|a l IH]; intros HPQ; [done|].
  rewrite !filter_cons.
  specialize (IH (λ a' Ha', HPQ a' (list_elem_of_further _ _ _ Ha'))).
  pose proof (HPQ a (list_elem_of_here _ _)) as Ha.
  destruct (decide (P a)) as [HP|HP], (decide (Q a)) as [HQ|HQ]; simpl; try lia.
  - by apply Ha in HP.
  - destruct HP. by apply Ha.
Qed.

Lemma length_all_points (N : Z) :
  0 ≤ N → length (all_points N) = Z.to_nat (N * N).
Proof.
  intros HN. unfold all_points. rewrite (length_bind_const _ _ (Z.to_nat N)).
  - rewrite length_seqZ, Z2Nat.inj_mul by lia. lia.
  - intros i. rewrite (length_bind_const _ _ 1%nat); [|done].
    rewrite length_seqZ. lia.
Qed.

(** X13.  For every odd side [N] of at least 3 and whatever the shuffles,
    the generated grid has exactly [2 n - 1] open cells, [n] being the number
    [((N - 1) / 2)²] of carveable cells: the carveable cells and one
    connecting passage for each of them but the first; all other cells are
    walls (199 open cells and 242 walls on the 21 by 21 grid). *)
Theorem generateMaze_open_cells (N : Z) (shuffle : Shuffle) :
  (∀ k l, shuffle k l ≡ₚ l) → Z.odd N = true → 3 ≤ N →
  ∃ g, generateMaze N shuffle = Ok g ∧
       Z.of_nat (open_count N g) = 2 * ((N - 1) / 2 * ((N - 1) / 2)) - 1 ∧
       Z.of_nat (wall_count N g) =
         N * N - (2 * ((N - 1) / 2 * ((N - 1) / 2)) - 1).
Proof.
  intros Hperm Hodd HN.
  destruct (generateMaze_cells N shuffle Hperm HN)
    as (g & g' & Hgen & (Hsq' & _ & _ & Hcount) & Hall & Hcell).
  destruct (generateMaze_spec N shuffle Hperm Hodd HN) as (g1 & Hgen1 & Hsq & _).
  rewrite Hgen in Hgen1. injection Hgen1 as <-.
  exists g. split; [done|].
  assert (∀ p, open_cell g p ↔ open_cell g' p) as Hsame.
  { intros p. unfold open_cell at 1. rewrite Hcell.
    destruct (decide (p = _)) as [->|?].
    { split; [|done]. intros _. by apply Hall, node_exit. }
    destruct (decide (p = _)) as [->|?]; [|done].
    split; [|done]. intros _. by apply Hall, node_start. }
  assert (open_count N g = open_count N g') as Hopen.
  { apply length_filter_ext. intros p _. apply Hsame. }
  assert (node_count N g' = length (filter (node N) (all_points N))) as Hnodes.
  { apply length_filter_ext. intros p _. split; [by intros [? _]|].
    intros ?. split; [done|by apply Hall]. }
  pose proof (node_total N Hodd HN) as Htotal.
  assert (Z.of_nat (open_count N g) = 2 * ((N - 1) / 2 * ((N - 1) / 2)) - 1)
    as Hresult by lia.
  split; [done|].
  assert (wall_count N g + open_count N g = length (all_points N))%nat as Hsplit.
  { apply length_filter_split. intros p [Hx Hy]%elem_of_all_points.
    destruct (at2_in_bounds N g p.(x) p.(y) Hsq Hx Hy) as [c Hc].
    unfold open_cell, cell_at. rewrite Hc. split.
    - intros [= ->] ?. done.
    - intros Hno. destruct (decide (c = WALL)) as [->|?]; [done|].
      by destruct Hno. }
  rewrite length_all_points in Hsplit by lia. nia.
Qed.

Lemma generateMaze_open_cells_witness :
  ∃ g, generateMaze MAZE_SIZE id_shuffle = Ok g ∧
       Z.of_nat (open_count MAZE_SIZE g) = 199 ∧
       Z.of_nat (wall_count MAZE_SIZE g) = 242.
Proof.
  apply (generateMaze_open_cells MAZE_SIZE id_shuffle).
  - intros k l. reflexivity.
  - reflexivity.
  - unfold MAZE_SIZE. lia.
Defined.

(** X14.  For every side of at least 3, odd or even, and whatever the
    shuffles, the generated grid holds the exit marker on the cell
    [(N-2, N-2)], the player marker on the cell (1,1) unless that is the exit
    (side 3), and on every other cell either a wall or a passage: each
    marker occurs once, and no cell holds anything else. *)
Theorem generateMaze_cell_contents (N : Z) (shuffle : Shuffle) :
  (∀ k l, shuffle k l ≡ₚ l) → 3 ≤ N →
  ∃ g, generateMaze N shuffle = Ok g ∧
       cell_at g (mkPoint (N - 2) (N - 2)) = Some EXIT ∧
       (N ≠ 3 → cell_at g (mkPoint 1 1) = Some PLAYER) ∧
       ∀ p c, cell_at g p = Some c →
              p ≠ mkPoint 1 1 → p ≠ mkPoint (N - 2) (N - 2) →
              c = WALL ∨ c = PATH.
Proof.
  intros Hperm HN.
  destruct (generateMaze_cells N shuffle Hperm HN)
    as (g & g' & Hgen & (_ & _ & Hcont & _) & _ & Hcell).
  exists g. split_and!; [done| | |].
  - rewrite Hcell. by rewrite decide_True.
  - intros HN3. rewrite Hcell.
    rewrite decide_False by (intros [= Heq]; lia).
    by rewrite decide_True.
  - intros p c Hc Hp1 Hp2. rewrite Hcell in Hc.
    rewrite !decide_False in Hc by done. by apply (Hcont p).
Qed.

Lemma generateMaze_cell_contents_witness :
  ∃ g, generateMaze 6 rev_shuffle = Ok g ∧
       cell_at g (mkPoint (6 - 2) (6 - 2)) = Some EXIT ∧
       (6 ≠ 3 → cell_at g (mkPoint 1 1) = Some PLAYER) ∧
       ∀ p c, cell_at g p = Some c →
              p ≠ mkPoint 1 1 → p ≠ mkPoint (6 - 2) (6 - 2) →
              c = WALL ∨ c = PATH.
Proof.
  apply (generateMaze_cell_contents 6 rev_shuffle).
  - intros k l. apply reverse_Permutation.
  - lia.
Defined.

(** ** calculatePathDeviation: a distance between cell sets *)

(** X15.  The deviation behaves as a distance between the sets of cells of
    two paths: it is zero exactly when the two paths have the same cells, it
    obeys the triangle inequality, and it is at most the number of distinct
    cells of the one plus that of the other. *)
Theorem pathDeviation_is_a_distance (A B C : list Point) :
  (calculatePathDeviation A B = 0 ↔ cells A = cells B) ∧
  calculatePathDeviation A C ≤
    calculatePathDeviation A B + calculatePathDeviation B C ∧
  0 ≤ calculatePathDeviation A B ≤
    Z.of_nat (size (cells A)) + Z.of_nat (size (cells B)).
Proof.
  rewrite !calculatePathDeviation_size. split_and!.
  - split.
    + intros Hzero.
      assert (size (cells B ∖ cells A) = 0%nat) as H1 by lia.
      assert (size (cells A ∖ cells B) = 0%nat) as H2 by lia.
      apply size_empty_inv in H1, H2. apply set_eq. intros p. split.
      * intros Hp. destruct (decide (p ∈ cells B)) as [?|Hno]; [done|].
        assert (p ∈ cells A ∖ cells B) as Hd by by apply elem_of_difference.
        apply H2 in Hd. by apply elem_of_empty in Hd.
      * intros Hp. destruct (decide (p ∈ cells A)) as [?|Hno]; [done|].
        assert (p ∈ cells B ∖ cells A) as Hd by by apply elem_of_difference.
        apply H1 in Hd. by apply elem_of_empty in Hd.
    + intros ->. by rewrite difference_diag_L, size_empty.
  - assert (cells C ∖ cells A ⊆ (cells B ∖ cells A) ∪ (cells C ∖ cells B)) as H1.
    { intros p [? ?]%elem_of_difference. apply elem_of_union.
      destruct (decide (p ∈ cells B)); [left|right]; by apply elem_of_difference. }
    assert (cells A ∖ cells C ⊆ (cells A ∖ cells B) ∪ (cells B ∖ cells C)) as H2.
    { intros p [? ?]%elem_of_difference. apply elem_of_union.
      destruct (decide (p ∈ cells B)); [right|left]; by apply elem_of_difference. }
    apply subseteq_size in H1, H2.
    pose proof (size_union_alt (cells B ∖ cells A) (cells C ∖ cells B)) as H3.
    pose proof (size_union_alt (cells A ∖ cells B) (cells B ∖ cells C)) as H4.
    pose proof (subseteq_size ((cells C ∖ cells B) ∖ (cells B ∖ cells A))
                  (cells C ∖ cells B)
                  (subseteq_difference_l _ _ _ (reflexivity _))).
    pose proof (subseteq_size ((cells B ∖ cells C) ∖ (cells A ∖ cells B))
                  (cells B ∖ cells C)
                  (subseteq_difference_l _ _ _ (reflexivity _))).
    lia.
  - lia.
  - pose proof (subseteq_size (cells B ∖ cells A) (cells B)
                  (subseteq_difference_l _ _ _ (reflexivity _))).
    pose proof (subseteq_size (cells A ∖ cells B) (cells A)
                  (subseteq_difference_l _ _ _ (reflexivity _))).
    lia.
Qed.

(** ** PatternPuzzler: handleTileClick and the timer *)

(** X16.  Whatever handlers of PatternPuzzler have run since the component
    was mounted (starts, scheduled pattern extensions with whatever pattern
    they captured, ends of presentations, timer firings, clicks on any
    tiles), the level is at least 1 and the score is ten times the sum of the
    levels completed so far, [5 * level * (level - 1)]; this is the score
    that [handleComplete] reports. *)
Theorem pattern_score_is_level_sum (es : list PatternPuzzler.event) :
  1 ≤ (PatternPuzzler.run es PatternPuzzler.initial).(PatternPuzzler.level) ∧
  (PatternPuzzler.run es PatternPuzzler.initial).(PatternPuzzler.score) =
    5 * (PatternPuzzler.run es PatternPuzzler.initial).(PatternPuzzler.level) *
    ((PatternPuzzler.run es PatternPuzzler.initial).(PatternPuzzler.level) - 1) ∧
  PatternPuzzler.handleComplete (PatternPuzzler.run es PatternPuzzler.initial) =
    5 * (PatternPuzzler.run es PatternPuzzler.initial).(PatternPuzzler.level) *
    ((PatternPuzzler.run es PatternPuzzler.initial).(PatternPuzzler.level) - 1).
Proof.
  destruct (pattern_run_inv es PatternPuzzler.initial) as (Hlevel & Hscore & _).
  { split_and!; simpl; try done; lia. }
  by split_and!.
Qed.

(** X17.  Whatever handlers of PatternPuzzler have run, the clock is between
    0 and 60, and whenever the game is over (after a wrong tile or when the
    clock ran out) the highest level recorded is at least the level
    reached. *)
Theorem pattern_game_over_records_level (es : list PatternPuzzler.event) :
  0 ≤ (PatternPuzzler.run es PatternPuzzler.initial).(PatternPuzzler.timeLeft) ≤ 60 ∧
  ((PatternPuzzler.run es PatternPuzzler.initial).(PatternPuzzler.gameState) =
     PatternPuzzler.gameOver →
   (PatternPuzzler.run es PatternPuzzler.initial).(PatternPuzzler.level) ≤
   (PatternPuzzler.run es PatternPuzzler.initial).(PatternPuzzler.highestLevel)).
Proof.
  destruct (pattern_run_inv es PatternPuzzler.initial) as (_ & _ & Htime & Hover).
  { split_and!; simpl; try done; lia. }
  by split.
Qed.

Lemma pattern_run_app (es1 es2 : list PatternPuzzler.event)
    (s : PatternPuzzler.State) :
  PatternPuzzler.run (es1 ++ es2) s =
  PatternPuzzler.run es2 (PatternPuzzler.run es1 s).
Proof. unfold PatternPuzzler.run. apply foldl_app. Qed.

(** A session of [length rs] levels from a state with no pending input. *)
Lemma perfect_session_from (rs shown : list Z) (s : PatternPuzzler.State) :
  s.(PatternPuzzler.playerInput) = [] →
  PatternPuzzler.run (PatternPuzzler.perfect_session rs shown) s =
  {| PatternPuzzler.gameState :=
       match rs with
       | [] => s.(PatternPuzzler.gameState)
       | _ => PatternPuzzler.input
       end;
     PatternPuzzler.pattern :=
       match rs with
       | [] => s.(PatternPuzzler.pattern)
       | _ => shown ++ rs
       end;
     PatternPuzzler.playerInput := [];
     PatternPuzzler.level := s.(PatternPuzzler.level) + Z.of_nat (length rs);
     PatternPuzzler.timeLeft := s.(PatternPuzzler.timeLeft);
     PatternPuzzler.score :=
       s.(PatternPuzzler.score) +
       5 * Z.of_nat (length rs) *
         (2 * s.(PatternPuzzler.level) + Z.of_nat (length rs) - 1);
     PatternPuzzler.highestLevel := s.(PatternPuzzler.highestLevel) |}.
Proof.
  revert shown s. induction rs as [|r rs IH]; intros shown s Hinput.
  - destruct s; simplify_eq/=. f_equal; lia.
  - cbn [PatternPuzzler.perfect_session].
    change (PatternPuzzler.run (?e1 :: ?e2 :: ?es) s)
      with (PatternPuzzler.run es
              (PatternPuzzler.step e2 (PatternPuzzler.step e1 s))).
    rewrite pattern_run_app.
    cbn [PatternPuzzler.step].
    unfold PatternPuzzler.shown, PatternPuzzler.nextPattern,
      PatternPuzzler.generatePattern.
    cbn [PatternPuzzler.gameState PatternPuzzler.pattern
         PatternPuzzler.playerInput PatternPuzzler.level PatternPuzzler.timeLeft
         PatternPuzzler.score PatternPuzzler.highestLevel].
    rewrite decide_True by (split; [done|rewrite length_app; simpl; lia]).
    rewrite (pattern_repeat (shown ++ [r]) []); try done; cycle 1.
    { by destruct shown. }
    cbn [PatternPuzzler.gameState PatternPuzzler.pattern
         PatternPuzzler.playerInput PatternPuzzler.level PatternPuzzler.timeLeft
         PatternPuzzler.score PatternPuzzler.highestLevel].
    rewrite IH by done.
    cbn [PatternPuzzler.gameState PatternPuzzler.pattern
         PatternPuzzler.playerInput PatternPuzzler.level PatternPuzzler.timeLeft
         PatternPuzzler.score PatternPuzzler.highestLevel].
    f_equal.
    + by destruct rs.
    + destruct rs; [done|]. by rewrite <-app_assoc.
    + simpl length. lia.
    + simpl length. lia.
Qed.

(** ** PatternPuzzler: a session while the clock runs *)

Lemma elapse_elapse (a b : nat) (s : PatternPuzzler.State) :
  elapse a (elapse b s) = elapse (a + b) s.
Proof. unfold elapse. simpl. f_equal. lia. Qed.

Lemma elapse_0 (s : PatternPuzzler.State) : elapse 0 s = s.
Proof. destruct s. unfold elapse. simpl. f_equal. lia. Qed.

(** The handlers other than the start and the timer do not read the clock. *)
Lemma step_elapse (e : PatternPuzzler.event) (t : nat) (s : PatternPuzzler.State) :
  e ≠ PatternPuzzler.Start → e ≠ PatternPuzzler.Tick →
  PatternPuzzler.step e (elapse t s) = elapse t (PatternPuzzler.step e s).
Proof.
  intros Hstart Htick. destruct e as [|captured r| | |tile]; try done; simpl.
  - unfold PatternPuzzler.shown. simpl. by case_decide.
  - unfold PatternPuzzler.handleTileClick. simpl. by repeat case_decide.
Qed.

Lemma step_keeps_time (e : PatternPuzzler.event) (s : PatternPuzzler.State) :
  e ≠ PatternPuzzler.Start → e ≠ PatternPuzzler.Tick →
  (PatternPuzzler.step e s).(PatternPuzzler.timeLeft) = s.(PatternPuzzler.timeLeft).
Proof.
  intros Hstart Htick. destruct e as [|captured r| | |tile]; try done; simpl.
  - unfold PatternPuzzler.shown. by case_decide.
  - unfold PatternPuzzler.handleTileClick. by repeat case_decide.
Qed.

Lemma tick_elapse (s : PatternPuzzler.State) :
  pattern_active s → 1 < s.(PatternPuzzler.timeLeft) →
  PatternPuzzler.tick s = elapse 1 s.
Proof.
  intros Hactive Htime. unfold PatternPuzzler.tick.
  rewrite decide_True by done. by rewrite decide_False by lia.
Qed.

Lemma stays_active_head (l : list PatternPuzzler.event) (s : PatternPuzzler.State) :
  stays_active l s → pattern_active s.
Proof. destruct l; simpl; [done|by intros [? _]]. Qed.

Lemma stays_active_elapse (l : list PatternPuzzler.event) (t : nat)
    (s : PatternPuzzler.State) :
  stays_active l s → stays_active l (elapse t s).
Proof.
  revert s. induction l as [|e l IH]; intros s; simpl; [done|].
  intros (Hactive & Hstart & Htick & Hrest). split_and!; try done.
  rewrite step_elapse by done. by apply IH.
Qed.

Lemma run_elapse (l : list PatternPuzzler.event) (t : nat)
    (s : PatternPuzzler.State) :
  stays_active l s →
  PatternPuzzler.run l (elapse t s) = elapse t (PatternPuzzler.run l s).
Proof.
  revert s. induction l as [|e l IH]; intros s; simpl; [done|].
  intros (_ & Hstart & Htick & Hrest).
  change (PatternPuzzler.run (e :: l) ?s0)
    with (PatternPuzzler.run l (PatternPuzzler.step e s0)).
  rewrite step_elapse by done. by apply IH.
Qed.

Lemma stays_active_app (l1 l2 : list PatternPuzzler.event)
    (s : PatternPuzzler.State) :
  stays_active l1 s → stays_active l2 (PatternPuzzler.run l1 s) →
  stays_active (l1 ++ l2) s.
Proof.
  revert s. induction l1 as [|e l1 IH]; intros s; simpl; [done|].
  intros (Hactive & Hstart & Htick & Hrest) Hl2. split_and!; try done.
  by apply IH.
Qed.

(** Timer firings between the handlers [l] only lower the clock, as long as
    it does not reach 0. *)
Lemma run_with_ticks (es l : list PatternPuzzler.event) (s : PatternPuzzler.State) :
  filter (λ e, e ≠ PatternPuzzler.Tick) es = l →
  stays_active l s →
  Z.of_nat (pattern_ticks es) < s.(PatternPuzzler.timeLeft) →
  PatternPuzzler.run es s = elapse (pattern_ticks es) (PatternPuzzler.run l s).
Proof.
  revert l s. induction es as [|e es IH]; intros l s Hl Hactive Htime.
  - simpl in Hl. subst l. by rewrite elapse_0.
  - change (PatternPuzzler.run (e :: es) s)
      with (PatternPuzzler.run es (PatternPuzzler.step e s)).
    unfold pattern_ticks in *. rewrite filter_cons in Hl, Htime |- *.
    destruct (decide (e = PatternPuzzler.Tick)) as [->|Hne].
    + rewrite decide_False in Hl by (by intros ?). simpl in Htime.
      pose proof (stays_active_head _ _ Hactive) as Hhead.
      cbn [PatternPuzzler.step]. rewrite tick_elapse by (done || lia).
      rewrite (IH l); [| done | by apply stays_active_elapse | simpl; lia].
      rewrite run_elapse by done. rewrite elapse_elapse. simpl length.
      f_equal. lia.
    + rewrite decide_True in Hl by done. subst l.
      destruct Hactive as (_ & Hstart & _ & Hrest).
      change (PatternPuzzler.run (e :: ?l0) s)
        with (PatternPuzzler.run l0 (PatternPuzzler.step e s)).
      apply IH; [done|done|]. by rewrite step_keeps_time.
Qed.

Lemma clicks_stay_active (todo given : list Z) (s : PatternPuzzler.State) :
  s.(PatternPuzzler.gameState) = PatternPuzzler.input →
  s.(PatternPuzzler.playerInput) = given →
  s.(PatternPuzzler.pattern) = given ++ todo →
  stays_active (PatternPuzzler.Click <$> todo) s.
Proof.
  revert given s. induction todo as [|t todo IH]; intros given s Hphase Hgiven Hpat.
  { simpl. by right; right. }
  cbn [fmap list_fmap stays_active]. split_and!; [by right; right|done|done|].
  assert (js_get s.(PatternPuzzler.pattern)
            (Z.of_nat (length s.(PatternPuzzler.playerInput))) = Some t) as Hexp.
  { rewrite Hpat, Hgiven. unfold js_get.
    rewrite decide_True by lia. rewrite Nat2Z.id.
    by rewrite list_lookup_middle. }
  cbn [PatternPuzzler.step]. unfold PatternPuzzler.handleTileClick.
  rewrite decide_False by (by rewrite Hphase; intros ?).
  cbv zeta. rewrite decide_False by (by rewrite Hexp; intros ?).
  destruct todo as [|t' todo].
  - case_decide; simpl; rewrite Hphase; by right; right.
  - rewrite decide_False; cycle 1.
    { rewrite Hpat, Hgiven, !length_app. simpl. lia. }
    apply (IH (given ++ [t])); simpl; try done.
    + by rewrite Hgiven.
    + by rewrite Hpat, <-app_assoc.
Qed.

Lemma session_stays_active (rs shown : list Z) (s : PatternPuzzler.State) :
  pattern_active s → s.(PatternPuzzler.playerInput) = [] →
  stays_active (PatternPuzzler.perfect_session rs shown) s.
Proof.
  revert shown s. induction rs as [|r rs IH]; intros shown s Hactive Hinput; [done|].
  cbn [PatternPuzzler.perfect_session stays_active PatternPuzzler.step].
  unfold PatternPuzzler.shown, PatternPuzzler.nextPattern,
    PatternPuzzler.generatePattern.
  cbn [PatternPuzzler.gameState PatternPuzzler.pattern
       PatternPuzzler.playerInput PatternPuzzler.level PatternPuzzler.timeLeft
       PatternPuzzler.score PatternPuzzler.highestLevel].
  rewrite decide_True by (split; [done|rewrite length_app; simpl; lia]).
  split_and!; try done; [by right; left|].
  apply stays_active_app.
  - by apply (clicks_stay_active _ []).
  - rewrite (pattern_repeat (shown ++ [r]) []); try done; [|by destruct shown].
    apply IH; [by right; right|done].
Qed.

(** X18.  A session of PatternPuzzler in which the player repeats every
    pattern while the clock runs: after the start and, for each tile [r]
    drawn in turn, the scheduled extension of the pattern by [r], the end of
    its presentation and clicks on the tiles of the pattern in order, with
    fewer than 60 firings of the timer anywhere in between, the pattern
    consists of the tiles drawn, the input is empty again, the level is one
    more than the number of tiles, the score is five times that number times
    the level, and the clock shows 60 less the number of firings. *)
Theorem pattern_perfect_session (rs : list Z) (es : list PatternPuzzler.event) :
  filter (λ e, e ≠ PatternPuzzler.Tick) es = PatternPuzzler.perfect_session rs [] →
  (pattern_ticks es < 60)%nat →
  PatternPuzzler.run (PatternPuzzler.Start :: es) PatternPuzzler.initial =
  {| PatternPuzzler.gameState :=
       match rs with
       | [] => PatternPuzzler.playing
       | _ => PatternPuzzler.input
       end;
     PatternPuzzler.pattern := rs;
     PatternPuzzler.playerInput := [];
     PatternPuzzler.level := 1 + Z.of_nat (length rs);
     PatternPuzzler.timeLeft := 60 - Z.of_nat (pattern_ticks es);
     PatternPuzzler.score :=
       5 * Z.of_nat (length rs) * (1 + Z.of_nat (length rs));
     PatternPuzzler.highestLevel := 0 |}.
Proof.
  intros Hsession Hticks.
  change (PatternPuzzler.run (?e :: ?l) ?s)
    with (PatternPuzzler.run l (PatternPuzzler.step e s)).
  rewrite (run_with_ticks es _ _ Hsession); cycle 1.
  { apply session_stays_active; [by left|done]. }
  { simpl. lia. }
  rewrite perfect_session_from by done.
  unfold elapse.
  cbn [PatternPuzzler.step PatternPuzzler.startGame PatternPuzzler.initial
       PatternPuzzler.gameState PatternPuzzler.pattern
       PatternPuzzler.playerInput PatternPuzzler.level PatternPuzzler.timeLeft
       PatternPuzzler.score PatternPuzzler.highestLevel].
  f_equal.
  - by destruct rs.
  - lia.
Qed.

Lemma pattern_perfect_session_witness :
  PatternPuzzler.run
    (PatternPuzzler.Start ::
     [PatternPuzzler.Tick; PatternPuzzler.Scheduled [] 2; PatternPuzzler.Tick;
      PatternPuzzler.Shown; PatternPuzzler.Click 2; PatternPuzzler.Tick;
      PatternPuzzler.Scheduled [2] 0; PatternPuzzler.Tick; PatternPuzzler.Tick;
      PatternPuzzler.Shown; PatternPuzzler.Click 2; PatternPuzzler.Tick;
      PatternPuzzler.Click 0])
    PatternPuzzler.initial =
  {| PatternPuzzler.gameState := PatternPuzzler.input;
     PatternPuzzler.pattern := [2; 0];
     PatternPuzzler.playerInput := [];
     PatternPuzzler.level := 3;
     PatternPuzzler.timeLeft := 54;
     PatternPuzzler.score := 30;
     PatternPuzzler.highestLevel := 0 |}.
Proof.
  apply (pattern_perfect_session [2; 0]).
  - reflexivity.
  - vm_compute. lia.
Defined.

(** ** GameSeries: handleGameComplete *)

Lemma scoreSum_insert (scores : gmap GameSeries.GameType Z)
    (g : GameSeries.GameType) (v : Z) :
  GameSeries.scoreSum (<[g := v]> scores) =
  GameSeries.scoreSum scores - default 0 (scores !! g) + v.
Proof.
  unfold GameSeries.scoreSum.
  destruct (scores !! g) as [old|] eqn:Hold; simpl.
  - rewrite <-insert_delete_eq.
    rewrite map_fold_insert_L; [|intros; lia|apply lookup_delete_eq].
    rewrite (map_fold_delete_L _ _ g old scores); [lia|intros; lia|done].
  - rewrite map_fold_insert_L; [lia|intros; lia|done].
Qed.

Lemma play_complete {M : Type} (reports : list (Z * option M))
    (s : GameSeries.State M) :
  s.(GameSeries.currentGame) = Some GameSeries.complete →
  GameSeries.play reports s = s.
Proof. intros Hs. destruct reports; simpl; [done|]. by rewrite Hs. Qed.

Lemma play_app {M : Type} (reports1 reports2 : list (Z * option M))
    (s : GameSeries.State M) :
  is_Some s.(GameSeries.currentGame) →
  GameSeries.play (reports1 ++ reports2) s =
  GameSeries.play reports2 (GameSeries.play reports1 s).
Proof.
  revert s. induction reports1 as [|r reports1 IH]; intros s [g Hg]; [done|].
  simpl. rewrite Hg.
  destruct (decide (g = GameSeries.complete)) as [->|Hne].
  { by rewrite play_complete. }
  assert (is_Some (GameSeries.handleGameComplete g r.1 r.2 s).(GameSeries.currentGame))
    as Hnext.
  { rewrite handleGameComplete_next. rewrite decide_False by done.
    destruct g; try done; by eexists. }
  destruct g; try done; by apply IH.
Qed.

(** X19.  From the initial state of the series, and again after every
    [restartSeries], the six games are mounted in the order stroop, hanoi,
    pattern, maze, memory, word: when each game reports its score as it
    ends, after [n] reports (at most six) the current game is the entry [n]
    of that order, the entry 6 being the final report screen, from which no
    further report is taken; the total score is the sum of the scores
    reported, each game that reported is marked as completed and the table
    of scores holds its score. *)
Theorem series_runs_in_order {M : Type} (s0 : GameSeries.State M)
    (reports : list (Z * option M)) :
  (GameSeries.play reports (GameSeries.restartSeries s0)).(GameSeries.currentGame) =
    GameSeries.gameOrder !! (length reports `min` 6)%nat ∧
  (GameSeries.play reports (GameSeries.restartSeries s0)).(GameSeries.totalScore) =
    sum_with fst (take 6 reports) ∧
  ∀ (i : nat) (g : GameSeries.GameType) (r : Z * option M),
    GameSeries.gameOrder !! i = Some g → take 6 reports !! i = Some r →
    (GameSeries.play reports (GameSeries.restartSeries s0)).(GameSeries.gameStates)
      !! g = Some true ∧
    (GameSeries.play reports (GameSeries.restartSeries s0)).(GameSeries.gameScores)
      !! g = Some r.1.
Proof.
  unfold GameSeries.restartSeries.
  destruct reports as [|r1 [|r2 [|r3 [|r4 [|r5 [|r6 rest]]]]]].
  7: { assert (GameSeries.play (r1 :: r2 :: r3 :: r4 :: r5 :: r6 :: rest)
                 (GameSeries.initial (M:=M)) =
               GameSeries.play [r1; r2; r3; r4; r5; r6] GameSeries.initial) as ->.
       { change (r1 :: r2 :: r3 :: r4 :: r5 :: r6 :: rest)
           with ([r1; r2; r3; r4; r5; r6] ++ rest).
         rewrite play_app by by eexists. by rewrite play_complete. }
       rewrite Nat.min_r by (simpl; lia).
       split_and!; [done|simpl; lia|].
       intros [|[|[|[|[|[|i]]]]]] g r Hg Hr; simplify_eq/=;
         by split; simplify_map_eq. }
  all: split_and!; [done|simpl; lia|].
  all: intros [|[|[|[|[|[|i]]]]]] g r Hg Hr; simplify_eq/=;
         by split; simplify_map_eq.
Qed.

(** X20.  Whatever games report, in whatever order and however often, the
    current game is never left undefined, the total score grows by every
    score reported, and the table of scores holds for each game the score
    of its last report; so the total is the sum of the table when no game
    reports twice, and exceeds it by the overwritten scores otherwise. *)
Theorem series_total_counts_every_report {M : Type}
    (reports : list (GameSeries.GameType * Z * option M)) :
  is_Some (GameSeries.reported reports GameSeries.initial).(GameSeries.currentGame) ∧
  (GameSeries.reported reports GameSeries.initial).(GameSeries.totalScore) =
    sum_with (λ r, r.1.2) reports ∧
  (∀ g,
    (GameSeries.reported reports GameSeries.initial).(GameSeries.gameScores) !! g =
    match last (filter (λ r, r.1.1 = g) reports) with
    | Some r => Some r.1.2
    | None => (GameSeries.initial (M:=M)).(GameSeries.gameScores) !! g
    end) ∧
  (NoDup (fst ∘ fst <$> reports) →
   GameSeries.scoreSum
     (GameSeries.reported reports GameSeries.initial).(GameSeries.gameScores) =
   (GameSeries.reported reports GameSeries.initial).(GameSeries.totalScore)).
Proof.
  induction reports as [|r reports IH] using rev_ind.
  { split_and!; [by eexists|done|done|done]. }
  destruct IH as (Hcur & Htotal & Htable & Hsum).
  rewrite reported_snoc.
  set (s := GameSeries.reported reports GameSeries.initial) in *.
  assert (sum_with (λ r0 : GameSeries.GameType * Z * option M, r0.1.2)
            (reports ++ [r]) =
          sum_with (λ r0, r0.1.2) reports + r.1.2) as Hsnoc.
  { clear. induction reports as [|a l IH]; simpl; [lia|]. rewrite IH. lia. }
  split_and!.
  - rewrite handleGameComplete_next. case_decide; [done|].
    destruct r.1.1; try done; by eexists.
  - cbn [GameSeries.handleGameComplete GameSeries.totalScore].
    rewrite Htotal, Hsnoc. done.
  - intros g. cbn [GameSeries.handleGameComplete GameSeries.gameScores].
    rewrite filter_app, filter_cons, filter_nil.
    destruct (decide (r.1.1 = g)) as [<-|Hne].
    + rewrite last_snoc. by rewrite lookup_insert_eq.
    + rewrite app_nil_r, lookup_insert_ne by done. apply Htable.
  - rewrite fmap_app, NoDup_app. intros (Hnd & Hnew & _).
    cbn [GameSeries.handleGameComplete GameSeries.totalScore
         GameSeries.gameScores].
    rewrite scoreSum_insert, (Hsum Hnd).
    assert (default 0 (s.(GameSeries.gameScores) !! r.1.1) = 0) as ->; [|lia].
    rewrite Htable.
    replace (filter (λ r0 : GameSeries.GameType * Z * option M, r0.1.1 = r.1.1)
               reports) with (@nil (GameSeries.GameType * Z * option M)).
    { simpl. by destruct r.1.1. }
    symmetry. apply length_zero_iff_nil, length_filter_none.
    intros r0 Hr0 Heq. apply (Hnew r.1.1).
    + apply list_elem_of_fmap. exists r0. by rewrite <-Heq.
    + simpl. by left.
Qed.

(** A game that reports twice is counted twice in the total, and once in
    the table. *)
Example series_double_report :
  let s := GameSeries.reported
             [(GameSeries.maze, 700, None); (GameSeries.maze, 700, None)]
             (GameSeries.initial (M:=unit)) in
  s.(GameSeries.totalScore) = 1400 ∧
  s.(GameSeries.gameScores) !! GameSeries.maze = Some 700 ∧
  GameSeries.scoreSum s.(GameSeries.gameScores) = 700.
Proof. split_and!; [done|done|]. vm_compute. reflexivity. Qed.
